(** * HMAC-signed gateway (Next.js BFF) and its Laravel validator

    A shallow embedding of the protocol code of the repository:

    - [Hmac]           : [lib/security/hmac.ts] (the signing side),
    - [HmacValidator]  : [App\Helpers\HmacValidator] (the receiving side),
    - [Route]          : [app/api/v1/[...path]/route.ts] (the proxy),
    - [Middleware]     : [middleware.ts] (the guard of the pages),
    - [Auth]           : [app/actions/auth.ts] (the server actions).

    Text is modelled as [string]: a sequence of bytes holding UTF-8.  A
    JavaScript string is identified with its UTF-8 encoding, which is what
    the code hashes ([update(s, 'utf8')]) and what travels on the wire.
    The clock, the environment variables, the configuration and the
    upstream are explicit arguments.  Writing to the log is left out: it
    changes no result. *)

From Stdlib Require Import ZArith List String Ascii Bool Lia Permutation Sorted.
Import ListNotations.
Set Warnings "-register-all".
Local Open Scope list_scope.
Local Open Scope string_scope.
Local Open Scope Z_scope.

(* ================================================================== *)
(** * Part I: definitions                                              *)
(* ================================================================== *)

(** ** Text helpers *)

Definition byte_of_ascii (c : ascii) : Z := Z.of_N (N_of_ascii c).
Definition ascii_of_byte (b : Z) : ascii := ascii_of_N (Z.to_N (b mod 256)).

Fixpoint bytes_of_string (s : string) : list Z :=
  match s with
  | EmptyString => []
  | String c r => byte_of_ascii c :: bytes_of_string r
  end.

Fixpoint string_of_bytes (l : list Z) : string :=
  match l with
  | [] => EmptyString
  | b :: r => String (ascii_of_byte b) (string_of_bytes r)
  end.

Definition hex_digit (n : Z) : ascii :=
  ascii_of_byte (if n <? 10 then 48 + n else 87 + n).

(** Two lowercase hexadecimal digits per byte, as [digest('hex')] and PHP's
    [hash] print them. *)
Fixpoint hex_of_bytes (l : list Z) : string :=
  match l with
  | [] => EmptyString
  | b :: r => String (hex_digit (b / 16)) (String (hex_digit (b mod 16)) (hex_of_bytes r))
  end.

(** ** SHA-256 and HMAC-SHA256 (FIPS 180-4, RFC 2104)

    Both services take these from their runtime ([crypto.createHash],
    [crypto.createHmac], [hash], [hash_hmac]); they are written out here so
    that signatures can be computed on concrete requests. *)

Module Sha256.

Definition mask32 : Z := 0xffffffff.
Definition add32 (a b : Z) : Z := Z.land (a + b) mask32.
Definition rotr (n x : Z) : Z :=
  Z.lor (Z.shiftr x n) (Z.land (Z.shiftl x (32 - n)) mask32).
Definition not32 (x : Z) : Z := Z.lxor x mask32.

Definition Ch (x y z : Z) : Z := Z.lxor (Z.land x y) (Z.land (not32 x) z).
Definition Maj (x y z : Z) : Z :=
  Z.lxor (Z.lxor (Z.land x y) (Z.land x z)) (Z.land y z).
Definition Sigma0 (x : Z) : Z := Z.lxor (Z.lxor (rotr 2 x) (rotr 13 x)) (rotr 22 x).
Definition Sigma1 (x : Z) : Z := Z.lxor (Z.lxor (rotr 6 x) (rotr 11 x)) (rotr 25 x).
Definition sigma0 (x : Z) : Z := Z.lxor (Z.lxor (rotr 7 x) (rotr 18 x)) (Z.shiftr x 3).
Definition sigma1 (x : Z) : Z := Z.lxor (Z.lxor (rotr 17 x) (rotr 19 x)) (Z.shiftr x 10).

(** The constants are defined as the standard defines them: the first 32
    bits of the fractional parts of the cube roots (round constants) and of
    the square roots (initial hash value) of the first primes. *)
Definition is_prime (n : Z) : bool :=
  (1 <? n) && forallb (fun d => negb (n mod Z.of_nat d =? 0)) (seq 2 (Z.to_nat n - 2)).

Definition primes : list Z :=
  filter is_prime (map Z.of_nat (seq 2 310)).

(** The integer cube root, by bisection: [lo^3 <= x < hi^3] throughout. *)
Fixpoint cube_root (fuel : nat) (lo hi x : Z) : Z :=
  match fuel with
  | O => lo
  | S f =>
      let mid := (lo + hi) / 2 in
      if mid * mid * mid <=? x then cube_root f mid hi x else cube_root f lo mid x
  end.

Definition K : list Z :=
  Eval vm_compute in
    map (fun p => Z.land (cube_root 40 0 (2 ^ 36) (p * 2 ^ 96)) mask32) primes.

Definition H0 : list Z :=
  Eval vm_compute in
    map (fun p => Z.land (Z.sqrt (p * 2 ^ 64)) mask32) (firstn 8 primes).

(** Big-endian encoding of [x] on [n] bytes. *)
Fixpoint be_bytes (n : nat) (x : Z) : list Z :=
  match n with
  | O => []
  | S m => Z.land (Z.shiftr x (8 * Z.of_nat m)) 255 :: be_bytes m x
  end.

(** The message, a [0x80] byte, zeros up to 56 modulo 64, and the bit
    length on eight bytes. *)
Definition pad (msg : list Z) : list Z :=
  let len := Z.of_nat (List.length msg) in
  let zeros := Z.to_nat ((55 - len) mod 64) in
  (msg ++ 128 :: repeat 0 zeros ++ be_bytes 8 (8 * len))%list.

(** Big-endian 32-bit words of a byte list (a trailing partial word is
    dropped; padded messages have none). *)
Fixpoint words (fuel : nat) (l : list Z) : list Z :=
  match fuel, l with
  | S f, a :: b :: c :: d :: r =>
      (Z.shiftl a 24 + Z.shiftl b 16 + Z.shiftl c 8 + d) :: words f r
  | _, _ => []
  end.

(** The message schedule: [w] holds the words computed so far, the most
    recent first; [n] more are appended. *)
Fixpoint schedule (n : nat) (w : list Z) : list Z :=
  match n with
  | O => w
  | S m =>
      let x := add32 (add32 (sigma1 (nth 1 w 0)) (nth 6 w 0))
                     (add32 (sigma0 (nth 14 w 0)) (nth 15 w 0)) in
      schedule m (x :: w)
  end.

Record regs := Regs { ra : Z; rb : Z; rc : Z; rd : Z; re : Z; rf : Z; rg : Z; rh : Z }.

Definition round (s : regs) (kw : Z * Z) : regs :=
  let (k, w) := kw in
  let t1 := add32 (add32 (add32 (rh s) (Sigma1 (re s))) (add32 (Ch (re s) (rf s) (rg s)) k)) w in
  let t2 := add32 (Sigma0 (ra s)) (Maj (ra s) (rb s) (rc s)) in
  Regs (add32 t1 t2) (ra s) (rb s) (rc s) (add32 (rd s) t1) (re s) (rf s) (rg s).

Definition regs_of (h : list Z) : regs :=
  Regs (nth 0 h 0) (nth 1 h 0) (nth 2 h 0) (nth 3 h 0)
       (nth 4 h 0) (nth 5 h 0) (nth 6 h 0) (nth 7 h 0).

Definition compress (h : list Z) (block : list Z) : list Z :=
  let w := rev (schedule 48 (rev block)) in
  let s := fold_left round (combine K w) (regs_of h) in
  [ add32 (nth 0 h 0) (ra s); add32 (nth 1 h 0) (rb s);
    add32 (nth 2 h 0) (rc s); add32 (nth 3 h 0) (rd s);
    add32 (nth 4 h 0) (re s); add32 (nth 5 h 0) (rf s);
    add32 (nth 6 h 0) (rg s); add32 (nth 7 h 0) (rh s) ].

Fixpoint blocks (fuel : nat) (h : list Z) (ws : list Z) : list Z :=
  match fuel with
  | O => h
  | S f =>
      match ws with
      | [] => h
      | _ => blocks f (compress h (firstn 16 ws)) (skipn 16 ws)
      end
  end.

(** The 32 digest bytes of a byte list. *)
Definition digest (msg : list Z) : list Z :=
  let p := pad msg in
  let ws := words (List.length p) p in
  flat_map (be_bytes 4) (blocks (List.length ws) H0 ws).

Definition block_size : nat := 64%nat.

(** RFC 2104: a key longer than a block is hashed first, then padded with
    zeros to the block size. *)
Definition hmac_key (key : list Z) : list Z :=
  let k := if Nat.ltb block_size (List.length key) then digest key else key in
  (k ++ repeat 0 (block_size - List.length k))%list.

Definition hmac (key msg : list Z) : list Z :=
  let k := hmac_key key in
  let ipad := map (fun b => Z.lxor b 0x36) k in
  let opad := map (fun b => Z.lxor b 0x5c) k in
  digest (opad ++ digest (ipad ++ msg))%list.

End Sha256.

(** [createHash('sha256').update(s, 'utf8').digest('hex')] and PHP's
    [hash('sha256', s)]. *)
Definition sha256_hex (s : string) : string :=
  hex_of_bytes (Sha256.digest (bytes_of_string s)).

(** [createHmac('sha256', key).update(s, 'utf8').digest('hex')] and PHP's
    [hash_hmac('sha256', s, key)]. *)
Definition hmac_sha256_hex (key s : string) : string :=
  hex_of_bytes (Sha256.hmac (bytes_of_string key) (bytes_of_string s)).

(** ** Characters and decimal numerals *)

Definition dquote : ascii := "034"%char.
Definition backslash : ascii := "092"%char.
Definition apostrophe : ascii := "039"%char.

(** [txt s] is [s] with every apostrophe replaced by a double quote; the
    JSON texts of the examples are written with it. *)
Fixpoint txt (s : string) : string :=
  match s with
  | EmptyString => EmptyString
  | String c r => String (if Ascii.eqb c apostrophe then dquote else c) (txt r)
  end.

Definition is_digit (c : ascii) : bool :=
  let b := byte_of_ascii c in (48 <=? b) && (b <=? 57).

Definition digit_value (c : ascii) : Z := byte_of_ascii c - 48.

Fixpoint all_digits (s : string) : bool :=
  match s with
  | EmptyString => true
  | String c r => is_digit c && all_digits r
  end.

(** Value of a string of decimal digits, most significant first. *)
Fixpoint digits_value (acc : Z) (s : string) : Z :=
  match s with
  | EmptyString => acc
  | String c r => digits_value (10 * acc + digit_value c) r
  end.

Fixpoint dec_digits (fuel : nat) (n : Z) (acc : string) : string :=
  match fuel with
  | O => acc
  | S f =>
      let acc' := String (ascii_of_byte (48 + n mod 10)) acc in
      if n <? 10 then acc' else dec_digits f (n / 10) acc'
  end.

(** Decimal numeral of a natural number (it has at most as many digits as
    bits). *)
Definition dec_of_nat (n : Z) : string :=
  dec_digits (S (Z.to_nat (Z.log2 n))) n EmptyString.

(** Decimal numeral of an integer: [Number.prototype.toString] and
    [JSON.stringify] on an integral number, PHP's conversion of an [int]. *)
Definition dec_of_Z (n : Z) : string :=
  if n <? 0 then String "-" (dec_of_nat (- n)) else dec_of_nat n.

Fixpoint drop (n : nat) (s : string) : string :=
  match n, s with
  | S m, String _ r => drop m r
  | _, _ => s
  end.

Fixpoint includes (pat s : string) : bool :=
  String.prefix pat s ||
  match s with
  | EmptyString => false
  | String _ r => includes pat r
  end.

Definition startsWith (s pat : string) : bool := String.prefix pat s.

(** ** JSON values

    Numbers are the integers that both runtimes hold exactly (up to
    [2^53 - 1] in magnitude); [JNum n] stands for no value of JavaScript
    beyond, where a number is a double that rounds [n] and is written with
    an exponent from [10^21] on, and a number with a fraction or an
    exponent is outside the model ([JsonText.parse] reads none).  An
    object is the list of its properties in the order the runtime
    enumerates them. *)

Inductive json : Type :=
| JNull
| JBool (b : bool)
| JNum (n : Z)
| JStr (s : string)
| JArr (items : list json)
| JObj (props : list (string * json)).

Definition keys {A : Type} (props : list (string * A)) : list string := map fst props.

Fixpoint lookup {A : Type} (k : string) (props : list (string * A)) : option A :=
  match props with
  | [] => None
  | (k', v) :: r => if String.eqb k k' then Some v else lookup k r
  end.

Definition has_key {A : Type} (k : string) (props : list (string * A)) : bool :=
  match lookup k props with Some _ => true | None => false end.

Fixpoint nodupb (l : list string) : bool :=
  match l with
  | [] => true
  | k :: r => negb (existsb (String.eqb k) r) && nodupb r
  end.

(** A JavaScript object holds each key once. *)
Fixpoint wf_json (v : json) : bool :=
  match v with
  | JArr items => forallb wf_json items
  | JObj props => nodupb (keys props) && forallb (fun kv => wf_json (snd kv)) props
  | _ => true
  end.

(** How deep the arrays and objects of a value are nested: [0] for a
    scalar, [1] for an array of scalars. *)
Fixpoint depth (v : json) : nat :=
  match v with
  | JArr items => S (fold_right (fun x n => Nat.max (depth x) n) O items)
  | JObj props => S (fold_right (fun kv n => Nat.max (depth (snd kv)) n) O props)
  | _ => O
  end.

(** ** The JavaScript side: objects, [sort], [JSON.stringify] *)

Module Js.

(** An array index is the canonical numeral of an integer below
    [2^32 - 1]; an object enumerates such keys first, in ascending
    numeric order, and the other keys after them in creation order. *)
Definition array_index (k : string) : option Z :=
  match k with
  | EmptyString => None
  | String c r =>
      if all_digits k && (negb (Ascii.eqb c "0") || String.eqb r EmptyString)
         && (digits_value 0 k <? 4294967295)
      then Some (digits_value 0 k) else None
  end.

Fixpoint update (k : string) (v : json) (o : list (string * json)) : list (string * json) :=
  match o with
  | [] => []
  | (k', v') :: r => if String.eqb k k' then (k', v) :: r else (k', v') :: update k v r
  end.

Fixpoint insert_index (i : Z) (k : string) (v : json) (o : list (string * json))
  : list (string * json) :=
  match o with
  | [] => [(k, v)]
  | (k', v') :: r =>
      match array_index k' with
      | Some j => if j <? i then (k', v') :: insert_index i k v r else (k, v) :: o
      | None => (k, v) :: o
      end
  end.

(** Defining the own property [k] of [o] (what [JSON.parse] does for each
    member it reads): an existing key keeps its place. *)
Definition define (o : list (string * json)) (k : string) (v : json) : list (string * json) :=
  if has_key k o then update k v o
  else match array_index k with
       | Some i => insert_index i k v o
       | None => (o ++ [(k, v)])%list
       end.

(** The assignment [o[k] = v] on an object created by [{}].  The key
    [__proto__] reaches the accessor of [Object.prototype], which sets the
    prototype (or does nothing) and creates no own property. *)
Definition assign (o : list (string * json)) (k : string) (v : json) : list (string * json) :=
  if String.eqb k "__proto__" then o else define o k v.

Definition continuation (b : Z) : bool := (128 <=? b) && (b <? 192).

(** The UTF-16 code units of a text held as UTF-8, which are what a
    JavaScript string is made of: a character of one, two or three bytes
    is one unit, a character of four bytes is a pair of surrogates.  A
    byte that begins no such character stands for itself (the UTF-8 form
    of a JavaScript string has none). *)
Fixpoint code_units (bs : list Z) : list Z :=
  match bs with
  | [] => []
  | b :: r =>
      match r with
      | [] => [b]
      | c1 :: r1 =>
          if (194 <=? b) && (b <? 224) && continuation c1
          then ((b - 192) * 64 + (c1 - 128)) :: code_units r1
          else
            match r1 with
            | [] => b :: code_units r
            | c2 :: r2 =>
                if (224 <=? b) && (b <? 240) && continuation c1 && continuation c2
                then ((b - 224) * 4096 + (c1 - 128) * 64 + (c2 - 128)) :: code_units r2
                else
                  match r2 with
                  | [] => b :: code_units r
                  | c3 :: r3 =>
                      if (240 <=? b) && (b <? 245) && continuation c1 && continuation c2
                         && continuation c3
                      then
                        let p := (b - 240) * 262144 + (c1 - 128) * 4096
                                 + (c2 - 128) * 64 + (c3 - 128) - 65536 in
                        (55296 + p / 1024) :: (56320 + p mod 1024) :: code_units r3
                      else b :: code_units r
                  end
            end
      end
  end.

(** The order of two sequences of code units: the first unit that differs
    decides, and a proper prefix comes first. *)
Fixpoint compare_units (a b : list Z) : comparison :=
  match a, b with
  | [], [] => Eq
  | [], _ :: _ => Lt
  | _ :: _, [] => Gt
  | x :: a', y :: b' =>
      match Z.compare x y with
      | Eq => compare_units a' b'
      | c => c
      end
  end.

(** The comparison of [Array.prototype.sort()] with no comparator on two
    strings: [a <= b] in the order of their code units.  (Two strings with
    the same code units are the same JavaScript string; texts that are no
    UTF-8 of a JavaScript string and decode alike are told apart by their
    bytes, so that the order is total on every text.) *)
Definition leb (a b : string) : bool :=
  match compare_units (code_units (bytes_of_string a)) (code_units (bytes_of_string b)) with
  | Lt => true
  | Eq => String.leb a b
  | Gt => false
  end.

Fixpoint insert_sorted (k : string) (l : list string) : list string :=
  match l with
  | [] => [k]
  | k' :: r => if leb k k' then k :: l else k' :: insert_sorted k r
  end.

(** [Array.prototype.sort()] with no comparator on an array of strings:
    ascending order of the code units.  (This is the order of the UTF-8
    bytes except between a supplementary character, whose surrogates are
    in D800..DFFF, and a character of U+E000..U+FFFF.) *)
Definition sort (l : list string) : list string := fold_right insert_sorted [] l.

Definition truthy (v : json) : bool :=
  match v with
  | JNull => false
  | JBool b => b
  | JNum n => negb (n =? 0)
  | JStr s => negb (String.eqb s EmptyString)
  | JArr _ | JObj _ => true
  end.

Definition hex2 (b : Z) : string :=
  String (hex_digit (b / 16)) (String (hex_digit (b mod 16)) EmptyString).

(** [QuoteJSONString], one character at a time. *)
Definition quote_char (c : ascii) : string :=
  let b := byte_of_ascii c in
  if b =? 8 then "\b" else if b =? 9 then "\t" else if b =? 10 then "\n"
  else if b =? 12 then "\f" else if b =? 13 then "\r"
  else if b =? 34 then String backslash (String dquote EmptyString)
  else if b =? 92 then String backslash (String backslash EmptyString)
  else if b <? 32 then "\u00" ++ hex2 b
  else String c EmptyString.

Fixpoint quote_chars (s : string) : string :=
  match s with
  | EmptyString => EmptyString
  | String c r => quote_char c ++ quote_chars r
  end.

Definition quote (s : string) : string :=
  String dquote (quote_chars s ++ String dquote EmptyString).

(** [JSON.stringify(v)] with no indentation.  (A number is written as its
    decimal numeral, as JavaScript writes the integers below [10^21] that
    it holds exactly.) *)
Fixpoint JSON_stringify (v : json) : string :=
  match v with
  | JNull => "null"
  | JBool true => "true"
  | JBool false => "false"
  | JNum n => dec_of_Z n
  | JStr s => quote s
  | JArr items => "[" ++ String.concat "," (map JSON_stringify items) ++ "]"
  | JObj props =>
      "{" ++ String.concat ","
               (map (fun '(k, x) => quote k ++ ":" ++ JSON_stringify x) props)
          ++ "}"
  end.

(** The byte sequences of the characters matched by [\s]: tab, line feed,
    vertical tab, form feed, carriage return, space, U+00A0, U+1680,
    U+2000..U+200A, U+2028, U+2029, U+202F, U+205F, U+3000, U+FEFF. *)
Definition whitespace : list string :=
  map string_of_bytes
    (app [ [9]; [10]; [11]; [12]; [13]; [32]; [0xC2; 0xA0]; [0xE1; 0x9A; 0x80] ]
      (app (map (fun b => [0xE2; 0x80; b])
              [0x80; 0x81; 0x82; 0x83; 0x84; 0x85; 0x86; 0x87; 0x88; 0x89; 0x8A; 0xA8; 0xA9; 0xAF])
           [ [0xE2; 0x81; 0x9F]; [0xE3; 0x80; 0x80]; [0xEF; 0xBB; 0xBF] ])).

Fixpoint strip_whitespace (fuel : nat) (s : string) : string :=
  match fuel, s with
  | S f, String c r =>
      match find (fun w => String.prefix w s) whitespace with
      | Some w => strip_whitespace f (drop (String.length w) s)
      | None => String c (strip_whitespace f r)
      end
  | _, _ => s
  end.

(** [s.replace(/\s/g, '')]. *)
Definition remove_whitespace (s : string) : string :=
  strip_whitespace (String.length s) s.

End Js.

(** ** Runtime context shared by the TypeScript modules *)

(** The variables read from [process.env]. *)
Record ProcessEnv := {
  env_BFF_HMAC_SECRET : option string;
  env_BFF_ID : option string;
  env_LARAVEL_API_URL : option string;
  env_NODE_ENV : option string
}.

(** [process.env.X || d]: an unset or empty variable yields the default. *)
Definition or_default (v : option string) (d : string) : string :=
  match v with
  | Some s => if String.eqb s EmptyString then d else s
  | None => d
  end.

(** [types.ts]: the error codes and the controlled exception; [Error] is
    the plain JavaScript exception with its [name] and [message]. *)
Inductive BffErrorCode :=
| INVALID_SIGNATURE | MISSING_HEADERS | TIMESTAMP_EXPIRED | INVALID_BFF_ID
| UPSTREAM_ERROR | NETWORK_ERROR | TIMEOUT.

Definition code_name (c : BffErrorCode) : string :=
  match c with
  | INVALID_SIGNATURE => "INVALID_SIGNATURE"
  | MISSING_HEADERS => "MISSING_HEADERS"
  | TIMESTAMP_EXPIRED => "TIMESTAMP_EXPIRED"
  | INVALID_BFF_ID => "INVALID_BFF_ID"
  | UPSTREAM_ERROR => "UPSTREAM_ERROR"
  | NETWORK_ERROR => "NETWORK_ERROR"
  | TIMEOUT => "TIMEOUT"
  end.

Inductive exn :=
| BffException (code : BffErrorCode) (message : string)
| Error (name message : string).

(** A computation that returns or throws. *)
Inductive result (A : Type) :=
| Return (a : A)
| Throw (e : exn).
Arguments Return {A} a.
Arguments Throw {A} e.

Definition bind {A B : Type} (r : result A) (k : A -> result B) : result B :=
  match r with
  | Return a => k a
  | Throw e => Throw e
  end.

Notation "x <- r ;; k" := (bind r (fun x => k))
  (at level 61, r at next level, right associativity).

(** ** [lib/security/hmac.ts] *)

Module Hmac.

Definition BFF_SECRET (env : ProcessEnv) : string :=
  or_default (env_BFF_HMAC_SECRET env) EmptyString.

Definition BFF_ID (env : ProcessEnv) : string :=
  or_default (env_BFF_ID env) "nextjs-bff-prod".

Definition ensureHmacConfigured (env : ProcessEnv) : result unit :=
  if String.eqb (BFF_SECRET env) EmptyString
  then Throw (Error "Error" "BFF_HMAC_SECRET environment variable is not set")
  else Return tt.

(** The step of the [reduce]: [acc[key] = sortObjectKeys(obj[key])], with
    [values] the properties of [obj] already canonicalised.  [key] ranges
    over [Object.keys(obj)], so [obj[key]] is defined. *)
Definition reducer (values : list (string * json))
           (acc : list (string * json)) (key : string) : list (string * json) :=
  match lookup key values with
  | Some v => Js.assign acc key v
  | None => acc
  end.

(** The values are canonicalised first (which does not depend on the
    order of the keys) to keep the recursion structural. *)
Fixpoint sortObjectKeys (obj : json) : json :=
  match obj with
  | JArr items => JArr (map sortObjectKeys items)
  | JObj props =>
      let values := map (fun '(k, v) => (k, sortObjectKeys v)) props in
      JObj (fold_left (reducer values) (Js.sort (keys props)) [])
  | _ => obj
  end.

(** The body argument is [None] for [undefined].  The replacer passed to
    [JSON.stringify] returns its [value] on both branches, and the indent
    is [0], so the call is [JSON.stringify(normalized)]. *)
Definition hashBody (body : option json) : string :=
  match body with
  | None => EmptyString
  | Some b =>
      if negb (Js.truthy b) then EmptyString
      else
        let normalized := sortObjectKeys b in
        let jsonString := Js.JSON_stringify normalized in
        let compactJson := Js.remove_whitespace jsonString in
        sha256_hex compactJson
  end.

Record HmacResult := {
  X_BFF_Id : string;
  X_BFF_Timestamp : string;
  X_BFF_Signature : string;
  normalizedBody : option string
}.

(** [now_ms] is [Date.now()]. *)
Definition generateSignature (env : ProcessEnv) (now_ms : Z)
           (method path : string) (body : option json) : result HmacResult :=
  _ <- ensureHmacConfigured env ;;
  let timestamp := dec_of_Z (now_ms / 1000) in
  let bodyHash := hashBody body in
  let payload := timestamp ++ ":" ++ method ++ ":" ++ path ++ ":" ++ bodyHash in
  let signature := hmac_sha256_hex (BFF_SECRET env) payload in
  let normalizedBody :=
    match body with
    | None | Some JNull => None
    | Some b => Some (Js.JSON_stringify (sortObjectKeys b))
    end in
  Return {| X_BFF_Id := BFF_ID env;
            X_BFF_Timestamp := timestamp;
            X_BFF_Signature := signature;
            normalizedBody := normalizedBody |}.

Definition buildLaravelPath (bffPath : string) : string := bffPath.

End Hmac.

(** ** Reading JSON text (RFC 8259)

    The reader shared by the models of [JSON.parse] and [json_decode].  It
    yields the members of an object as written, duplicates included; each
    runtime then builds its own value.  Numbers are integer literals: a
    fraction or an exponent is outside the model and is refused.  The text
    is taken to be valid UTF-8, and an escaped lone surrogate is refused. *)

Module JsonText.

Definition is_ws (c : ascii) : bool :=
  let b := byte_of_ascii c in (b =? 32) || (b =? 9) || (b =? 10) || (b =? 13).

Fixpoint skip_ws (s : string) : string :=
  match s with
  | String c r => if is_ws c then skip_ws r else s
  | EmptyString => s
  end.

Definition hex_value (c : ascii) : option Z :=
  let b := byte_of_ascii c in
  if (48 <=? b) && (b <=? 57) then Some (b - 48)
  else if (97 <=? b) && (b <=? 102) then Some (b - 87)
  else if (65 <=? b) && (b <=? 70) then Some (b - 55)
  else None.

(** The code unit written by four hexadecimal digits, and the rest. *)
Definition hex4 (s : string) : option (Z * string) :=
  match s with
  | String a (String b (String c (String d r))) =>
      match hex_value a, hex_value b, hex_value c, hex_value d with
      | Some x, Some y, Some z, Some w => Some (((x * 16 + y) * 16 + z) * 16 + w, r)
      | _, _, _, _ => None
      end
  | _ => None
  end.

Definition utf8 (cp : Z) : string :=
  string_of_bytes
    (if cp <? 0x80 then [cp]
     else if cp <? 0x800 then [0xC0 + cp / 64; 0x80 + cp mod 64]
     else if cp <? 0x10000 then
       [0xE0 + cp / 4096; 0x80 + (cp / 64) mod 64; 0x80 + cp mod 64]
     else [0xF0 + cp / 262144; 0x80 + (cp / 4096) mod 64;
           0x80 + (cp / 64) mod 64; 0x80 + cp mod 64]).

(** The characters of a string up to its closing quote, and the rest. *)
Fixpoint parse_chars (fuel : nat) (s : string) (acc : string) : option (string * string) :=
  match fuel, s with
  | S f, String c r =>
      let b := byte_of_ascii c in
      if b =? 34 then Some (acc, r)
      else if b <? 32 then None
      else if b =? 92 then
        match r with
        | String e r' =>
            let x := byte_of_ascii e in
            if (x =? 34) || (x =? 92) || (x =? 47) then parse_chars f r' (acc ++ String e EmptyString)
            else if x =? 98 then parse_chars f r' (acc ++ string_of_bytes [8])
            else if x =? 102 then parse_chars f r' (acc ++ string_of_bytes [12])
            else if x =? 110 then parse_chars f r' (acc ++ string_of_bytes [10])
            else if x =? 114 then parse_chars f r' (acc ++ string_of_bytes [13])
            else if x =? 116 then parse_chars f r' (acc ++ string_of_bytes [9])
            else if x =? 117 then
              match hex4 r' with
              | Some (hi, r2) =>
                  if (0xD800 <=? hi) && (hi <? 0xDC00) then
                    match r2 with
                    | String b1 (String b2 r3) =>
                        if Ascii.eqb b1 backslash && Ascii.eqb b2 "u" then
                          match hex4 r3 with
                          | Some (lo, r4) =>
                              if (0xDC00 <=? lo) && (lo <? 0xE000)
                              then parse_chars f r4
                                     (acc ++ utf8 (0x10000 + (hi - 0xD800) * 1024 + (lo - 0xDC00)))
                              else None
                          | None => None
                          end
                        else None
                    | _ => None
                    end
                  else if (0xDC00 <=? hi) && (hi <? 0xE000) then None
                  else parse_chars f r2 (acc ++ utf8 hi)
              | None => None
              end
            else None
        | EmptyString => None
        end
      else parse_chars f r (acc ++ String c EmptyString)
  | _, _ => None
  end.

Definition parse_string (s : string) : option (string * string) :=
  match s with
  | String c r => if Ascii.eqb c dquote then parse_chars (String.length r) r EmptyString else None
  | EmptyString => None
  end.

Fixpoint span_digits (s : string) : string * string :=
  match s with
  | String c r =>
      if is_digit c then let (d, r') := span_digits r in (String c d, r') else (EmptyString, s)
  | EmptyString => (EmptyString, s)
  end.

(** An integer literal (an optional minus sign, then a single [0] or a
    numeral that starts with a non-zero digit), not followed by a fraction
    or an exponent.  Minus zero is a double too, and is refused with
    them. *)
Definition parse_number (s : string) : option (Z * string) :=
  let (neg, s1) := match s with
                   | String "-" r => (true, r)
                   | _ => (false, s)
                   end in
  match s1 with
  | String c _ =>
      if is_digit c then
        let (d, r) := if Ascii.eqb c "0" then (String c EmptyString, drop 1 s1) else span_digits s1 in
        match r with
        | String "." _ | String "e" _ | String "E" _ => None
        | _ =>
            if neg && (digits_value 0 d =? 0) then None
            else Some (if neg then - digits_value 0 d else digits_value 0 d, r)
        end
      else None
  | EmptyString => None
  end.

Definition expect (c : ascii) (s : string) : option string :=
  match s with
  | String c' r => if Ascii.eqb c c' then Some r else None
  | EmptyString => None
  end.

Fixpoint parse_value (fuel : nat) (s : string) : option (json * string) :=
  match fuel with
  | O => None
  | S f =>
      let s := skip_ws s in
      match s with
      | EmptyString => None
      | String c r =>
          if Ascii.eqb c "{" then
            match skip_ws r with
            | String "}" r' => Some (JObj [], r')
            | r' => parse_members f r' []
            end
          else if Ascii.eqb c "[" then
            match skip_ws r with
            | String "]" r' => Some (JArr [], r')
            | r' => parse_elements f r' []
            end
          else if Ascii.eqb c dquote then
            match parse_string s with
            | Some (x, r') => Some (JStr x, r')
            | None => None
            end
          else if String.prefix "true" s then Some (JBool true, drop 4 s)
          else if String.prefix "false" s then Some (JBool false, drop 5 s)
          else if String.prefix "null" s then Some (JNull, drop 4 s)
          else match parse_number s with
               | Some (n, r') => Some (JNum n, r')
               | None => None
               end
      end
  end
with parse_elements (fuel : nat) (s : string) (acc : list json) : option (json * string) :=
  match fuel with
  | O => None
  | S f =>
      match parse_value f s with
      | Some (v, r) =>
          match skip_ws r with
          | String "," r' => parse_elements f r' (acc ++ [v])%list
          | String "]" r' => Some (JArr (acc ++ [v])%list, r')
          | _ => None
          end
      | None => None
      end
  end
with parse_members (fuel : nat) (s : string) (acc : list (string * json)) : option (json * string) :=
  match fuel with
  | O => None
  | S f =>
      match parse_string (skip_ws s) with
      | Some (k, r) =>
          match expect ":" (skip_ws r) with
          | Some r1 =>
              match parse_value f r1 with
              | Some (v, r2) =>
                  match skip_ws r2 with
                  | String "," r' => parse_members f r' (acc ++ [(k, v)])%list
                  | String "}" r' => Some (JObj (acc ++ [(k, v)])%list, r')
                  | _ => None
                  end
              | None => None
              end
          | None => None
          end
      | None => None
      end
  end.

(** A whole text: one value between optional white space. *)
Definition parse (s : string) : option json :=
  match parse_value (2 * String.length s + 2) s with
  | Some (v, r) => match skip_ws r with EmptyString => Some v | _ => None end
  | None => None
  end.

End JsonText.

(** [JSON.parse]: each member read defines an own property of the object
    under construction, so a repeated key keeps its first place and its last
    value, and array indices come first. *)
Fixpoint js_value (v : json) : json :=
  match v with
  | JArr items => JArr (map js_value items)
  | JObj members =>
      JObj (fold_left (fun acc '(k, x) => Js.define acc k x)
                      (map (fun '(k, x) => (k, js_value x)) members) [])
  | _ => v
  end.

Definition JSON_parse (s : string) : option json :=
  option_map js_value (JsonText.parse s).

(** ** The PHP side: numeric strings, arrays, [json_decode], [ksort],
    [json_encode] *)

Module Php.

Definition is_space (c : ascii) : bool :=
  let b := byte_of_ascii c in
  (b =? 32) || (b =? 9) || (b =? 10) || (b =? 13) || (b =? 11) || (b =? 12).

Fixpoint skip_spaces (s : string) : string :=
  match s with
  | String c r => if is_space c then skip_spaces r else s
  | EmptyString => s
  end.

Definition read_sign (s : string) : bool * string :=
  match s with
  | String c r =>
      if Ascii.eqb c "-" then (true, r)
      else if Ascii.eqb c "+" then (false, r)
      else (false, s)
  | EmptyString => (false, s)
  end.

(** The digits after a decimal point, when the string starts with one. *)
Definition read_fraction (s : string) : option (string * string) :=
  match s with
  | String c r => if Ascii.eqb c "." then Some (JsonText.span_digits r) else None
  | EmptyString => None
  end.

(** An exponent counts only when digits follow its sign. *)
Definition read_exponent (s : string) : Z * string :=
  match s with
  | String c r =>
      if Ascii.eqb c "e" || Ascii.eqb c "E" then
        let (eneg, r1) := read_sign r in
        let (ed, r2) := JsonText.span_digits r1 in
        if String.eqb ed EmptyString then (0, s)
        else (if eneg then - digits_value 0 ed else digits_value 0 ed, r2)
      else (0, s)
  | EmptyString => (0, s)
  end.

(** The leading number of a string, as PHP reads numeric strings: white
    space, a sign, digits with an optional fraction (one of the two parts
    may be missing), an optional exponent.  The result is [(m, e, rest)]
    for the value [m * 10^e] followed by [rest].  (PHP rounds a fraction
    or an exponent to a double; the model keeps the decimal value
    exactly.) *)
Definition scan_number (s : string) : option (Z * Z * string) :=
  let (neg, s2) := read_sign (skip_spaces s) in
  let (ip, s3) := JsonText.span_digits s2 in
  let (fp, s4) := match read_fraction s3 with
                  | Some x => x
                  | None => (EmptyString, s3)
                  end in
  if String.eqb ip EmptyString && String.eqb fp EmptyString then None
  else
    let (ex, s5) := read_exponent s4 in
    let m := digits_value 0 (ip ++ fp) in
    Some (if neg then - m else m, ex - Z.of_nat (String.length fp), s5).

Definition PHP_INT_MAX : Z := 9223372036854775807.
Definition PHP_INT_MIN : Z := -9223372036854775808.

(** [(int) $s]: the leading number truncated toward zero and capped to
    the range of [int]; [0] when the string does not start with one. *)
Definition intval (s : string) : Z :=
  match scan_number s with
  | None => 0
  | Some (m, e, _) =>
      let v := if 0 <=? e then m * 10 ^ e else Z.quot m (10 ^ (- e)) in
      Z.max PHP_INT_MIN (Z.min PHP_INT_MAX v)
  end.

(** The value of a numeric string (white space may follow the number). *)
Definition numeric (s : string) : option (Z * Z) :=
  match scan_number s with
  | Some (m, e, rest) =>
      if String.eqb (skip_spaces rest) EmptyString then Some (m, e) else None
  | None => None
  end.

Definition compare_numbers (a b : Z * Z) : comparison :=
  let (m1, e1) := a in
  let (m2, e2) := b in
  let e := Z.min e1 e2 in
  Z.compare (m1 * 10 ^ (e1 - e)) (m2 * 10 ^ (e2 - e)).

(** [empty($s)] on a string. *)
Definition empty (s : string) : bool := String.eqb s EmptyString || String.eqb s "0".

(** Array keys are integers or strings. *)
Inductive key :=
| KInt (n : Z)
| KStr (s : string).

Inductive value :=
| PNull
| PBool (b : bool)
| PInt (n : Z)
| PStr (s : string)
| PArr (entries : list (key * value)).

Definition key_eqb (a b : key) : bool :=
  match a, b with
  | KInt x, KInt y => x =? y
  | KStr x, KStr y => String.eqb x y
  | _, _ => false
  end.

(** A string key that is the canonical decimal numeral of an [int] is
    stored as that integer. *)
Definition array_key (s : string) : key :=
  if String.eqb (dec_of_Z (intval s)) s then KInt (intval s) else KStr s.

(** [$a[$k] = $v]: an existing key keeps its place, a new one goes last. *)
Fixpoint set (k : key) (v : value) (a : list (key * value)) : list (key * value) :=
  match a with
  | [] => [(k, v)]
  | (k', v') :: r => if key_eqb k k' then (k', v) :: r else (k', v') :: set k v r
  end.

Fixpoint index_from (i : Z) (l : list value) : list (key * value) :=
  match l with
  | [] => []
  | v :: r => (KInt i, v) :: index_from (i + 1) r
  end.

(** The PHP value of a JSON value under [json_decode($s, true)]: objects
    and arrays both become arrays, and an integer that fits an [int] is
    an [int] (a larger one becomes a float, which is outside the
    model). *)
Fixpoint of_json (v : json) : value :=
  match v with
  | JNull => PNull
  | JBool b => PBool b
  | JNum n => PInt n
  | JStr s => PStr s
  | JArr items => PArr (index_from 0 (map of_json items))
  | JObj members =>
      PArr (fold_left (fun acc '(k, x) => set (array_key k) x acc)
                      (map (fun '(k, x) => (k, of_json x)) members) [])
  end.

(** [json_decode($s, true)], with its default depth of 512: a text whose
    arrays and objects are nested 512 deep or more does not decode.
    [None] stands for the [null] of a text that does not parse or
    decode.  ([json_encode] has the same default depth and refuses
    nothing that was decoded.) *)
Definition json_decode (s : string) : option value :=
  match JsonText.parse s with
  | Some v => if (depth v <? 512)%nat then Some (of_json v) else None
  | None => None
  end.

(** The comparison [ksort] makes between two keys (PHP 8): integers by
    value, two numeric strings by value, an integer and a numeric string
    by value, and otherwise the bytes of the two keys as strings. *)
Definition compare_keys (a b : key) : comparison :=
  match a, b with
  | KInt x, KInt y => Z.compare x y
  | KStr s, KStr t =>
      match numeric s, numeric t with
      | Some x, Some y => compare_numbers x y
      | _, _ => String.compare s t
      end
  | KInt x, KStr t =>
      match numeric t with
      | Some y => compare_numbers (x, 0) y
      | None => String.compare (dec_of_Z x) t
      end
  | KStr s, KInt y =>
      match numeric s with
      | Some x => compare_numbers x (y, 0)
      | None => String.compare s (dec_of_Z y)
      end
  end.

Definition key_leb (a b : key) : bool :=
  match compare_keys a b with Gt => false | _ => true end.

Fixpoint insert_entry (e : key * value) (l : list (key * value)) : list (key * value) :=
  match l with
  | [] => [e]
  | e' :: r => if key_leb (fst e) (fst e') then e :: l else e' :: insert_entry e r
  end.

(** [ksort($a)]: a stable sort of the entries by key.  Where
    [compare_keys] is an order the result is the sorted array whatever
    the algorithm; it is no order on keys that mix numerals with other
    strings (it is not transitive there), and for such arrays the result
    in PHP is the one of its own algorithm, which is not modelled. *)
Definition ksort (a : list (key * value)) : list (key * value) :=
  fold_right insert_entry [] a.

Fixpoint is_list_from (i : Z) (a : list (key * value)) : bool :=
  match a with
  | [] => true
  | (KInt n, _) :: r => (n =? i) && is_list_from (i + 1) r
  | (KStr _, _) :: _ => false
  end.

(** [json_encode] escapes, with [JSON_UNESCAPED_SLASHES] and
    [JSON_UNESCAPED_UNICODE]: the quote, the backslash and the control
    characters. *)
Definition encode_char (c : ascii) : string :=
  let b := byte_of_ascii c in
  if b =? 8 then "\b" else if b =? 9 then "\t" else if b =? 10 then "\n"
  else if b =? 12 then "\f" else if b =? 13 then "\r"
  else if b =? 34 then String backslash (String dquote EmptyString)
  else if b =? 92 then String backslash (String backslash EmptyString)
  else if b <? 32 then "\u00" ++ Js.hex2 b
  else String c EmptyString.

(** U+2028 and U+2029 stay escaped under [JSON_UNESCAPED_UNICODE]: each
    is written as a backslash, the letter u and its four hexadecimal
    digits. *)
Fixpoint encode_chars (fuel : nat) (s : string) : string :=
  match fuel, s with
  | S f, String c r =>
      if String.prefix (string_of_bytes [0xE2; 0x80; 0xA8]) s
      then String backslash "u2028" ++ encode_chars f (drop 3 s)
      else if String.prefix (string_of_bytes [0xE2; 0x80; 0xA9]) s
      then String backslash "u2029" ++ encode_chars f (drop 3 s)
      else encode_char c ++ encode_chars f r
  | _, _ => EmptyString
  end.

Definition encode_string (s : string) : string :=
  String dquote (encode_chars (String.length s) s ++ String dquote EmptyString).

Definition key_string (k : key) : string :=
  match k with
  | KInt n => dec_of_Z n
  | KStr s => s
  end.

(** [json_encode($v, JSON_UNESCAPED_SLASHES | JSON_UNESCAPED_UNICODE)]: an
    array whose keys are [0, 1, ..., n-1] in this order is written as a
    JSON array (the empty array too), any other as an object. *)
Fixpoint json_encode (v : value) : string :=
  match v with
  | PNull => "null"
  | PBool true => "true"
  | PBool false => "false"
  | PInt n => dec_of_Z n
  | PStr s => encode_string s
  | PArr entries =>
      if is_list_from 0 entries
      then "[" ++ String.concat "," (map (fun '(_, x) => json_encode x) entries) ++ "]"
      else "{" ++ String.concat ","
                    (map (fun '(k, x) => encode_string (key_string k) ++ ":" ++ json_encode x)
                         entries)
               ++ "}"
  end.

End Php.

(** ** [App\Helpers\HmacValidator] *)

Module HmacValidator.

(** What the validator reads of the request: [headers] holds the header
    lines as received, [path] is [$request->path()] (no leading slash),
    [content] the raw body. *)
Record Request := {
  headers : list (string * string);
  method : string;
  path : string;
  content : string;
  ip : string
}.

(** [config('services.bff.id')] and [config('services.bff.secret')];
    [None] when the entry is not set. *)
Record Config := {
  services_bff_id : option string;
  services_bff_secret : option string
}.

(** The array each stage returns: ['valid' => ..., 'error' => ...]. *)
Record Validation := {
  valid : bool;
  error : option string
}.

Definition ok : Validation := {| valid := true; error := None |}.
Definition failure (msg : string) : Validation := {| valid := false; error := Some msg |}.

Definition TIMESTAMP_TOLERANCE : Z := 300.

Definition lower (c : ascii) : ascii :=
  let b := byte_of_ascii c in
  if (65 <=? b) && (b <=? 90) then ascii_of_byte (b + 32) else c.

Fixpoint lowercase (s : string) : string :=
  match s with
  | EmptyString => EmptyString
  | String c r => String (lower c) (lowercase r)
  end.

(** [$request->header($name)]: header names are matched without regard to
    case; the first value is returned. *)
Fixpoint header (name : string) (hs : list (string * string)) : option string :=
  match hs with
  | [] => None
  | (n, v) :: r => if String.eqb (lowercase n) (lowercase name) then Some v else header name r
  end.

Definition hasHeader (name : string) (hs : list (string * string)) : bool :=
  match header name hs with Some _ => true | None => false end.

Definition requiredHeaders : list string := ["X-BFF-Id"; "X-BFF-Timestamp"; "X-BFF-Signature"].

Definition validateHeaders (request : Request) : Validation :=
  let missingHeaders :=
    filter (fun h => negb (hasHeader h (headers request))) requiredHeaders in
  match missingHeaders with
  | [] => ok
  | _ => failure ("Missing required headers: " ++ String.concat ", " missingHeaders)
  end.

Definition option_eqb (a b : option string) : bool :=
  match a, b with
  | Some x, Some y => String.eqb x y
  | None, None => true
  | _, _ => false
  end.

Definition validateBffId (cfg : Config) (request : Request) : Validation :=
  let bffId := header "X-BFF-Id" (headers request) in
  let expectedId := services_bff_id cfg in
  if negb (option_eqb bffId expectedId) then failure "Invalid BFF ID" else ok.

(** [now] is [now()->timestamp].  A missing header casts to [0]. *)
Definition validateTimestamp (now : Z) (request : Request) : Validation :=
  let timestamp :=
    match header "X-BFF-Timestamp" (headers request) with
    | Some h => Php.intval h
    | None => 0
    end in
  let diff := Z.abs (now - timestamp) in
  if diff >? TIMESTAMP_TOLERANCE then failure "Timestamp validation failed" else ok.

(** [sortArrayKeys] sorts the keys of the array and then those of every
    array inside it; the inner arrays are sorted first here (the order of
    the outer keys does not depend on them), which keeps the recursion
    structural. *)
Fixpoint sortValue (v : Php.value) : Php.value :=
  match v with
  | Php.PArr entries => Php.PArr (Php.ksort (map (fun '(k, x) => (k, sortValue x)) entries))
  | _ => v
  end.

Definition sortArrayKeys (array : list (Php.key * Php.value)) : list (Php.key * Php.value) :=
  Php.ksort (map (fun '(k, x) => (k, sortValue x)) array).

(** The text that [hashBody] hashes for a non-empty body: the sorted
    array encoded again when the body decodes to an array, the body as
    received otherwise. *)
Definition canonicalBody (body : string) : string :=
  match Php.json_decode body with
  | Some (Php.PArr data) => Php.json_encode (Php.PArr (sortArrayKeys data))
  | _ => body
  end.

Definition hashBody (request : Request) : string :=
  let body := content request in
  if Php.empty body then EmptyString
  else sha256_hex (canonicalBody body).

Definition header_text (name : string) (request : Request) : string :=
  match header name (headers request) with Some v => v | None => EmptyString end.

Definition generatePayload (request : Request) : string :=
  let timestamp := header_text "X-BFF-Timestamp" request in
  let bodyHash := hashBody request in
  timestamp ++ ":" ++ method request ++ ":" ++ path request ++ ":" ++ bodyHash.

Definition validateSignature (cfg : Config) (request : Request) (payload : string) : Validation :=
  let providedSignature := header_text "X-BFF-Signature" request in
  match services_bff_secret cfg with
  | None => failure "BFF authentication misconfigured"
  | Some secret =>
      if Php.empty secret then failure "BFF authentication misconfigured"
      else
        let expectedSignature := hmac_sha256_hex secret payload in
        (* hash_equals: equality of the two strings, in constant time *)
        if negb (String.eqb expectedSignature providedSignature)
        then failure "Invalid signature"
        else ok
  end.

Definition validate (cfg : Config) (now : Z) (request : Request) : Validation :=
  let headersValidation := validateHeaders request in
  if negb (valid headersValidation) then headersValidation
  else
    let bffValidation := validateBffId cfg request in
    if negb (valid bffValidation) then bffValidation
    else
      let timestampValidation := validateTimestamp now request in
      if negb (valid timestampValidation) then timestampValidation
      else
        let payload := generatePayload request in
        validateSignature cfg request payload.

(** The rejections, under the names the specification gives them. *)
Definition InvalidBffId : Validation := failure "Invalid BFF ID".
Definition TimestampExpired : Validation := failure "Timestamp validation failed".
Definition InvalidSignature : Validation := failure "Invalid signature".

End HmacValidator.

(** ** The request as it reaches the validator

    What the framework reads of a request: [$request->method()] is the
    method in upper case, and [$request->path()] is the path of the URL
    without the slashes around it ([/] when nothing is left).  For a
    [POST] request the framework takes the method from the field [_method]
    of the body or of the query when there is one (and from the header
    [X-HTTP-Method-Override], which the gateway never sends);
    [spoofs_method] tells these requests, and [transmit] and [received]
    give what is read of every other request. *)
Definition upper (c : ascii) : ascii :=
  let b := byte_of_ascii c in
  if (97 <=? b) && (b <=? 122) then ascii_of_byte (b - 32) else c.

Fixpoint uppercase (s : string) : string :=
  match s with
  | EmptyString => EmptyString
  | String c r => String (upper c) (uppercase r)
  end.

Fixpoint ltrim_slashes (s : string) : string :=
  match s with
  | String c r => if Ascii.eqb c "/" then ltrim_slashes r else s
  | EmptyString => s
  end.

Fixpoint rtrim_slashes (s : string) : string :=
  match s with
  | EmptyString => EmptyString
  | String c r =>
      match rtrim_slashes r with
      | EmptyString => if Ascii.eqb c "/" then EmptyString else String c EmptyString
      | r' => String c r'
      end
  end.

Definition Request_path (pathInfo : string) : string :=
  let pattern := rtrim_slashes (ltrim_slashes pathInfo) in
  if String.eqb pattern EmptyString then "/" else pattern.

Definition spoofs_method (method : string) (query : list (string * string))
           (body : option json) : bool :=
  String.eqb (uppercase method) "POST"
  && (has_key "_method" query
      || match body with
         | Some (JObj props) => has_key "_method" props
         | _ => false
         end).

(** What the validator reads of a signed request sent to the URL whose
    path is [path], with no query: the three HMAC headers, the method, the
    path, and [normalizedBody] as the body (no body when it is
    [undefined]). *)
Definition transmit (method path : string) (r : Hmac.HmacResult) : HmacValidator.Request :=
  {| HmacValidator.headers :=
       [ ("Content-Type", "application/json"); ("Accept", "application/json");
         ("X-BFF-Id", Hmac.X_BFF_Id r);
         ("X-BFF-Timestamp", Hmac.X_BFF_Timestamp r);
         ("X-BFF-Signature", Hmac.X_BFF_Signature r) ];
     HmacValidator.method := uppercase method;
     HmacValidator.path := Request_path path;
     HmacValidator.content :=
       match Hmac.normalizedBody r with Some b => b | None => EmptyString end;
     HmacValidator.ip := "127.0.0.1" |}.

(** ** [app/api/v1/[...path]/route.ts] *)

Module Route.

Definition BFF_TIMEOUT : Z := 30000.

Definition LARAVEL_API_URL (env : ProcessEnv) : string :=
  or_default (env_LARAVEL_API_URL env) "http://localhost:8000".

Definition safe_char (c : ascii) : bool :=
  let b := byte_of_ascii c in
  ((97 <=? b) && (b <=? 122)) || ((65 <=? b) && (b <=? 90))
  || ((48 <=? b) && (b <=? 57)) || (b =? 95) || (b =? 45).

Fixpoint all_safe (s : string) : bool :=
  match s with
  | EmptyString => true
  | String c r => safe_char c && all_safe r
  end.

(** [SAFE_PATH_SEGMENT.test(s)]: one or more characters of the class, and
    nothing else up to the end of the string. *)
Definition SAFE_PATH_SEGMENT (s : string) : bool :=
  negb (String.eqb s EmptyString) && all_safe s.

(** The body of the loop of [validatePathSegments]. *)
Definition validateSegment (segment : string) : result unit :=
  if String.eqb segment EmptyString then
    Throw (BffException INVALID_SIGNATURE "Invalid path: empty segment")
  else if String.eqb segment ".." || String.eqb segment "." then
    Throw (BffException INVALID_SIGNATURE "Invalid path: traversal not allowed")
  else if includes "://" segment || startsWith segment "//" then
    Throw (BffException INVALID_SIGNATURE "Invalid path: absolute URLs not allowed")
  else if negb (SAFE_PATH_SEGMENT segment) then
    Throw (BffException INVALID_SIGNATURE "Invalid path: forbidden characters")
  else Return tt.

Fixpoint validatePathSegments (segments : list string) : result unit :=
  match segments with
  | [] => Return tt
  | segment :: rest => _ <- validateSegment segment ;; validatePathSegments rest
  end.

(** *** URLs

    Only what the proxy needs: an absolute URL [scheme://host/path], and
    the resolution of a relative path against it.  The proxy resolves
    [api/v1/...] followed by validated segments, a reference with no
    scheme, no leading slash and no dot segment, which keeps the scheme
    and the host of the base and replaces the last segment of its path. *)
Record URL := {
  protocol : string;
  host : string;
  pathname : string;
  searchParams : list (string * string)
}.

Fixpoint split_at (pat : string) (fuel : nat) (s : string) (acc : string)
  : option (string * string) :=
  if String.prefix pat s then Some (acc, drop (String.length pat) s)
  else match fuel, s with
       | S f, String c r => split_at pat f r (acc ++ String c EmptyString)
       | _, _ => None
       end.

Fixpoint directory (path : string) (dir seg : string) : string :=
  match path with
  | EmptyString => dir
  | String c r =>
      if Ascii.eqb c "/" then directory r (dir ++ seg ++ "/") EmptyString
      else directory r dir (seg ++ String c EmptyString)
  end.

Definition parse_URL (s : string) : option URL :=
  match split_at "://" (String.length s) s EmptyString with
  | Some (scheme, rest) =>
      let (h, p) := match split_at "/" (String.length rest) rest EmptyString with
                    | Some (h, p) => (h, "/" ++ p)
                    | None => (rest, "/")
                    end in
      if String.eqb scheme EmptyString || String.eqb h EmptyString then None
      else Some {| protocol := scheme ++ ":"; host := h; pathname := p; searchParams := [] |}
  | None => None
  end.

(** [new URL(s)] and [new URL(relative, base)]; an invalid base throws. *)
Definition new_URL (s : string) : result URL :=
  match parse_URL s with
  | Some u => Return u
  | None => Throw (Error "TypeError" "Invalid URL")
  end.

Definition new_URL_relative (relative base : string) : result URL :=
  b <- new_URL base ;;
  Return {| protocol := protocol b; host := host b;
            pathname := directory (pathname b) EmptyString EmptyString ++ relative;
            searchParams := [] |}.

(** [searchParams.set(key, value)]. *)
Fixpoint params_set (key value : string) (ps : list (string * string)) : list (string * string) :=
  match ps with
  | [] => [(key, value)]
  | (k, v) :: r =>
      if String.eqb k key
      then (k, value) :: filter (fun kv => negb (String.eqb (fst kv) key)) r
      else (k, v) :: params_set key value r
  end.

(** *** Requests and responses *)

(** The inbound request and its ambient context: [request.method], the
    [content-type] header, the text of the body, the query parameters, and
    the value of the [auth_token] cookie in the cookie store. *)
Record Inbound := {
  request_method : string;
  content_type : option string;
  body_text : string;
  query : list (string * string);
  auth_token : option string
}.

(** The argument of [fetch]. *)
Record FetchRequest := {
  url : URL;
  fetch_method : string;
  fetch_headers : list (string * string);
  fetch_body : option string
}.

(** What [fetch] resolves to: [upstream_headers] are the header entries in
    the order [headers.forEach] yields them, names in lower case, each
    [set-cookie] line apart; [upstream_body] is the text read from the
    body, and [answered_ms] the clock ([new Date()], milliseconds since
    the epoch) once it has been read, which is when a cookie is dated. *)
Record UpstreamResponse := {
  upstream_status : Z;
  upstream_statusText : string;
  upstream_headers : list (string * string);
  upstream_body : string;
  answered_ms : Z
}.

(** The outcome of the call: an answer whose body has been read; no
    answer by the time the timer fires; or an error thrown by [fetch] or
    by reading the body. *)
Inductive FetchOutcome :=
| Responded (r : UpstreamResponse)
| Aborted
| Failed (e : exn).

(** [days_after t days] is the date that [setDate(getDate() + days)] makes
    of the date of clock [t]: the same time of day, in the local time
    zone, [days] days of the calendar later.  It is the clock
    [t + days * 86400000] when the offset of the zone is the same on both
    days; the calendar and the zone are not modelled. *)
Inductive Date :=
| days_after (t : Z) (days : Z).

(** A cookie set through [nextResponse.cookies.set]. *)
Record Cookie := {
  cookie_name : string;
  cookie_value : json;
  httpOnly : bool;
  secure : bool;
  sameSite : string;
  cookie_path : string;
  expires : Date
}.

(** The response handed back to the caller: [response_headers] are the
    headers it was built with and [cookies] the cookies set on it
    afterwards with [cookies.set].  Setting a cookie makes the framework
    write the [set-cookie] lines of the response anew, from the cookies it
    reads in the lines the response was built with and the cookie set, so
    that [response_headers] are the headers sent only when [cookies] is
    empty (see [set_cookie_lines]). *)
Record Response := {
  status : Z;
  statusText : string;
  response_headers : list (string * string);
  response_body : string;
  cookies : list Cookie
}.

(** [NextResponse.json(data, { status })]. *)
Definition NextResponse_json (data : json) (st : Z) : Response :=
  {| status := st; statusText := EmptyString;
     response_headers := [("content-type", "application/json")];
     response_body := Js.JSON_stringify data;
     cookies := [] |}.

Definition publicRoutes : list string :=
  [ "api/v1/auth/login"; "api/v1/auth/register"; "api/v1/auth/providers" ].

Definition isPublicRoute (laravelPath : string) : bool :=
  existsb (fun route => startsWith laravelPath route) publicRoutes.

Definition strip_leading_slash (s : string) : string :=
  match s with
  | String "/" r => r
  | _ => s
  end.

Definition laravelPath_of (pathSegments : list string) : string :=
  let bffPath := "/api/v1/" ++ String.concat "/" pathSegments in
  strip_leading_slash (Hmac.buildLaravelPath bffPath).

(** Property access [v.name] for a name that no array, string, number or
    boolean carries; [None] is [undefined]. *)
Definition property (v : json) (name : string) : option json :=
  match v with
  | JObj props => lookup name props
  | _ => None
  end.

(** [jsonData.data?.access_token]; reading [data] of [null] throws, which
    the surrounding [try] swallows. *)
Definition access_token (jsonData : json) : option json :=
  match jsonData with
  | JNull => None
  | _ =>
      match property jsonData "data" with
      | None | Some JNull => None
      | Some data => property data "access_token"
      end
  end.

(** The test [if (authToken)] on a string that may be [undefined]. *)
Definition present (v : option string) : bool :=
  match v with
  | Some s => negb (String.eqb s EmptyString)
  | None => false
  end.

Definition is_set_cookie (h : string * string) : bool := String.eqb (fst h) "set-cookie".

(** [responseHeaders]: every header but [set-cookie] is copied with [set],
    then each [set-cookie] line is appended. *)
Definition relayed_headers (hs : list (string * string)) : list (string * string) :=
  (fold_left (fun acc h => params_set (fst h) (snd h) acc)
             (filter (fun h => negb (is_set_cookie h)) hs) []
   ++ filter is_set_cookie hs)%list.


(** A status with which no body goes. *)
Definition null_body_status (st : Z) : bool :=
  (st =? 101) || (st =? 103) || (st =? 204) || (st =? 205) || (st =? 304).

(** [new NextResponse(body, { status, statusText, headers })] with a
    string as [body]: the constructor of [Response] throws a [RangeError]
    for a status outside 200..599 and a [TypeError] for a status with
    which no body goes, the empty string being a body too; headers that
    name no [content-type] get the one of a text. *)
Definition new_NextResponse (body : string) (st : Z) (text : string)
           (headers : list (string * string)) : result Response :=
  if (st <? 200) || (599 <? st) then
    Throw (Error "RangeError" "init[status] must be in the range of 200 to 599, inclusive.")
  else if null_body_status st then
    Throw (Error "TypeError" "Response constructor: Invalid response status code")
  else
    Return {| status := st; statusText := text;
              response_headers :=
                if has_key "content-type" headers then headers
                else (headers ++ [("content-type", "text/plain;charset=UTF-8")])%list;
              response_body := body;
              cookies := [] |}.

(** [nextResponse.cookies.set(...)] for each cookie of the list. *)
Definition set_cookies (r : Response) (cs : list Cookie) : Response :=
  {| status := status r; statusText := statusText r;
     response_headers := response_headers r;
     response_body := response_body r;
     cookies := (cookies r ++ cs)%list |}.

(** The headers prepared for the upstream, before the credential. *)
Definition signed_headers (hmacResult : Hmac.HmacResult) : list (string * string) :=
  [ ("Content-Type", "application/json"); ("Accept", "application/json");
    ("X-BFF-Id", Hmac.X_BFF_Id hmacResult);
    ("X-BFF-Timestamp", Hmac.X_BFF_Timestamp hmacResult);
    ("X-BFF-Signature", Hmac.X_BFF_Signature hmacResult) ].

(** The text [Bearer ] followed by the token. *)
Definition bearer (authToken : option string) : string :=
  "Bearer " ++ match authToken with Some t => t | None => "undefined" end.

(** The answer to a request with no credential on a route that needs
    one. *)
Definition unauthorized : Response :=
  NextResponse_json
    (JObj [("error", JStr "Unauthorized"); ("message", JStr "No auth token found")]) 401.

(** The options of [fetch] and its URL: the normalised body when there is
    one, and the query parameters of the inbound request copied with
    [searchParams.set]. *)
Definition fetch_options (laravelUrl : URL) (request : Inbound) (method : string)
           (headers : list (string * string)) (hmacResult : Hmac.HmacResult) : FetchRequest :=
  {| url := {| protocol := protocol laravelUrl;
               host := host laravelUrl;
               pathname := pathname laravelUrl;
               searchParams :=
                 fold_left (fun acc kv => params_set (fst kv) (snd kv) acc)
                           (query request) (searchParams laravelUrl) |};
     fetch_method := method;
     fetch_headers := headers;
     fetch_body := Hmac.normalizedBody hmacResult |}.

(** The inner [catch]: an error named [AbortError], which is what [fetch]
    rejects with when the signal fires, becomes the controlled exception
    of a timeout; any other is thrown again.  ([BffException] is an
    [Error] whose name is [BffException].) *)
Definition inner_catch (e : exn) : exn :=
  match e with
  | Error name _ =>
      if String.eqb name "AbortError" then BffException TIMEOUT "Request timeout" else e
  | BffException _ _ => e
  end.

(** The outer [catch]. *)
Definition on_error (e : exn) : Response :=
  match e with
  | BffException code message =>
      NextResponse_json (JObj [("error", JStr message); ("code", JStr (code_name code))]) 500
  | Error _ _ =>
      NextResponse_json
        (JObj [("error", JStr "Internal server error");
               ("message", JStr "Failed to proxy request")]) 500
  end.

Section Proxy.

(** The runtime's [JSON.parse] (behind [request.json()] too) and the
    upstream behind [fetch]. *)
Variable JSON_parse : string -> option json.
Variable fetch : FetchRequest -> FetchOutcome.

(** The body to sign: read only for a method other than [GET] and [HEAD]
    and a JSON content type; [null] otherwise and when reading fails. *)
Definition read_body (request : Inbound) : json :=
  if negb (String.eqb (request_method request) "GET")
     && negb (String.eqb (request_method request) "HEAD")
  then
    let contentType := match content_type request with Some c => c | None => EmptyString end in
    if includes "application/json" contentType then
      match JSON_parse (body_text request) with
      | Some v => v
      | None => JNull
      end
    else JNull
  else JNull.

(** From the start of [proxyRequest] to the call of [fetch]: the request
    to send, or the response returned at once. *)
Definition prepare (env : ProcessEnv) (now_ms : Z) (request : Inbound)
           (method : string) (pathSegments : list string)
  : result (FetchRequest + Response) :=
  _ <- validatePathSegments pathSegments ;;
  let laravelPath := laravelPath_of pathSegments in
  laravelUrl <- new_URL_relative laravelPath (LARAVEL_API_URL env) ;;
  expected <- new_URL (LARAVEL_API_URL env) ;;
  if negb (String.eqb (host laravelUrl) (host expected)) then
    Throw (BffException INVALID_SIGNATURE "Invalid request: host mismatch")
  else
    let body := read_body request in
    hmacResult <- Hmac.generateSignature env now_ms method laravelPath (Some body) ;;
    let headers := signed_headers hmacResult in
    let isPublic := isPublicRoute laravelPath in
    let authToken := auth_token request in
    if present authToken then
      Return (inl (fetch_options laravelUrl request method
                     (app headers [("Authorization", bearer authToken)]) hmacResult))
    else if negb isPublic then Return (inr unauthorized)
    else Return (inl (fetch_options laravelUrl request method headers hmacResult)).

(** The cookies set on the response: [auth_token] when the body parses
    and carries a truthy [data.access_token]; [clock] is the clock read
    for its date. *)
Definition token_cookies (env : ProcessEnv) (clock : Z) (responseData : string)
  : list Cookie :=
  match JSON_parse responseData with
  | Some jsonData =>
      match access_token jsonData with
      | Some token =>
          if Js.truthy token then
            [ {| cookie_name := "auth_token";
                 cookie_value := token;
                 httpOnly := true;
                 secure := match env_NODE_ENV env with
                           | Some v => String.eqb v "production"
                           | None => false
                           end;
                 sameSite := "lax";
                 cookie_path := "/";
                 expires := days_after clock 15 |} ]
          else []
      | None => []
      end
  | None => []
  end.

(** From the answer of [fetch] to the response returned, or the error
    thrown when the response cannot be built. *)
Definition relay (env : ProcessEnv) (response : UpstreamResponse) : result Response :=
  let responseHeaders := relayed_headers (upstream_headers response) in
  let responseData := upstream_body response in
  nextResponse <- new_NextResponse responseData (upstream_status response)
                                   (upstream_statusText response) responseHeaders ;;
  Return (set_cookies nextResponse (token_cookies env (answered_ms response) responseData)).

(** [proxyRequest]: the response, and the calls made to the upstream.
    [now_ms] is the clock read when signing.  [Aborted] is the outcome of
    a call still pending when the timer of [BFF_TIMEOUT] milliseconds
    fires: [fetch] rejects with the [AbortError] of the signal. *)
Definition proxyRequest (env : ProcessEnv) (now_ms : Z) (request : Inbound)
           (method : string) (pathSegments : list string)
  : Response * list FetchRequest :=
  match prepare env now_ms request method pathSegments with
  | Throw e => (on_error e, [])
  | Return (inr early) => (early, [])
  | Return (inl options) =>
      match fetch options with
      | Responded response =>
          match relay env response with
          | Return nextResponse => (nextResponse, [options])
          | Throw e => (on_error (inner_catch e), [options])
          end
      | Aborted =>
          (on_error (inner_catch (Error "AbortError" "This operation was aborted")), [options])
      | Failed e => (on_error (inner_catch e), [options])
      end
  end.

End Proxy.

End Route.

(** Signing a request and validating what is transmitted; [None] when the
    signer throws. *)
Definition sign_then_validate (env : ProcessEnv) (cfg : HmacValidator.Config)
           (now_ms now : Z) (method path : string) (body : option json)
  : option HmacValidator.Validation :=
  match Hmac.generateSignature env now_ms method path body with
  | Return r => Some (HmacValidator.validate cfg now (transmit method path r))
  | Throw _ => None
  end.

(** The signed request with its signature replaced. *)
Definition with_signature (r : Hmac.HmacResult) (signature : string) : Hmac.HmacResult :=
  {| Hmac.X_BFF_Id := Hmac.X_BFF_Id r;
     Hmac.X_BFF_Timestamp := Hmac.X_BFF_Timestamp r;
     Hmac.X_BFF_Signature := signature;
     Hmac.normalizedBody := Hmac.normalizedBody r |}.

(** The methods for which the route exports a handler; each handler calls
    [proxyRequest] with its own name. *)
Definition handler_methods : list string := ["GET"; "POST"; "PUT"; "PATCH"; "DELETE"].

(** ** [middleware.ts] *)

Module Middleware.

Definition protectedRoutes : list string := ["/dashboard"].

Definition authRoutes : list string := ["/auth/login"; "/auth/register"].

(** [NextResponse.redirect(url)] to a URL of the same origin, given by its
    path and its query, or [NextResponse.next()]. *)
Inductive Decision :=
| Redirect (pathname : string) (searchParams : list (string * string))
| Next.

(** [token] is the value of the [auth_token] cookie of the request. *)
Definition middleware (token : option string) (pathname : string) : Decision :=
  if existsb (fun route => startsWith pathname route) protectedRoutes
     && negb (Route.present token)
  then Redirect "/auth/login" (Route.params_set "redirect" pathname [])
  else if existsb (fun route => startsWith pathname route) authRoutes
          && Route.present token
  then Redirect "/" []
  else Next.

End Middleware.

(** ** [app/actions/auth.ts] *)

Module Auth.

(** [process.env.NEXT_PUBLIC_APP_URL || 'http://localhost:3000']. *)
Definition BFF_URL (app_url : option string) : string :=
  or_default app_url "http://localhost:3000".

(** The options the actions pass: a method and a body, no headers. *)
Record RequestInit := {
  init_method : option string;
  init_body : option string
}.

(** The arguments of [fetch]. *)
Record Call := {
  call_url : string;
  call_method : option string;
  call_headers : list (string * string);
  call_body : option string
}.

(** What [fetch] resolves to: status, status text, the text of the body
    and the lines of [getSetCookie()]. *)
Record BffResponse := {
  bff_status : Z;
  bff_statusText : string;
  bff_body : string;
  bff_setCookie : list string
}.

(** The argument of [cookieStore.set]. *)
Record StoredCookie := {
  name : string;
  value : string;
  httpOnly : bool;
  secure : bool;
  sameSite : string;
  path : string;
  maxAge : Z
}.

(** How [bffRequest] ends: with the data and the cookies stored, with a
    [BffRequestError] (its message is the value handed to the constructor),
    or with another exception (a rejected [fetch], a body that is no
    JSON).  The message of an exception of the runtime is the engine's and
    is left empty. *)
Inductive Outcome :=
| Resolved (data : json) (stored : list StoredCookie)
| BffRequestError (message : json) (statusCode : Z) (details : option json)
| Thrown (e : exn).

(** [s.split(sep)] for a separator of one character. *)
Fixpoint split_from (sep : ascii) (s cur : string) : list string :=
  match s with
  | EmptyString => [cur]
  | String c r =>
      if Ascii.eqb c sep then cur :: split_from sep r EmptyString
      else split_from sep r (cur ++ String c EmptyString)
  end.

Definition split (sep : ascii) (s : string) : list string := split_from sep s EmptyString.

(** [response.ok]. *)
Definition response_ok (response : BffResponse) : bool :=
  (200 <=? bff_status response) && (bff_status response <=? 299).

(** The body of the [forEach] over the [set-cookie] lines. *)
Definition store (env : ProcessEnv) (cookieHeader : string) : list StoredCookie :=
  let cookiePart := hd EmptyString (split ";" cookieHeader) in
  match split "=" cookiePart with
  | name :: value :: _ =>
      if negb (String.eqb name EmptyString) && negb (String.eqb value EmptyString) then
        [ {| name := name;
             value := value;
             httpOnly := true;
             secure := match env_NODE_ENV env with
                       | Some v => String.eqb v "production"
                       | None => false
                       end;
             sameSite := "lax";
             path := "/";
             maxAge := 60 * 60 * 24 * 15 |} ]
      else []
  | _ => []
  end.

(** [errorData.message || errorData.error || errorMessage]; [None] when
    reading a property of [errorData] throws. *)
Definition error_message (errorData : json) : option json :=
  match errorData with
  | JNull => None
  | _ =>
      Some match Route.property errorData "message" with
           | Some m => if Js.truthy m then m
                       else match Route.property errorData "error" with
                            | Some e => if Js.truthy e then e else JStr "Request failed"
                            | None => JStr "Request failed"
                            end
           | None => match Route.property errorData "error" with
                     | Some e => if Js.truthy e then e else JStr "Request failed"
                     | None => JStr "Request failed"
                     end
           end
  end.

Section Request.

Variable JSON_parse : string -> option json.
Variable fetch : Call -> BffResponse + exn.

(** [authToken] is the value of the [auth_token] cookie of the store.  The
    outcome, and the call made. *)
Definition bffRequest (env : ProcessEnv) (app_url : option string) (authToken : option string)
           (endpoint : string) (options : RequestInit) : Outcome * Call :=
  let url := BFF_URL app_url ++ endpoint in
  let headers :=
    app [ ("Content-Type", "application/json"); ("Accept", "application/json") ]
        (if Route.present authToken
         then [ ("Cookie", "auth_token=" ++ match authToken with
                                            | Some v => v
                                            | None => EmptyString
                                            end) ]
         else []) in
  let call := {| call_url := url; call_method := init_method options;
                 call_headers := headers; call_body := init_body options |} in
  match fetch call with
  | inr e => (Thrown e, call)
  | inl response =>
      if negb (response_ok response) then
        match match JSON_parse (bff_body response) with
              | Some errorData =>
                  match error_message errorData with
                  | Some m => Some (m, errorData)
                  | None => None
                  end
              | None => None
              end with
        | Some (m, errorData) =>
            (BffRequestError m (bff_status response) (Some errorData), call)
        | None =>
            (BffRequestError
               (JStr ("HTTP " ++ dec_of_Z (bff_status response) ++ ": "
                      ++ bff_statusText response))
               (bff_status response) None, call)
        end
      else
        match JSON_parse (bff_body response) with
        | None => (Thrown (Error "SyntaxError" EmptyString), call)
        | Some data =>
            (Resolved data (flat_map (store env) (bff_setCookie response)), call)
        end
  end.

(** How [getCurrentUserAction] ends: with [response.data] ([None] for
    [undefined]), with [null], or with what was thrown.  (The cookies
    [bffRequest] stored on the way are left out.) *)
Inductive CurrentUser :=
| User (data : option json)
| NoUser
| Raised (o : Outcome).

Definition getCurrentUserAction (env : ProcessEnv) (app_url : option string)
           (authToken : option string) : CurrentUser :=
  match fst (bffRequest env app_url authToken "/api/v1/me"
                        {| init_method := None; init_body := None |}) with
  | Resolved JNull _ => Raised (Thrown (Error "TypeError" EmptyString))
  | Resolved response _ => User (Route.property response "data")
  | BffRequestError m statusCode d =>
      if (statusCode =? 401) || (statusCode =? 403) then NoUser
      else Raised (BffRequestError m statusCode d)
  | Thrown e => Raised (Thrown e)
  end.

End Request.

End Auth.

(** ** The call as it reaches the validator

    The headers and the body are those handed to [fetch]; the method and
    the path are read as said above. *)
Definition received (options : Route.FetchRequest) : HmacValidator.Request :=
  {| HmacValidator.headers := Route.fetch_headers options;
     HmacValidator.method := uppercase (Route.fetch_method options);
     HmacValidator.path := Request_path (Route.pathname (Route.url options));
     HmacValidator.content :=
       match Route.fetch_body options with Some b => b | None => EmptyString end;
     HmacValidator.ip := "127.0.0.1" |}.

(** ** Concrete settings for the examples *)

Definition example_env : ProcessEnv :=
  {| env_BFF_HMAC_SECRET := Some "s3cret";
     env_BFF_ID := None;
     env_LARAVEL_API_URL := None;
     env_NODE_ENV := Some "production" |}.

(** The same, with no secret. *)
Definition example_env_no_secret : ProcessEnv :=
  {| env_BFF_HMAC_SECRET := None;
     env_BFF_ID := None;
     env_LARAVEL_API_URL := None;
     env_NODE_ENV := Some "production" |}.

(** The default base URL, parsed. *)
Definition example_base : Route.URL :=
  {| Route.protocol := "http:"; Route.host := "localhost:8000";
     Route.pathname := "/"; Route.searchParams := [] |}.

Definition example_config : HmacValidator.Config :=
  {| HmacValidator.services_bff_id := Some "nextjs-bff-prod";
     HmacValidator.services_bff_secret := Some "s3cret" |}.

(** The clock of the gateway, in milliseconds, and of the validator ten
    seconds later, in seconds. *)
Definition example_now_ms : Z := 1700000000123.
Definition example_now : Z := 1700000010.

Definition body_ba : json := JObj [("b", JNum 1); ("a", JArr [JNum 2; JNum 1])].
Definition body_john : json := JObj [("name", JStr "John Doe")].

Definition example_upstream (body : string) : Route.UpstreamResponse :=
  {| Route.upstream_status := 200;
     Route.upstream_statusText := "OK";
     Route.upstream_headers :=
       [ ("content-type", "application/json");
         ("set-cookie", "laravel_session=abc; Path=/") ];
     Route.upstream_body := body;
     Route.answered_ms := 1700000000456 |}.



(** An upstream that answers every request with the given body. *)
Definition example_fetch (body : string) (options : Route.FetchRequest) : Route.FetchOutcome :=
  Route.Responded (example_upstream body).

(** A login request, with the given [auth_token] cookie. *)
Definition example_inbound (token : option string) : Route.Inbound :=
  {| Route.request_method := "POST";
     Route.content_type := Some "application/json";
     Route.body_text := txt "{'email':'a@b.io','password':'pw'}";
     Route.query := [];
     Route.auth_token := token |}.

(** The proxy on the examples: the upstream answers [body], the caller
    holds the cookie [token] and asks for the path [segments]. *)
Definition example_proxy (body : string) (token : option string) (segments : list string)
  : Route.Response * list Route.FetchRequest :=
  Route.proxyRequest JSON_parse (example_fetch body) example_env example_now_ms
                     (example_inbound token) "POST" segments.

(** The four messages of the path guard. *)
Definition path_messages : list string :=
  [ "Invalid path: empty segment";
    "Invalid path: traversal not allowed";
    "Invalid path: absolute URLs not allowed";
    "Invalid path: forbidden characters" ].


Definition not_set_cookie (h : string * string) : bool := negb (Route.is_set_cookie h).

(** The answer of the outer [catch] to an error that is no
    [BffException]. *)
Definition failed_to_proxy : Route.Response :=
  Route.NextResponse_json
    (JObj [("error", JStr "Internal server error");
           ("message", JStr "Failed to proxy request")]) 500.

(** The [content-type] a response gets when its headers name none. *)
Definition text_plain : string * string := ("content-type", "text/plain;charset=UTF-8").

(** A bodiless request signed with the example settings. *)
Definition signed_example : HmacValidator.Request :=
  match Hmac.generateSignature example_env example_now_ms "GET" "api/v1/me" None with
  | Return r => transmit "GET" "api/v1/me" r
  | Throw _ =>
      {| HmacValidator.headers := []; HmacValidator.method := "GET";
         HmacValidator.path := "api/v1/me"; HmacValidator.content := EmptyString;
         HmacValidator.ip := "127.0.0.1" |}
  end.

(** The call made by a run of the proxy. *)
Definition hd_call (out : Route.Response * list Route.FetchRequest) : Route.FetchRequest :=
  hd {| Route.url := example_base; Route.fetch_method := EmptyString;
        Route.fetch_headers := []; Route.fetch_body := None |} (snd out).

(** A search request whose query repeats a name. *)
Definition example_search : Route.Inbound :=
  {| Route.request_method := "GET";
     Route.content_type := None;
     Route.body_text := EmptyString;
     Route.query := [("tag", "a"); ("page", "1"); ("tag", "b")];
     Route.auth_token := Some "tok123" |}.

(** ** Predicates used in the statements *)

(** A character of the class [A-Za-z0-9_-]. *)
Definition class_char (c : ascii) : Prop :=
  let b := byte_of_ascii c in
  97 <= b <= 122 \/ 65 <= b <= 90 \/ 48 <= b <= 57 \/ b = 95 \/ b = 45.

(** A string that is one or more characters of the class. *)
Definition matches_class (s : string) : Prop :=
  s <> EmptyString /\ Forall class_char (list_ascii_of_string s).

(** The segments the path guard is to refuse. *)
Definition dangerous (s : string) : Prop :=
  s = EmptyString \/ s = "." \/ s = ".."
  \/ (exists a b, s = a ++ "://" ++ b)
  \/ (exists b, s = "//" ++ b)
  \/ ~ matches_class s.


Definition le_key (a b : string) : Prop := Js.leb a b = true.

Definition not_proto (k : string) : bool := negb (String.eqb k "__proto__").


(** [d] is a numeral of [n]: digits only, at least one, of value [n]. *)
Definition numeral (d : string) (n : Z) : Prop :=
  all_digits d = true /\ d <> EmptyString
  /\ forall a, digits_value a d = a * 10 ^ Z.of_nat (String.length d) + n.

(** The order in which an object enumerates two of its keys when they were
    assigned in ascending order: integer-like keys first, by value, then the
    other keys by their code units. *)
Definition js_before (a b : string) : bool :=
  match Js.array_index a, Js.array_index b with
  | Some i, Some j => i <=? j
  | Some _, None => true
  | None, Some _ => false
  | None, None => Js.leb a b
  end.

Fixpoint ordered (l : list string) : bool :=
  match l with
  | [] => true
  | a :: r => forallb (js_before a) r && ordered r
  end.

(** A value whose objects, at every depth, hold each key once and in that
    order. *)
Fixpoint canonical (v : json) : bool :=
  match v with
  | JArr items => forallb canonical items
  | JObj props =>
      nodupb (keys props) && ordered (keys props)
      && forallb (fun kv => canonical (snd kv)) props
  | _ => true
  end.

Definition before (a b : string) : Prop := js_before a b = true.

(** ** The bodies on which the two canonical forms are compared *)

(** A visible ASCII character, and one that is neither the quote nor the
    backslash: both runtimes write such a character as it is, and it is no
    white space. *)
Definition visible_char (c : ascii) : bool :=
  let b := byte_of_ascii c in (33 <=? b) && (b <=? 126).

Definition plain_char (c : ascii) : bool :=
  let b := byte_of_ascii c in visible_char c && negb (b =? 34) && negb (b =? 92).

Fixpoint visible (s : string) : bool :=
  match s with
  | EmptyString => true
  | String c r => visible_char c && visible r
  end.

Fixpoint plain (s : string) : bool :=
  match s with
  | EmptyString => true
  | String c r => plain_char c && plain r
  end.

(** A key that PHP keeps as a string and does not read as a number, and
    that JavaScript stores as an own property. *)
Definition text_key (k : string) : bool :=
  match Php.numeric k with
  | Some _ => false
  | None => not_proto k
  end.

(** The integers that a number of JavaScript holds exactly, which both
    runtimes read and write as decimal numerals. *)
Definition MAX_SAFE_INTEGER : Z := 9007199254740991.

Definition safe_integer (n : Z) : bool :=
  (- MAX_SAFE_INTEGER <=? n) && (n <=? MAX_SAFE_INTEGER).

(** Safe integers; strings and keys of plain characters; objects that are
    not empty and hold each key once, every key a text key. *)
Fixpoint portable (v : json) : bool :=
  match v with
  | JNum n => safe_integer n
  | JStr s => plain s
  | JArr items => forallb portable items
  | JObj props =>
      match props with [] => false | _ :: _ => true end
      && nodupb (keys props)
      && forallb (fun kv => plain (fst kv) && text_key (fst kv) && portable (snd kv)) props
  | _ => true
  end.

(** The number of values, elements and members in a value. *)
Fixpoint size (v : json) : nat :=
  match v with
  | JArr items => S (fold_right (fun x n => S (size x + n)) O items)
  | JObj props => S (fold_right (fun kv n => S (size (snd kv) + n)) O props)
  | _ => 1
  end.

(** A text that does not go on with the number before it. *)
Definition number_end (s : string) : bool :=
  match s with
  | EmptyString => true
  | String c _ =>
      negb (is_digit c) && negb (Ascii.eqb c ".") && negb (Ascii.eqb c "e")
      && negb (Ascii.eqb c "E")
  end.

(** A character that can start a value: no white space and no closing
    bracket. *)
Definition value_head (c : ascii) : bool :=
  negb (JsonText.is_ws c) && negb (Ascii.eqb c "]") && negb (Ascii.eqb c "}").

(** The value found under a key, [null] when there is none. *)
Definition php_get (l : list (string * Php.value)) (k : string) : Php.value :=
  match lookup k l with Some y => y | None => Php.PNull end.

Definition js_get (l : list (string * json)) (k : string) : json :=
  match lookup k l with Some y => y | None => JNull end.

(** A string in which the character [x] does not occur. *)
Fixpoint lacks (x : ascii) (s : string) : bool :=
  match s with
  | EmptyString => true
  | String c r => negb (Ascii.eqb c x) && lacks x r
  end.

(** The fuel that reading the elements of an array, or the members of an
    object, takes; a value that is read back from its text. *)
Definition elements_size (items : list json) : nat :=
  fold_right (fun x n => S (size x + n)) O items.

Definition members_size (props : list (string * json)) : nat :=
  fold_right (fun kv n => S (size (snd kv) + n)) O props.

Definition reads_back (v : json) : Prop :=
  portable v = true ->
  forall (fuel : nat) (rest : string),
    (size v <= fuel)%nat -> number_end rest = true ->
    JsonText.parse_value fuel (Js.JSON_stringify v ++ rest) = Some (v, rest).

(* ================================================================== *)
(** * Part II: properties                                              *)
(* ================================================================== *)

Example sha256_empty :
  sha256_hex "" = "e3b0c44298fc1c149afbf4c8996fb92427ae41e4649b934ca495991b7852b855".
Proof. vm_compute. reflexivity. Qed.

Example sha256_abc :
  sha256_hex "abc" = "ba7816bf8f01cfea414140de5dae2223b00361a396177a9cb410ff61f20015ad".
Proof. vm_compute. reflexivity. Qed.

Example sha256_two_blocks :
  sha256_hex "abcdbcdecdefdefgefghfghighijhijkijkljklmklmnlmnomnopnopq"
  = "248d6a61d20638b8e5c026930c3e6039a33ce45964ff2167f6ecedd419db06c1".
Proof. vm_compute. reflexivity. Qed.

(** RFC 4231, test case 2. *)
Example hmac_rfc4231_2 :
  hmac_sha256_hex "Jefe" "what do ya want for nothing?"
  = "5bdcc146bf60754e6a042426089575c75a003f089d2739839dec58b964ec3843".
Proof. vm_compute. reflexivity. Qed.





(** ** Strings *)

Lemma prefix_cons (c d : ascii) (p s : string) :
  String.prefix (String c p) (String d s)
  = if Ascii.ascii_dec c d then String.prefix p s else false.
Proof. reflexivity. Qed.

Lemma prefix_spec (p s : string) :
  String.prefix p s = true <-> exists r, s = p ++ r.
Proof.
  revert s. induction p as [|c p IH]; intros s.
  - destruct s; simpl; split; intros; eauto.
  - destruct s as [|d s].
    + simpl. split; [discriminate | intros [r Hr]; discriminate].
    + rewrite prefix_cons. destruct (Ascii.ascii_dec c d) as [e|Hn].
      * subst d. rewrite IH. split; intros [r Hr].
        -- exists r. simpl. now rewrite Hr.
        -- exists r. simpl in Hr. now inversion Hr.
      * split; [discriminate | intros [r Hr]; simpl in Hr; congruence].
Qed.

Lemma includes_spec (p s : string) :
  includes p s = true <-> exists a b, s = a ++ p ++ b.
Proof.
  induction s as [|c s IH].
  - change (includes p EmptyString) with (String.prefix p EmptyString || false).
    rewrite orb_false_r, prefix_spec. split.
    + intros [r Hr]. exists EmptyString, r. exact Hr.
    + intros [a [b H]]. destruct a; simpl in H; [now exists b | discriminate].
  - change (includes p (String c s))
      with (String.prefix p (String c s) || includes p s).
    rewrite orb_true_iff, IH, prefix_spec. split.
    + intros [[r Hr] | [a [b H]]].
      * exists EmptyString, r. exact Hr.
      * exists (String c a), b. simpl. now rewrite H.
    + intros [a [b H]]. destruct a as [|d a]; simpl in H.
      * left. now exists b.
      * right. inversion H. now exists a, b.
Qed.

Lemma append_nil_r (s : string) : s ++ EmptyString = s.
Proof. induction s; simpl; congruence. Qed.

Lemma append_assoc (a b c : string) : (a ++ b) ++ c = a ++ (b ++ c).
Proof. induction a; simpl; congruence. Qed.

(** ** The path guard *)

Lemma safe_char_spec (c : ascii) : Route.safe_char c = true <-> class_char c.
Proof.
  unfold Route.safe_char, class_char. cbv zeta.
  rewrite !orb_true_iff, !andb_true_iff, !Z.leb_le, !Z.eqb_eq. tauto.
Qed.

Lemma all_safe_spec (s : string) :
  Route.all_safe s = true <-> Forall class_char (list_ascii_of_string s).
Proof.
  induction s as [|c s IH]; simpl.
  - split; auto.
  - rewrite andb_true_iff, safe_char_spec, IH. split.
    + intros [? ?]. now constructor.
    + intros H. now inversion H.
Qed.

Lemma SAFE_PATH_SEGMENT_spec (s : string) :
  Route.SAFE_PATH_SEGMENT s = true <-> matches_class s.
Proof.
  unfold Route.SAFE_PATH_SEGMENT, matches_class.
  rewrite andb_true_iff, negb_true_iff, String.eqb_neq, all_safe_spec. tauto.
Qed.

Lemma validateSegment_cases (s : string) :
  Route.validateSegment s = Return tt
  \/ exists msg, Route.validateSegment s = Throw (BffException INVALID_SIGNATURE msg).
Proof.
  unfold Route.validateSegment.
  repeat match goal with |- context [if ?b then _ else _] => destruct b end; eauto.
Qed.

Lemma validateSegment_accepts (s : string) :
  Route.validateSegment s = Return tt <-> matches_class s.
Proof.
  unfold Route.validateSegment. split.
  - intros H.
    destruct (String.eqb s EmptyString); [discriminate|].
    destruct (String.eqb s ".." || String.eqb s "."); [discriminate|].
    destruct (includes "://" s || startsWith s "//"); [discriminate|].
    destruct (Route.SAFE_PATH_SEGMENT s) eqn:E; [|discriminate].
    now apply SAFE_PATH_SEGMENT_spec.
  - intros H. pose proof H as [Hne Hall].
    apply SAFE_PATH_SEGMENT_spec in H.
    destruct (String.eqb_spec s EmptyString) as [->|_]; [congruence|].
    assert (Hc : forall c, In c (list_ascii_of_string s) -> class_char c)
      by (now apply Forall_forall).
    destruct (String.eqb_spec s "..") as [->|_].
    { exfalso. specialize (Hc "."%char (or_introl eq_refl)).
      unfold class_char in Hc. cbv in Hc. intuition congruence. }
    destruct (String.eqb_spec s ".") as [->|_].
    { exfalso. specialize (Hc "."%char (or_introl eq_refl)).
      unfold class_char in Hc. cbv in Hc. intuition congruence. }
    simpl.
    destruct (includes "://" s) eqn:Ei.
    { exfalso. apply includes_spec in Ei. destruct Ei as [a [b ->]].
      assert (In ":"%char (list_ascii_of_string (a ++ "://" ++ b))).
      { clear. induction a; simpl; auto. }
      specialize (Hc _ H0). cbv in Hc. intuition congruence. }
    destruct (startsWith s "//") eqn:Es.
    { exfalso. apply prefix_spec in Es. destruct Es as [b ->].
      specialize (Hc "/"%char (or_introl eq_refl)). cbv in Hc. intuition congruence. }
    simpl. now rewrite H.
Qed.

Lemma validateSegment_dangerous (s : string) :
  dangerous s -> Route.validateSegment s <> Return tt.
Proof.
  intros Hd Hv. apply validateSegment_accepts in Hv. pose proof Hv as [Hne Hall].
  assert (Hc : forall c, In c (list_ascii_of_string s) -> class_char c)
    by (now apply Forall_forall).
  destruct Hd as [->|[->|[->|[[a [b ->]]|[[b ->]|Hn]]]]].
  - congruence.
  - specialize (Hc "."%char (or_introl eq_refl)). cbv in Hc. intuition congruence.
  - specialize (Hc "."%char (or_introl eq_refl)). cbv in Hc. intuition congruence.
  - assert (In ":"%char (list_ascii_of_string (a ++ "://" ++ b))).
    { clear. induction a; simpl; auto. }
    specialize (Hc _ H). cbv in Hc. intuition congruence.
  - specialize (Hc "/"%char (or_introl eq_refl)). cbv in Hc. intuition congruence.
  - contradiction.
Qed.

Lemma validatePathSegments_cases (segments : list string) :
  Route.validatePathSegments segments = Return tt
  \/ exists msg, Route.validatePathSegments segments = Throw (BffException INVALID_SIGNATURE msg).
Proof.
  induction segments as [|s r IH]; simpl; auto.
  destruct (validateSegment_cases s) as [-> | [msg ->]]; simpl; eauto.
Qed.

(** The guard accepts exactly the lists of segments made of class
    characters only. *)
Lemma validatePathSegments_accepts (segments : list string) :
  Route.validatePathSegments segments = Return tt <-> Forall matches_class segments.
Proof.
  induction segments as [|s r IH]; simpl.
  - split; auto.
  - split.
    + intros H. destruct (Route.validateSegment s) as [[]|e] eqn:E; simpl in H; [|discriminate].
      constructor; [now apply validateSegment_accepts | now apply IH].
    + intros H. inversion H as [|? ? Hs Hr]; subst.
      apply validateSegment_accepts in Hs. rewrite Hs. simpl. now apply IH.
Qed.

(** C6: the path guard refuses every list that holds an empty segment, a
    dot or double-dot segment, a segment that contains [://] or starts with
    two slashes, or a segment that is not made of characters of the class
    only, always with a [BffException]; the three lists of the specification
    are refused and [users, 42, roles] is accepted. *)
Theorem validatePathSegments_guard :
  (forall (segments : list string) (s : string),
      In s segments -> dangerous s ->
      exists msg,
        Route.validatePathSegments segments = Throw (BffException INVALID_SIGNATURE msg))
  /\ Route.validatePathSegments [".."; "etc"]
     = Throw (BffException INVALID_SIGNATURE "Invalid path: traversal not allowed")
  /\ Route.validatePathSegments ["http:"; EmptyString; "evil.com"]
     = Throw (BffException INVALID_SIGNATURE "Invalid path: forbidden characters")
  /\ Route.validatePathSegments ["a b"]
     = Throw (BffException INVALID_SIGNATURE "Invalid path: forbidden characters")
  /\ Route.validatePathSegments ["users"; "42"; "roles"] = Return tt.
Proof.
  split; [|repeat split; reflexivity].
  intros segments s Hin Hd.
  destruct (validatePathSegments_cases segments) as [Hok | Hthrow]; [|exact Hthrow].
  exfalso. apply validatePathSegments_accepts in Hok.
  rewrite Forall_forall in Hok. specialize (Hok s Hin).
  apply validateSegment_accepts in Hok. now apply validateSegment_dangerous in Hd.
Qed.

Lemma validatePathSegments_guard_witness :
  exists msg,
    Route.validatePathSegments ["users"; "a/../b"]
    = Throw (BffException INVALID_SIGNATURE msg).
Proof.
  apply (proj1 validatePathSegments_guard ["users"; "a/../b"] "a/../b").
  - simpl. auto.
  - unfold dangerous. do 5 right. intros [_ H].
    apply Forall_forall with (x := "/"%char) in H; [|simpl; auto].
    cbv in H. intuition congruence.
Defined.


(** ** Decimal numerals *)

Lemma byte_of_ascii_of_byte (b : Z) :
  0 <= b < 256 -> byte_of_ascii (ascii_of_byte b) = b.
Proof.
  intros H. unfold byte_of_ascii, ascii_of_byte.
  rewrite Z.mod_small by lia.
  rewrite N_ascii_embedding by lia. lia.
Qed.

Lemma byte_of_ascii_range (c : ascii) : 0 <= byte_of_ascii c < 256.
Proof.
  unfold byte_of_ascii. pose proof (N_ascii_bounded c). lia.
Qed.

Lemma digits_value_app (d r : string) (a : Z) :
  digits_value a (d ++ r) = digits_value (digits_value a d) r.
Proof. revert a. induction d as [|c d IH]; intros a; simpl; auto. Qed.

Lemma all_digits_app (d r : string) :
  all_digits (d ++ r) = all_digits d && all_digits r.
Proof. induction d as [|c d IH]; simpl; auto. now rewrite IH, andb_assoc. Qed.

Lemma length_app (d r : string) :
  String.length (d ++ r) = (String.length d + String.length r)%nat.
Proof. induction d; simpl; auto. Qed.

Lemma digit_numeral (n : Z) :
  0 <= n < 10 -> numeral (String (ascii_of_byte (48 + n)) EmptyString) n.
Proof.
  intros H. unfold numeral. cbn [all_digits digits_value String.length].
  unfold is_digit, digit_value. cbv zeta.
  rewrite byte_of_ascii_of_byte by lia.
  repeat split.
  - apply andb_true_iff. split; [apply andb_true_iff; split; apply Z.leb_le; lia | reflexivity].
  - discriminate.
  - intros a. change (Z.of_nat 1) with 1. lia.
Qed.

Lemma numeral_snoc (d : string) (n k : Z) :
  numeral d n -> 0 <= k < 10 ->
  numeral (d ++ String (ascii_of_byte (48 + k)) EmptyString) (10 * n + k).
Proof.
  intros (Hd & Hne & Hv) Hk. destruct (digit_numeral k Hk) as (Hd' & _ & Hv').
  repeat split.
  - now rewrite all_digits_app, Hd, Hd'.
  - destruct d; [congruence | discriminate].
  - intros a. rewrite digits_value_app, Hv, Hv', length_app.
    simpl String.length. rewrite Nat2Z.inj_add. simpl Z.of_nat.
    rewrite Z.pow_add_r by lia. lia.
Qed.

Lemma dec_digits_S (f : nat) (n : Z) (acc : string) :
  dec_digits (S f) n acc
  = if n <? 10 then String (ascii_of_byte (48 + n mod 10)) acc
    else dec_digits f (n / 10) (String (ascii_of_byte (48 + n mod 10)) acc).
Proof. reflexivity. Qed.

Lemma dec_digits_spec (fuel : nat) :
  forall n acc, (0 < fuel)%nat -> 0 <= n < 2 ^ Z.of_nat fuel ->
  exists d, dec_digits fuel n acc = d ++ acc /\ numeral d n.
Proof.
  induction fuel as [|f IH]; intros n acc Hf Hn; [lia|].
  rewrite dec_digits_S. destruct (n <? 10) eqn:E.
  - apply Z.ltb_lt in E. rewrite Z.mod_small by lia.
    exists (String (ascii_of_byte (48 + n)) EmptyString). split; [reflexivity|].
    apply digit_numeral. lia.
  - apply Z.ltb_ge in E.
    assert (Hpow : 2 ^ Z.of_nat (S f) = 2 * 2 ^ Z.of_nat f).
    { rewrite Nat2Z.inj_succ, Z.pow_succ_r by lia. reflexivity. }
    assert (Hf' : (0 < f)%nat).
    { destruct f; [|lia]. simpl in Hn. lia. }
    assert (Hq : 0 <= n / 10 < 2 ^ Z.of_nat f).
    { split; [apply Z.div_pos; lia|].
      apply Z.div_lt_upper_bound; lia. }
    destruct (IH (n / 10) (String (ascii_of_byte (48 + n mod 10)) acc) Hf' Hq)
      as (d & Hd & Hnum).
    exists (d ++ String (ascii_of_byte (48 + n mod 10)) EmptyString). split.
    + rewrite Hd, append_assoc. reflexivity.
    + replace n with (10 * (n / 10) + n mod 10) at 2 by (symmetry; apply Z.div_mod; lia).
      apply numeral_snoc; [exact Hnum|]. apply Z.mod_pos_bound. lia.
Qed.

Lemma dec_of_nat_numeral (n : Z) : 0 <= n -> numeral (dec_of_nat n) n.
Proof.
  intros Hn. unfold dec_of_nat.
  destruct (dec_digits_spec (S (Z.to_nat (Z.log2 n))) n EmptyString) as (d & Hd & Hnum).
  - lia.
  - split; [exact Hn|].
    rewrite Nat2Z.inj_succ, Z2Nat.id by apply Z.log2_nonneg.
    destruct (Z.eq_dec n 0) as [->|Hz]; [reflexivity|].
    apply Z.log2_spec. lia.
  - rewrite Hd, append_nil_r. exact Hnum.
Qed.

Lemma numeral_value (d : string) (n : Z) : numeral d n -> digits_value 0 d = n.
Proof. intros (_ & _ & H). rewrite H. lia. Qed.

Lemma span_digits_all (d : string) :
  all_digits d = true -> JsonText.span_digits d = (d, EmptyString).
Proof.
  induction d as [|c d IH]; simpl; auto.
  intros H. apply andb_true_iff in H. destruct H as [Hc Hd].
  rewrite Hc, (IH Hd). reflexivity.
Qed.

Lemma is_digit_not (c x : ascii) :
  is_digit c = true -> is_digit x = false -> Ascii.eqb c x = false.
Proof.
  intros Hc Hx. destruct (Ascii.eqb_spec c x); [congruence | reflexivity].
Qed.

Lemma is_digit_not_space (c : ascii) : is_digit c = true -> Php.is_space c = false.
Proof.
  unfold is_digit, Php.is_space. cbv zeta. intros H.
  apply andb_true_iff in H. destruct H as [H1 H2].
  apply Z.leb_le in H1. apply Z.leb_le in H2.
  repeat (apply orb_false_iff; split); apply Z.eqb_neq; lia.
Qed.

(** A numeral is read back as the number it writes. *)
Lemma scan_number_numeral (d : string) (n : Z) :
  numeral d n -> Php.scan_number d = Some (n, 0, EmptyString).
Proof.
  intros Hnum. pose proof (numeral_value _ _ Hnum) as Hv.
  destruct Hnum as (Hall & Hne & _).
  destruct d as [|c r]; [congruence|].
  pose proof Hall as Hall'. simpl in Hall'. apply andb_true_iff in Hall'.
  destruct Hall' as [Hc Hr].
  unfold Php.scan_number.
  change (Php.skip_spaces (String c r))
    with (if Php.is_space c then Php.skip_spaces r else String c r).
  rewrite (is_digit_not_space c Hc).
  unfold Php.read_sign.
  rewrite (is_digit_not c "-" Hc eq_refl), (is_digit_not c "+" Hc eq_refl).
  rewrite (span_digits_all _ Hall). simpl Php.read_fraction. cbv iota.
  rewrite append_nil_r, Hv. simpl. reflexivity.
Qed.

Lemma scan_number_minus (d : string) (n : Z) :
  numeral d n -> Php.scan_number (String "-" d) = Some (- n, 0, EmptyString).
Proof.
  intros Hnum. pose proof (numeral_value _ _ Hnum) as Hv.
  destruct Hnum as (Hall & Hne & _).
  unfold Php.scan_number. simpl Php.skip_spaces. simpl Php.read_sign. cbv beta iota.
  rewrite (span_digits_all _ Hall). simpl Php.read_fraction. cbv beta iota.
  destruct d as [|c r]; [congruence|].
  rewrite append_nil_r, Hv. simpl. reflexivity.
Qed.

(** [(int)] reads back the numeral [toString] writes, within the range of
    a PHP [int]. *)
Lemma intval_dec_of_Z (z : Z) :
  Php.PHP_INT_MIN <= z <= Php.PHP_INT_MAX -> Php.intval (dec_of_Z z) = z.
Proof.
  intros Hz. unfold Php.intval, dec_of_Z.
  destruct (z <? 0) eqn:E.
  - apply Z.ltb_lt in E.
    rewrite (scan_number_minus _ (- z)) by (apply dec_of_nat_numeral; lia).
    simpl. lia.
  - apply Z.ltb_ge in E.
    rewrite (scan_number_numeral _ z) by (apply dec_of_nat_numeral; lia).
    simpl. lia.
Qed.

(** ** The validator: freshness of the timestamp *)

Lemma validateTimestamp_cases (now : Z) (request : HmacValidator.Request) :
  HmacValidator.validateTimestamp now request = HmacValidator.ok
  \/ HmacValidator.validateTimestamp now request = HmacValidator.TimestampExpired.
Proof.
  unfold HmacValidator.validateTimestamp. cbv zeta.
  match goal with |- context [if ?b then _ else _] => destruct b end; auto.
Qed.

(** C5: the freshness stage reads the header [X-BFF-Timestamp] with the
    cast [(int)] and accepts exactly when the number read is within 300
    seconds of the clock; any other outcome is the rejection
    [TimestampExpired].  A header that is the decimal numeral of a
    timestamp [t] is read as [t]: so the timestamp [now - 301] is
    rejected, and the timestamps [now - 299] and [now - 300] are
    accepted. *)
Theorem validateTimestamp_window
        (now : Z) (request : HmacValidator.Request) (h : string) :
  HmacValidator.header "X-BFF-Timestamp" (HmacValidator.headers request) = Some h ->
  (HmacValidator.validateTimestamp now request = HmacValidator.ok
   <-> Z.abs (now - Php.intval h) <= 300)
  /\ (~ Z.abs (now - Php.intval h) <= 300 ->
      HmacValidator.validateTimestamp now request = HmacValidator.TimestampExpired)
  /\ (forall t,
        Php.PHP_INT_MIN <= t <= Php.PHP_INT_MAX ->
        h = dec_of_Z t ->
        Php.intval h = t
        /\ (HmacValidator.validateTimestamp now request = HmacValidator.ok
            <-> Z.abs (now - t) <= 300)
        /\ (t = now - 301 ->
            HmacValidator.validateTimestamp now request = HmacValidator.TimestampExpired)
        /\ (t = now - 299 -> HmacValidator.validateTimestamp now request = HmacValidator.ok)
        /\ (t = now - 300 -> HmacValidator.validateTimestamp now request = HmacValidator.ok)).
Proof.
  intros Hh.
  assert (Hiff : HmacValidator.validateTimestamp now request = HmacValidator.ok
                 <-> Z.abs (now - Php.intval h) <= 300).
  { unfold HmacValidator.validateTimestamp, HmacValidator.TIMESTAMP_TOLERANCE.
    rewrite Hh. cbv zeta.
    destruct (Z.abs (now - Php.intval h) >? 300) eqn:E.
    - apply Z.gtb_lt in E. split; [discriminate | lia].
    - split; [|reflexivity]. intros _.
      destruct (Z.gtb_spec (Z.abs (now - Php.intval h)) 300); [discriminate | lia]. }
  assert (Hrej : ~ Z.abs (now - Php.intval h) <= 300 ->
                 HmacValidator.validateTimestamp now request = HmacValidator.TimestampExpired).
  { intros Hn. destruct (validateTimestamp_cases now request) as [Hok|Hex]; [|exact Hex].
    apply Hiff in Hok. contradiction. }
  split; [exact Hiff|]. split; [exact Hrej|].
  intros t Ht ->. rewrite (intval_dec_of_Z t Ht) in Hiff, Hrej.
  split; [now apply intval_dec_of_Z|]. split; [exact Hiff|].
  repeat split; intros ->.
  - apply Hrej. lia.
  - apply Hiff. lia.
  - apply Hiff. lia.
Qed.

Definition request_at (timestamp : string) : HmacValidator.Request :=
  {| HmacValidator.headers :=
       [("X-BFF-Id", "nextjs-bff-prod"); ("X-BFF-Timestamp", timestamp);
        ("X-BFF-Signature", "00")];
     HmacValidator.method := "GET";
     HmacValidator.path := "api/v1/me";
     HmacValidator.content := EmptyString;
     HmacValidator.ip := "127.0.0.1" |}.

Lemma validateTimestamp_window_witness :
  HmacValidator.validateTimestamp 1700000301 (request_at "1700000000")
  = HmacValidator.TimestampExpired
  /\ HmacValidator.validateTimestamp 1700000299 (request_at "1700000000") = HmacValidator.ok
  /\ HmacValidator.validateTimestamp 1700000300 (request_at "1700000000") = HmacValidator.ok
  /\ Php.intval "1700000000" = 1700000000.
Proof.
  assert (Hrange : Php.PHP_INT_MIN <= 1700000000 <= Php.PHP_INT_MAX)
    by (unfold Php.PHP_INT_MIN, Php.PHP_INT_MAX; lia).
  split; [|split; [|split]].
  - destruct (proj2 (proj2 (validateTimestamp_window 1700000301 (request_at "1700000000")
                              "1700000000" eq_refl)) 1700000000 Hrange eq_refl)
      as (_ & _ & H & _).
    apply H. reflexivity.
  - destruct (proj2 (proj2 (validateTimestamp_window 1700000299 (request_at "1700000000")
                              "1700000000" eq_refl)) 1700000000 Hrange eq_refl)
      as (_ & _ & _ & H & _).
    apply H. reflexivity.
  - destruct (proj2 (proj2 (validateTimestamp_window 1700000300 (request_at "1700000000")
                              "1700000000" eq_refl)) 1700000000 Hrange eq_refl)
      as (_ & _ & _ & _ & H).
    apply H. reflexivity.
  - exact (proj1 (proj2 (proj2 (validateTimestamp_window 1700000300
                                  (request_at "1700000000") "1700000000" eq_refl))
                    1700000000 Hrange eq_refl)).
Defined.

(** The signer's timestamp, whatever the clock, is read back by the
    validator as the same number of seconds. *)
Lemma timestamp_read_back (now_ms : Z) :
  0 <= now_ms -> now_ms / 1000 <= Php.PHP_INT_MAX ->
  Php.intval (dec_of_Z (now_ms / 1000)) = now_ms / 1000.
Proof.
  intros H0 H1. apply intval_dec_of_Z.
  assert (0 <= now_ms / 1000) by (apply Z.div_pos; lia).
  unfold Php.PHP_INT_MIN. lia.
Qed.

(** ** Sorting keys *)

Lemma compare_units_eq (a b : list Z) : Js.compare_units a b = Eq -> a = b.
Proof.
  revert b. induction a as [|x a IH]; intros [|y b]; simpl; try easy.
  destruct (Z.compare_spec x y) as [Hxy|Hxy|Hxy]; try easy.
  intros Hr. subst. f_equal. now apply IH.
Qed.

Lemma compare_units_refl (a : list Z) : Js.compare_units a a = Eq.
Proof. induction a as [|x a IH]; simpl; [reflexivity|]. now rewrite Z.compare_refl. Qed.

Lemma compare_units_opp (a b : list Z) :
  Js.compare_units b a = CompOpp (Js.compare_units a b).
Proof.
  revert b. induction a as [|x a IH]; intros [|y b]; simpl; try easy.
  rewrite (Z.compare_antisym x y).
  destruct (x ?= y); simpl; [apply IH | reflexivity | reflexivity].
Qed.

Lemma compare_units_trans (a b c : list Z) :
  Js.compare_units a b = Lt -> Js.compare_units b c = Lt -> Js.compare_units a c = Lt.
Proof.
  revert b c. induction a as [|x a IH]; intros [|y b] [|z c]; simpl; try easy.
  destruct (Z.compare_spec x y); destruct (Z.compare_spec y z);
    destruct (Z.compare_spec x z); try easy; try lia.
  apply IH.
Qed.

Lemma string_leb_trans (a b c : string) :
  String.leb a b = true -> String.leb b c = true -> String.leb a c = true.
Proof.
  unfold String.leb. revert b c.
  induction a as [|x a IH]; intros [|y b] [|z c]; simpl; try easy.
  unfold Ascii.compare.
  destruct (N.compare_spec (N_of_ascii x) (N_of_ascii y));
    destruct (N.compare_spec (N_of_ascii y) (N_of_ascii z));
    destruct (N.compare_spec (N_of_ascii x) (N_of_ascii z));
    try easy; try lia.
  apply IH.
Qed.

(** The order of the code units is a total order on texts. *)
Lemma leb_trans (a b c : string) :
  Js.leb a b = true -> Js.leb b c = true -> Js.leb a c = true.
Proof.
  unfold Js.leb.
  set (ua := Js.code_units (bytes_of_string a)).
  set (ub := Js.code_units (bytes_of_string b)).
  set (uc := Js.code_units (bytes_of_string c)).
  destruct (Js.compare_units ua ub) eqn:Eab; try discriminate;
    destruct (Js.compare_units ub uc) eqn:Ebc; try discriminate; intros Hab Hbc.
  - apply compare_units_eq in Eab, Ebc. rewrite Eab, Ebc, compare_units_refl.
    eapply string_leb_trans; eauto.
  - apply compare_units_eq in Eab. now rewrite Eab, Ebc.
  - apply compare_units_eq in Ebc. now rewrite <- Ebc, Eab.
  - now rewrite (compare_units_trans _ _ _ Eab Ebc).
Qed.

Lemma leb_total (a b : string) : Js.leb a b = true \/ Js.leb b a = true.
Proof.
  unfold Js.leb.
  rewrite (compare_units_opp (Js.code_units (bytes_of_string a))
             (Js.code_units (bytes_of_string b))).
  destruct (Js.compare_units (Js.code_units (bytes_of_string a))
              (Js.code_units (bytes_of_string b))); simpl; auto.
  apply String.leb_total.
Qed.

Lemma leb_antisym (a b : string) : Js.leb a b = true -> Js.leb b a = true -> a = b.
Proof.
  unfold Js.leb.
  rewrite (compare_units_opp (Js.code_units (bytes_of_string a))
             (Js.code_units (bytes_of_string b))).
  destruct (Js.compare_units (Js.code_units (bytes_of_string a))
              (Js.code_units (bytes_of_string b))); simpl; try discriminate.
  apply String.leb_antisym.
Qed.

(** The order is the one of the code units, not of the bytes: U+1F600,
    whose surrogates are D83D DE00, sorts before U+FF01, and its UTF-8
    bytes after. *)
Example sort_code_units :
  Js.sort [string_of_bytes [0xEF; 0xBC; 0x81]; string_of_bytes [0xF0; 0x9F; 0x98; 0x80]]
  = [string_of_bytes [0xF0; 0x9F; 0x98; 0x80]; string_of_bytes [0xEF; 0xBC; 0x81]]
  /\ Js.code_units [0xF0; 0x9F; 0x98; 0x80] = [0xD83D; 0xDE00]
  /\ Js.code_units [0xEF; 0xBC; 0x81] = [0xFF01]
  /\ String.leb (string_of_bytes [0xEF; 0xBC; 0x81]) (string_of_bytes [0xF0; 0x9F; 0x98; 0x80])
     = true.
Proof. repeat split; vm_compute; reflexivity. Qed.

Lemma insert_sorted_perm (k : string) (l : list string) :
  Permutation (k :: l) (Js.insert_sorted k l).
Proof.
  induction l as [|x l IH]; simpl; auto.
  destruct (Js.leb k x); auto.
  eapply perm_trans; [apply perm_swap|]. now constructor.
Qed.

Lemma sort_perm (l : list string) : Permutation l (Js.sort l).
Proof.
  induction l as [|x l IH]; simpl; auto.
  eapply perm_trans; [|apply insert_sorted_perm]. now constructor.
Qed.

Lemma insert_sorted_sorted (k : string) (l : list string) :
  StronglySorted le_key l -> StronglySorted le_key (Js.insert_sorted k l).
Proof.
  induction 1 as [|x l Hs IH Hx]; simpl.
  - constructor; constructor.
  - destruct (Js.leb k x) eqn:E.
    + constructor; [now constructor|].
      constructor; [exact E|].
      eapply Forall_impl; [|exact Hx]. intros y Hy. eapply leb_trans; eauto.
    + constructor; [exact IH|].
      assert (Hxk : le_key x k).
      { destruct (leb_total k x) as [H|H]; [congruence | exact H]. }
      eapply Permutation_Forall; [apply insert_sorted_perm|].
      now constructor.
Qed.

Lemma sort_sorted (l : list string) : StronglySorted le_key (Js.sort l).
Proof.
  induction l as [|x l IH]; simpl; [constructor | now apply insert_sorted_sorted].
Qed.

(** Two sorted lists with the same elements are the same list. *)
Lemma sorted_perm_eq (l1 l2 : list string) :
  StronglySorted le_key l1 -> StronglySorted le_key l2 ->
  Permutation l1 l2 -> l1 = l2.
Proof.
  intros H1. revert l2. induction H1 as [|x l1 Hs IH Hx]; intros l2 H2 Hp.
  - now apply Permutation_nil in Hp.
  - destruct H2 as [|y l2 Hs2 Hy].
    + apply Permutation_sym, Permutation_nil in Hp. discriminate.
    + assert (x = y).
      { assert (In x (y :: l2)) by (eapply Permutation_in; [exact Hp | now left]).
        assert (In y (x :: l1))
          by (eapply Permutation_in; [apply Permutation_sym; exact Hp | now left]).
        destruct H as [->|Hin]; [reflexivity|].
        destruct H0 as [->|Hin']; [reflexivity|].
        rewrite Forall_forall in Hx, Hy.
        apply leb_antisym; [now apply Hx | now apply Hy]. }
      subst y. f_equal. apply IH; [exact Hs2|].
      eapply Permutation_cons_inv; exact Hp.
Qed.

Lemma sort_unique (l1 l2 : list string) :
  Permutation l1 l2 -> Js.sort l1 = Js.sort l2.
Proof.
  intros Hp. apply sorted_perm_eq; try apply sort_sorted.
  eapply perm_trans; [apply Permutation_sym, sort_perm|].
  eapply perm_trans; [exact Hp | apply sort_perm].
Qed.

Lemma sort_sorted_id (l : list string) : StronglySorted le_key l -> Js.sort l = l.
Proof.
  intros H. apply sorted_perm_eq; [apply sort_sorted | exact H |].
  apply Permutation_sym, sort_perm.
Qed.

Lemma filter_sorted (f : string -> bool) (l : list string) :
  StronglySorted le_key l -> StronglySorted le_key (filter f l).
Proof.
  induction 1 as [|x l Hs IH Hx]; simpl; [constructor|].
  destruct (f x); [|exact IH].
  constructor; [exact IH|].
  rewrite Forall_forall in *. intros y Hy. apply filter_In in Hy. now apply Hx.
Qed.

(** ** Objects: lookup, definition and assignment of a property *)

Lemma has_key_In {A : Type} (k : string) (o : list (string * A)) :
  has_key k o = true <-> In k (keys o).
Proof.
  unfold has_key. induction o as [|[k' v] o IH]; simpl.
  - split; [discriminate | tauto].
  - destruct (String.eqb_spec k k') as [->|Hn].
    + split; auto.
    + rewrite IH. split; [auto | intros [H|H]; [congruence | exact H]].
Qed.

Lemma has_key_false {A : Type} (k : string) (o : list (string * A)) :
  has_key k o = false <-> ~ In k (keys o).
Proof.
  rewrite <- has_key_In. destruct (has_key k o); split; congruence.
Qed.

Lemma lookup_None {A : Type} (k : string) (o : list (string * A)) :
  lookup k o = None <-> ~ In k (keys o).
Proof.
  rewrite <- has_key_false. unfold has_key. destruct (lookup k o); split; congruence.
Qed.

Lemma lookup_In {A : Type} (k : string) (v : A) (o : list (string * A)) :
  lookup k o = Some v -> In (k, v) o.
Proof.
  induction o as [|[k' v'] o IH]; simpl; [discriminate|].
  destruct (String.eqb_spec k k') as [->|Hn]; intros H.
  - left. congruence.
  - right. auto.
Qed.

Lemma lookup_map_values {A B : Type} (f : A -> B) (k : string) (o : list (string * A)) :
  lookup k (map (fun '(k, v) => (k, f v)) o) = option_map f (lookup k o).
Proof.
  induction o as [|[k' v] o IH]; simpl; auto.
  destruct (String.eqb k k'); auto.
Qed.

Lemma keys_map_values {A B : Type} (f : A -> B) (o : list (string * A)) :
  keys (map (fun '(k, v) => (k, f v)) o) = keys o.
Proof.
  unfold keys. rewrite map_map. apply map_ext. now intros [k v].
Qed.


Lemma keys_update (k : string) (v : json) (o : list (string * json)) :
  keys (Js.update k v o) = keys o.
Proof.
  induction o as [|[k' v'] o IH]; simpl; auto.
  destruct (String.eqb k k'); simpl; congruence.
Qed.

Lemma lookup_update_same (k : string) (v : json) (o : list (string * json)) :
  has_key k o = true -> lookup k (Js.update k v o) = Some v.
Proof.
  unfold has_key. induction o as [|[k' v'] o IH]; simpl; [discriminate|].
  destruct (String.eqb k k') eqn:E; simpl; rewrite E; auto.
Qed.

Lemma lookup_update_other (k k' : string) (v : json) (o : list (string * json)) :
  k' <> k -> lookup k' (Js.update k v o) = lookup k' o.
Proof.
  intros Hn. induction o as [|[k0 v0] o IH]; simpl; auto.
  destruct (String.eqb_spec k k0) as [->|H0]; simpl.
  - destruct (String.eqb_spec k' k0); [contradiction | reflexivity].
  - destruct (String.eqb k' k0); auto.
Qed.

Lemma In_update (k : string) (v : json) (o : list (string * json)) (e : string * json) :
  In e (Js.update k v o) -> In e o \/ e = (k, v).
Proof.
  induction o as [|[k0 v0] o IH]; simpl; [tauto|].
  destruct (String.eqb_spec k k0) as [->|H0]; simpl.
  - intros [<-|H]; auto.
  - intros [<-|H]; auto. destruct (IH H); auto.
Qed.

Lemma keys_insert_index (i : Z) (k : string) (v : json) (o : list (string * json)) :
  Permutation (k :: keys o) (keys (Js.insert_index i k v o)).
Proof.
  induction o as [|[k' v'] o IH]; simpl; auto.
  destruct (Js.array_index k') as [j|]; [destruct (j <? i)|]; simpl; auto.
  eapply perm_trans; [apply perm_swap|]. now constructor.
Qed.

Lemma lookup_insert_index_same (i : Z) (k : string) (v : json) (o : list (string * json)) :
  has_key k o = false -> lookup k (Js.insert_index i k v o) = Some v.
Proof.
  unfold has_key. induction o as [|[k' v'] o IH]; simpl.
  - now rewrite String.eqb_refl.
  - destruct (String.eqb k k') eqn:E; [discriminate|]. intros H.
    destruct (Js.array_index k') as [j|]; [destruct (j <? i)|]; simpl;
      rewrite ?E, ?String.eqb_refl; auto.
Qed.

Lemma lookup_insert_index_other (i : Z) (k k' : string) (v : json) (o : list (string * json)) :
  k' <> k -> lookup k' (Js.insert_index i k v o) = lookup k' o.
Proof.
  intros Hn. apply String.eqb_neq in Hn.
  induction o as [|[k0 v0] o IH]; simpl.
  - now rewrite Hn.
  - destruct (Js.array_index k0) as [j|]; [destruct (j <? i)|]; simpl; rewrite ?Hn, ?IH; auto.
Qed.

Lemma In_insert_index (i : Z) (k : string) (v : json) (o : list (string * json))
      (e : string * json) :
  In e (Js.insert_index i k v o) -> In e o \/ e = (k, v).
Proof.
  induction o as [|[k0 v0] o IH]; simpl.
  - intros [<-|[]]; auto.
  - destruct (Js.array_index k0) as [j|]; [destruct (j <? i)|]; simpl.
    + intros [<-|H]; auto. destruct (IH H); auto.
    + intros [<-|[<-|H]]; auto.
    + intros [<-|[<-|H]]; auto.
Qed.

Lemma lookup_app {A : Type} (k : string) (o1 o2 : list (string * A)) :
  lookup k (o1 ++ o2)%list
  = match lookup k o1 with Some v => Some v | None => lookup k o2 end.
Proof.
  induction o1 as [|[k' v] o1 IH]; simpl; auto. destruct (String.eqb k k'); auto.
Qed.

Lemma lookup_define_same (k : string) (v : json) (o : list (string * json)) :
  lookup k (Js.define o k v) = Some v.
Proof.
  unfold Js.define. destruct (has_key k o) eqn:E.
  - now apply lookup_update_same.
  - destruct (Js.array_index k).
    + now apply lookup_insert_index_same.
    + rewrite lookup_app. unfold has_key in E.
      destruct (lookup k o); [discriminate|]. simpl. now rewrite String.eqb_refl.
Qed.

Lemma lookup_define_other (k k' : string) (v : json) (o : list (string * json)) :
  k' <> k -> lookup k' (Js.define o k v) = lookup k' o.
Proof.
  intros Hn. unfold Js.define. destruct (has_key k o).
  - now apply lookup_update_other.
  - destruct (Js.array_index k).
    + now apply lookup_insert_index_other.
    + rewrite lookup_app. destruct (lookup k' o); auto.
      simpl. apply String.eqb_neq in Hn. now rewrite Hn.
Qed.

Lemma keys_define_new (k : string) (v : json) (o : list (string * json)) :
  ~ In k (keys o) -> Permutation (k :: keys o) (keys (Js.define o k v)).
Proof.
  intros Hn. apply has_key_false in Hn. unfold Js.define. rewrite Hn.
  destruct (Js.array_index k).
  - apply keys_insert_index.
  - unfold keys. rewrite map_app. simpl. apply Permutation_cons_append.
Qed.

Lemma In_define (k : string) (v : json) (o : list (string * json)) (e : string * json) :
  In e (Js.define o k v) -> In e o \/ e = (k, v).
Proof.
  unfold Js.define. destruct (has_key k o).
  - apply In_update.
  - destruct (Js.array_index k).
    + apply In_insert_index.
    + intros H. apply in_app_or in H. destruct H as [H|[<-|[]]]; auto.
Qed.

(** ** The fold of [sortObjectKeys] *)

Lemma reducer_proto (values acc : list (string * json)) :
  Hmac.reducer values acc "__proto__" = acc.
Proof. unfold Hmac.reducer, Js.assign. simpl. now destruct (lookup _ values). Qed.

Lemma fold_skip_proto (values : list (string * json)) (ks : list string) :
  forall acc,
    fold_left (Hmac.reducer values) ks acc
    = fold_left (Hmac.reducer values) (filter not_proto ks) acc.
Proof.
  induction ks as [|k ks IH]; intros acc; simpl; auto.
  unfold not_proto at 1. destruct (String.eqb_spec k "__proto__") as [->|Hn]; simpl.
  - rewrite reducer_proto. apply IH.
  - apply IH.
Qed.

Lemma lookup_reducer_other (values acc : list (string * json)) (k k' : string) :
  k' <> k -> lookup k' (Hmac.reducer values acc k) = lookup k' acc.
Proof.
  intros Hn. unfold Hmac.reducer, Js.assign.
  destruct (lookup k values); auto.
  destruct (String.eqb k "__proto__"); auto.
  now apply lookup_define_other.
Qed.

Lemma lookup_fold_other (values : list (string * json)) (k : string) (ks : list string) :
  forall acc, ~ In k ks ->
    lookup k (fold_left (Hmac.reducer values) ks acc) = lookup k acc.
Proof.
  induction ks as [|k0 ks IH]; intros acc Hn; simpl; auto.
  rewrite IH by (intros H; apply Hn; now right).
  apply lookup_reducer_other. intros ->. apply Hn. now left.
Qed.

Lemma lookup_fold_same (values : list (string * json)) (k : string) (v : json)
      (ks : list string) :
  forall acc, In k ks -> not_proto k = true -> lookup k values = Some v ->
    lookup k (fold_left (Hmac.reducer values) ks acc) = Some v.
Proof.
  induction ks as [|k0 ks IH]; intros acc Hin Hp Hv; [destruct Hin|].
  simpl. destruct (in_dec string_dec k ks) as [Hi|Hni].
  - now apply IH.
  - destruct Hin as [->|Hi]; [|contradiction].
    rewrite lookup_fold_other by assumption.
    unfold Hmac.reducer, Js.assign. rewrite Hv.
    unfold not_proto in Hp. apply negb_true_iff in Hp. rewrite Hp.
    apply lookup_define_same.
Qed.

Lemma In_fold (values : list (string * json)) (ks : list string) (e : string * json) :
  forall acc, In e (fold_left (Hmac.reducer values) ks acc) ->
    In e acc \/ In e values.
Proof.
  induction ks as [|k0 ks IH]; intros acc H; simpl in H; auto.
  destruct (IH _ H) as [Ha|Hv]; auto.
  unfold Hmac.reducer, Js.assign in Ha.
  destruct (lookup k0 values) as [v|] eqn:E; auto.
  destruct (String.eqb k0 "__proto__"); auto.
  destruct (In_define _ _ _ _ Ha) as [Hi| ->]; auto.
  right. now apply lookup_In.
Qed.

Lemma keys_fold_perm (values : list (string * json)) (ks : list string) :
  forall acc,
    NoDup ks ->
    (forall k, In k ks -> lookup k values <> None) ->
    (forall k, In k ks -> ~ In k (keys acc)) ->
    Permutation (keys acc ++ filter not_proto ks)
                (keys (fold_left (Hmac.reducer values) ks acc)).
Proof.
  induction ks as [|k0 ks IH]; intros acc Hnd Hv Hacc; simpl.
  - rewrite app_nil_r. apply Permutation_refl.
  - inversion Hnd as [|? ? Hk0 Hnd']; subst.
    assert (Hv' : forall k, In k ks -> lookup k values <> None) by (intros; apply Hv; now right).
    unfold not_proto at 1. destruct (String.eqb_spec k0 "__proto__") as [->|Hn]; simpl.
    + rewrite reducer_proto. apply IH; auto. intros k Hk. apply Hacc. now right.
    + destruct (lookup k0 values) as [v|] eqn:E; [|exfalso; apply (Hv k0); auto; now left].
      assert (Hr : Hmac.reducer values acc k0 = Js.define acc k0 v).
      { unfold Hmac.reducer, Js.assign. rewrite E.
        apply String.eqb_neq in Hn. now rewrite Hn. }
      rewrite Hr.
      assert (Hnew : ~ In k0 (keys acc)) by (apply Hacc; now left).
      pose proof (keys_define_new k0 v acc Hnew) as Hp.
      eapply perm_trans; [|apply IH; auto].
      * eapply perm_trans; [apply Permutation_sym, Permutation_middle|].
        change (k0 :: keys acc ++ filter not_proto ks)%list
          with ((k0 :: keys acc) ++ filter not_proto ks)%list.
        now apply Permutation_app_tail.
      * intros k Hk Hin.
        eapply Permutation_in in Hin; [|apply Permutation_sym; exact Hp].
        destruct Hin as [->|Hin]; [contradiction|].
        apply (Hacc k); [now right | exact Hin].
Qed.

Lemma fold_left_ext_in {A B : Type} (f g : A -> B -> A) (l : list B) :
  (forall a b, In b l -> f a b = g a b) ->
  forall a, fold_left f l a = fold_left g l a.
Proof.
  induction l as [|b l IH]; intros H a; simpl; auto.
  rewrite H by now left. apply IH. intros; apply H; now right.
Qed.

Lemma nodupb_NoDup (l : list string) : nodupb l = true -> NoDup l.
Proof.
  induction l as [|k l IH]; simpl; [constructor|].
  intros H. apply andb_true_iff in H. destruct H as [H1 H2].
  constructor; [|now apply IH].
  intros Hin. apply negb_true_iff in H1.
  assert (existsb (String.eqb k) l = true).
  { apply existsb_exists. exists k. split; [exact Hin | apply String.eqb_refl]. }
  congruence.
Qed.

(** ** The canonical form *)

Lemma json_induction (P : json -> Prop) :
  P JNull -> (forall b, P (JBool b)) -> (forall n, P (JNum n)) -> (forall s, P (JStr s)) ->
  (forall items, Forall P items -> P (JArr items)) ->
  (forall props, Forall (fun kv => P (snd kv)) props -> P (JObj props)) ->
  forall v, P v.
Proof.
  intros Hnull Hbool Hnum Hstr Harr Hobj.
  fix IH 1. intros [ | b | n | s | items | props].
  - exact Hnull.
  - apply Hbool.
  - apply Hnum.
  - apply Hstr.
  - apply Harr. induction items as [|x l IHl]; constructor; [apply IH | exact IHl].
  - apply Hobj. induction props as [|[k x] l IHl]; constructor; [apply IH | exact IHl].
Qed.

Lemma sortObjectKeys_obj (props : list (string * json)) :
  Hmac.sortObjectKeys (JObj props)
  = JObj (fold_left (Hmac.reducer (map (fun '(k, v) => (k, Hmac.sortObjectKeys v)) props))
                    (Js.sort (keys props)) []).
Proof. reflexivity. Qed.

Lemma wf_json_obj (props : list (string * json)) :
  wf_json (JObj props) = true ->
  NoDup (keys props) /\ forall k v, In (k, v) props -> wf_json v = true.
Proof.
  simpl. intros H. apply andb_true_iff in H. destruct H as [H1 H2]. split.
  - now apply nodupb_NoDup.
  - intros k v Hin. rewrite forallb_forall in H2. apply (H2 (k, v) Hin).
Qed.

Lemma lookup_values_defined (f : json -> json) (props : list (string * json)) (k : string) :
  In k (Js.sort (keys props)) ->
  lookup k (map (fun '(k, v) => (k, f v)) props) <> None.
Proof.
  intros Hin. rewrite lookup_None, keys_map_values. intros Hn. apply Hn.
  eapply Permutation_in; [apply Permutation_sym, sort_perm | exact Hin].
Qed.

Lemma sortObjectKeys_idempotent (v : json) :
  wf_json v = true ->
  Hmac.sortObjectKeys (Hmac.sortObjectKeys v) = Hmac.sortObjectKeys v.
Proof.
  induction v as [ | b | n | s | items IH | props IH] using json_induction; intros Hwf; auto.
  - simpl. f_equal. rewrite map_map. apply map_ext_in. intros x Hin.
    rewrite Forall_forall in IH. apply IH; [exact Hin|].
    simpl in Hwf. rewrite forallb_forall in Hwf. now apply Hwf.
  - destruct (wf_json_obj _ Hwf) as [Hnd Hwfs].
    rewrite sortObjectKeys_obj.
    set (values := map (fun '(k, v) => (k, Hmac.sortObjectKeys v)) props).
    set (ks := Js.sort (keys props)).
    set (out := fold_left (Hmac.reducer values) ks []).
    rewrite sortObjectKeys_obj. f_equal.
    assert (Hvals : map (fun '(k, v) => (k, Hmac.sortObjectKeys v)) out = out).
    { rewrite <- (map_id out) at 2. apply map_ext_in. intros [k x] Hin.
      destruct (In_fold _ _ _ _ Hin) as [[]|Hv].
      unfold values in Hv. apply in_map_iff in Hv. destruct Hv as [[k' v'] [Heq Hin']].
      inversion Heq; subst. f_equal.
      rewrite Forall_forall in IH. apply (IH (k, v') Hin'). now apply (Hwfs k v'). }
    rewrite Hvals.
    assert (Hks : NoDup ks).
    { eapply Permutation_NoDup; [apply sort_perm | exact Hnd]. }
    assert (Hlk : forall k, In k ks -> lookup k values <> None).
    { intros k Hk. now apply lookup_values_defined. }
    assert (Hperm : Permutation (filter not_proto ks) (keys out)).
    { apply (keys_fold_perm values ks [] Hks Hlk). intros k _ []. }
    assert (Hsort : Js.sort (keys out) = filter not_proto ks).
    { rewrite <- (sort_unique _ _ Hperm). apply sort_sorted_id, filter_sorted, sort_sorted. }
    rewrite Hsort. unfold out at 2. rewrite (fold_skip_proto values ks).
    apply fold_left_ext_in. intros acc k Hk. apply filter_In in Hk. destruct Hk as [Hk Hp].
    unfold Hmac.reducer.
    destruct (lookup k values) as [x|] eqn:E; [|exfalso; now apply (Hlk k)].
    unfold out. now rewrite (lookup_fold_same values k x ks [] Hk Hp E).
Qed.











(** ** The signer on concrete bodies *)

Example canonical_ba :
  Js.JSON_stringify (Hmac.sortObjectKeys body_ba) = txt "{'a':[2,1],'b':1}".
Proof. vm_compute. reflexivity. Qed.

(** Integer-like keys come first, in numeric order, whatever their place in
    the sorted list; [__proto__] is dropped. *)
Example canonical_index_keys :
  Js.JSON_stringify
    (Hmac.sortObjectKeys
       (JObj [("b", JNum 1); ("10", JNum 2); ("9", JNum 3); ("__proto__", JNum 4)]))
  = txt "{'9':3,'10':2,'b':1}".
Proof. vm_compute. reflexivity. Qed.

Lemma generateSignature_configured (env : ProcessEnv) (now_ms : Z)
      (method path : string) (body : option json) :
  Hmac.BFF_SECRET env <> EmptyString ->
  Hmac.generateSignature env now_ms method path body
  = Return
      {| Hmac.X_BFF_Id := Hmac.BFF_ID env;
         Hmac.X_BFF_Timestamp := dec_of_Z (now_ms / 1000);
         Hmac.X_BFF_Signature :=
           hmac_sha256_hex (Hmac.BFF_SECRET env)
             (dec_of_Z (now_ms / 1000) ++ ":" ++ method ++ ":" ++ path ++ ":"
              ++ Hmac.hashBody body);
         Hmac.normalizedBody :=
           match body with
           | None | Some JNull => None
           | Some b => Some (Js.JSON_stringify (Hmac.sortObjectKeys b))
           end |}.
Proof.
  intros H. unfold Hmac.generateSignature, Hmac.ensureHmacConfigured.
  apply String.eqb_neq in H. rewrite H. reflexivity.
Qed.

Lemma generateSignature_unconfigured (env : ProcessEnv) (now_ms : Z)
      (method path : string) (body : option json) :
  Hmac.BFF_SECRET env = EmptyString ->
  Hmac.generateSignature env now_ms method path body
  = Throw (Error "Error" "BFF_HMAC_SECRET environment variable is not set").
Proof.
  intros H. unfold Hmac.generateSignature, Hmac.ensureHmacConfigured.
  rewrite H. reflexivity.
Qed.

(** C10: a body that is the number [0], [false] or the empty string is
    signed exactly as no body is (the hash in the payload is the empty
    string, so the signature is the one of the bodiless request), while the
    text [0], [false] or the two quotes is returned for transmission; that
    text is not empty and its SHA-256 digest is not the hash that was
    signed. *)
Theorem falsy_body_signed_as_no_body
        (env : ProcessEnv) (now_ms : Z) (method path : string)
        (body : json) (text : string) :
  Hmac.BFF_SECRET env <> EmptyString ->
  In (body, text)
     [ (JNum 0, "0"); (JBool false, "false");
       (JStr EmptyString, String dquote (String dquote EmptyString)) ] ->
  Hmac.hashBody (Some body) = EmptyString
  /\ Hmac.hashBody (Some body) = Hmac.hashBody None
  /\ exists r r0,
       Hmac.generateSignature env now_ms method path (Some body) = Return r
       /\ Hmac.generateSignature env now_ms method path None = Return r0
       /\ Hmac.X_BFF_Signature r = Hmac.X_BFF_Signature r0
       /\ Hmac.X_BFF_Signature r
          = hmac_sha256_hex (Hmac.BFF_SECRET env)
              (dec_of_Z (now_ms / 1000) ++ ":" ++ method ++ ":" ++ path ++ ":")
       /\ Hmac.normalizedBody r0 = None
       /\ Hmac.normalizedBody r = Some text
       /\ text <> EmptyString
       /\ sha256_hex text <> Hmac.hashBody (Some body).
Proof.
  intros Hsecret Hin.
  assert (Hhash : Hmac.hashBody (Some body) = EmptyString).
  { destruct Hin as [H|[H|[H|[]]]]; inversion H; reflexivity. }
  split; [exact Hhash|]. split; [rewrite Hhash; reflexivity|].
  rewrite !(generateSignature_configured env now_ms method path _ Hsecret).
  eexists. eexists. split; [reflexivity|]. split; [reflexivity|].
  cbn [Hmac.X_BFF_Signature Hmac.normalizedBody]. rewrite Hhash.
  change (Hmac.hashBody None) with EmptyString.
  split; [reflexivity|]. split; [reflexivity|]. split; [reflexivity|].
  destruct Hin as [H|[H|[H|[]]]]; inversion H; subst;
    (split; [reflexivity|]); (split; [discriminate|]); vm_compute; discriminate.
Qed.

Lemma falsy_body_signed_as_no_body_witness :
  Hmac.hashBody (Some (JBool false)) = EmptyString.
Proof.
  apply (proj1 (falsy_body_signed_as_no_body example_env example_now_ms
                  "POST" "api/v1/flags" (JBool false) "false"
                  ltac:(discriminate) ltac:(simpl; auto))).
Defined.

(** C2, on the body [{name: John Doe}]: the hash that is signed is the
    digest of the canonical text with the space inside the string removed,
    not the digest of the text returned for transmission. *)
Theorem hashBody_drops_spaces_of_strings :
  Hmac.generateSignature example_env example_now_ms "POST" "api/v1/auth/register"
                         (Some body_john)
  = Return
      {| Hmac.X_BFF_Id := "nextjs-bff-prod";
         Hmac.X_BFF_Timestamp := "1700000000";
         Hmac.X_BFF_Signature :=
           "3b48f3f1366d82524fadb349e9bff57de9bb02c6cc70798088af17ee2619e7bb";
         Hmac.normalizedBody := Some (txt "{'name':'John Doe'}") |}
  /\ hmac_sha256_hex "s3cret"
       ("1700000000:POST:api/v1/auth/register:" ++ sha256_hex (txt "{'name':'JohnDoe'}"))
     = "3b48f3f1366d82524fadb349e9bff57de9bb02c6cc70798088af17ee2619e7bb"
  /\ Hmac.hashBody (Some body_john) = sha256_hex (txt "{'name':'JohnDoe'}")
  /\ Hmac.hashBody (Some body_john)
     = "307b767c9e43c9d4b779599369394416a563b203de16232af29bbf45a7cd2c4b"
  /\ sha256_hex (txt "{'name':'John Doe'}")
     = "74d94f031bf727ad6ce9e014df818397a2fb4294056fde0c8cae3a4e554ded29"
  /\ Hmac.hashBody (Some body_john) <> sha256_hex (txt "{'name':'John Doe'}").
Proof.
  repeat split; try (vm_compute; reflexivity). vm_compute. discriminate.
Qed.

(** C3, on the empty object: the signing side writes it as an empty JSON
    object, the validating side as an empty JSON array ([json_decode] with
    associative arrays turns both into the empty PHP array).  On
    [{name: John Doe}] the text the signing side hashes has lost the space
    inside the string, the text the validating side hashes has not.  The
    object of the specification, [{b: 1, a: [2, 1]}], is written alike by
    both. *)
Theorem canonical_forms_of_empty_object :
  Js.JSON_stringify (Hmac.sortObjectKeys (JObj [])) = "{}"
  /\ HmacValidator.canonicalBody "{}" = "[]"
  /\ option_map (fun v => Js.JSON_stringify (Hmac.sortObjectKeys v)) (JSON_parse "{}")
     = Some "{}"
  /\ Js.remove_whitespace (Js.JSON_stringify (Hmac.sortObjectKeys body_john))
     = txt "{'name':'JohnDoe'}"
  /\ HmacValidator.canonicalBody (Js.JSON_stringify (Hmac.sortObjectKeys body_john))
     = txt "{'name':'John Doe'}"
  /\ Js.JSON_stringify (Hmac.sortObjectKeys body_ba) = txt "{'a':[2,1],'b':1}"
  /\ Js.remove_whitespace (Js.JSON_stringify (Hmac.sortObjectKeys body_ba))
     = txt "{'a':[2,1],'b':1}"
  /\ HmacValidator.canonicalBody (txt "{'b':1,'a':[2,1]}") = txt "{'a':[2,1],'b':1}"
  /\ HmacValidator.canonicalBody (Js.JSON_stringify (Hmac.sortObjectKeys body_ba))
     = txt "{'a':[2,1],'b':1}".
Proof. repeat split; vm_compute; reflexivity. Qed.

(** Other values the two sides write differently: an object nested empty,
    and an object whose keys are [0, 1, ...] (an array for PHP). *)
Example canonical_forms_of_list_like_object :
  HmacValidator.canonicalBody (txt "{'a':{}}") = txt "{'a':[]}"
  /\ Js.JSON_stringify (Hmac.sortObjectKeys (JObj [("a", JObj [])])) = txt "{'a':{}}"
  /\ HmacValidator.canonicalBody (txt "{'0':'x','1':'y'}") = txt "['x','y']"
  /\ Js.JSON_stringify (Hmac.sortObjectKeys (JObj [("0", JStr "x"); ("1", JStr "y")]))
     = txt "{'0':'x','1':'y'}".
Proof. repeat split; vm_compute; reflexivity. Qed.

(** The line separator U+2028 inside a string: PHP writes it as an
    escape of six characters, JavaScript as the character itself. *)
Example line_separator_escaped :
  Php.encode_string (string_of_bytes [0xE2; 0x80; 0xA8])
  = String dquote (String backslash ("u2028" ++ String dquote EmptyString))
  /\ Js.quote (string_of_bytes [0xE2; 0x80; 0xA8])
     = String dquote (string_of_bytes [0xE2; 0x80; 0xA8] ++ String dquote EmptyString).
Proof. split; vm_compute; reflexivity. Qed.

(** C1, on two JSON object bodies: the request signed for the body
    [{name: John Doe}], and the one signed for the empty object, are both
    rejected with [InvalidSignature] by the validator, with the same secret
    and ten seconds after signing; the request signed for
    [{b: 1, a: [2, 1]}] is accepted. *)
Theorem sign_then_validate_rejected :
  sign_then_validate example_env example_config example_now_ms example_now
                     "POST" "api/v1/auth/register" (Some body_john)
  = Some HmacValidator.InvalidSignature
  /\ sign_then_validate example_env example_config example_now_ms example_now
                        "POST" "api/v1/auth/logout" (Some (JObj []))
     = Some HmacValidator.InvalidSignature
  /\ sign_then_validate example_env example_config example_now_ms example_now
                        "POST" "api/v1/items" (Some body_ba)
     = Some HmacValidator.ok.
Proof. repeat split; vm_compute; reflexivity. Qed.

(** ** Signing, then validating: the general shape *)

Lemma transmit_headers (method path : string) (r : Hmac.HmacResult) :
  HmacValidator.validateHeaders (transmit method path r) = HmacValidator.ok
  /\ HmacValidator.header "X-BFF-Id" (HmacValidator.headers (transmit method path r))
     = Some (Hmac.X_BFF_Id r)
  /\ HmacValidator.header "X-BFF-Timestamp" (HmacValidator.headers (transmit method path r))
     = Some (Hmac.X_BFF_Timestamp r)
  /\ HmacValidator.header "X-BFF-Signature" (HmacValidator.headers (transmit method path r))
     = Some (Hmac.X_BFF_Signature r).
Proof. repeat split. Qed.

(** A request signed by the gateway for a method and a path that the
    framework reads back as they were signed: when the two services share
    the identifier and the secret and the clocks are within the tolerance,
    the outcome rests on the two body hashes alone. *)
Lemma validate_transmitted
      (env : ProcessEnv) (cfg : HmacValidator.Config) (now_ms now : Z)
      (method path : string) (body : option json) (r : Hmac.HmacResult) :
  uppercase method = method ->
  Request_path path = path ->
  Hmac.generateSignature env now_ms method path body = Return r ->
  HmacValidator.services_bff_id cfg = Some (Hmac.BFF_ID env) ->
  HmacValidator.services_bff_secret cfg = Some (Hmac.BFF_SECRET env) ->
  Php.empty (Hmac.BFF_SECRET env) = false ->
  0 <= now_ms -> now_ms / 1000 <= Php.PHP_INT_MAX ->
  Z.abs (now - now_ms / 1000) <= 300 ->
  HmacValidator.hashBody (transmit method path r) = Hmac.hashBody body ->
  HmacValidator.validate cfg now (transmit method path r) = HmacValidator.ok.
Proof.
  intros Hup Hpath Hsig Hid Hsecret Hne Hms Hmax Hwin Hhash.
  assert (Hconf : Hmac.BFF_SECRET env <> EmptyString).
  { intros E. rewrite E in Hne. discriminate. }
  rewrite (generateSignature_configured _ _ _ _ _ Hconf) in Hsig.
  injection Hsig as Hr.
  destruct (transmit_headers method path r) as (Hh & Hi & Ht & Hs).
  unfold HmacValidator.validate. rewrite Hh. cbn [HmacValidator.valid HmacValidator.ok negb].
  unfold HmacValidator.validateBffId. rewrite Hi, Hid.
  replace (Hmac.X_BFF_Id r) with (Hmac.BFF_ID env) by (now rewrite <- Hr).
  cbn [HmacValidator.option_eqb]. rewrite String.eqb_refl.
  cbn [HmacValidator.valid HmacValidator.ok negb].
  assert (Hts : Hmac.X_BFF_Timestamp r = dec_of_Z (now_ms / 1000)) by (now rewrite <- Hr).
  assert (Htime : HmacValidator.validateTimestamp now (transmit method path r)
                  = HmacValidator.ok).
  { unfold HmacValidator.validateTimestamp. rewrite Ht, Hts.
    rewrite (timestamp_read_back now_ms Hms Hmax). cbv zeta.
    unfold HmacValidator.TIMESTAMP_TOLERANCE.
    destruct (Z.gtb_spec (Z.abs (now - now_ms / 1000)) 300); [lia | reflexivity]. }
  rewrite Htime. cbn [HmacValidator.valid HmacValidator.ok negb].
  unfold HmacValidator.validateSignature, HmacValidator.generatePayload,
    HmacValidator.header_text.
  rewrite Hsecret, Hne, Hs, Ht, Hhash, Hts. cbv zeta.
  replace (Hmac.X_BFF_Signature r)
    with (hmac_sha256_hex (Hmac.BFF_SECRET env)
            (dec_of_Z (now_ms / 1000) ++ ":" ++ method ++ ":" ++ path ++ ":"
             ++ Hmac.hashBody body)) by (now rewrite <- Hr).
  change (HmacValidator.method (transmit method path r)) with (uppercase method).
  change (HmacValidator.path (transmit method path r)) with (Request_path path).
  rewrite Hup, Hpath, String.eqb_refl. reflexivity.
Qed.

(** A signature that is not the expected one is refused with
    [InvalidSignature], whatever else the request holds, once the first
    three stages have passed and the secret is configured. *)
Lemma validate_other_signature
      (cfg : HmacValidator.Config) (now : Z) (request : HmacValidator.Request)
      (secret : string) :
  HmacValidator.validateHeaders request = HmacValidator.ok ->
  HmacValidator.validateBffId cfg request = HmacValidator.ok ->
  HmacValidator.validateTimestamp now request = HmacValidator.ok ->
  HmacValidator.services_bff_secret cfg = Some secret ->
  Php.empty secret = false ->
  HmacValidator.header_text "X-BFF-Signature" request
  <> hmac_sha256_hex secret (HmacValidator.generatePayload request) ->
  HmacValidator.validate cfg now request = HmacValidator.InvalidSignature.
Proof.
  intros Hh Hi Ht Hs Hne Hdiff.
  unfold HmacValidator.validate. rewrite Hh, Hi, Ht.
  cbn [HmacValidator.valid HmacValidator.ok negb].
  unfold HmacValidator.validateSignature. rewrite Hs, Hne. cbv zeta.
  destruct (String.eqb_spec (hmac_sha256_hex secret (HmacValidator.generatePayload request))
                            (HmacValidator.header_text "X-BFF-Signature" request)) as [E|E].
  - congruence.
  - reflexivity.
Qed.

(** Once a signed request is accepted, the same request under any other
    signature (one character flipped, say) is refused with
    [InvalidSignature]. *)
Lemma tampered_signature_rejected
      (cfg : HmacValidator.Config) (now : Z) (method path : string)
      (r : Hmac.HmacResult) (signature : string) :
  HmacValidator.validate cfg now (transmit method path r) = HmacValidator.ok ->
  signature <> Hmac.X_BFF_Signature r ->
  HmacValidator.validate cfg now (transmit method path (with_signature r signature))
  = HmacValidator.InvalidSignature.
Proof.
  intros Hok Hdiff.
  unfold HmacValidator.validate in *.
  change (HmacValidator.validateHeaders (transmit method path (with_signature r signature)))
    with HmacValidator.ok.
  change (HmacValidator.validateHeaders (transmit method path r))
    with HmacValidator.ok in Hok.
  cbn [HmacValidator.valid HmacValidator.ok negb] in *.
  change (HmacValidator.validateBffId cfg (transmit method path (with_signature r signature)))
    with (HmacValidator.validateBffId cfg (transmit method path r)).
  destruct (HmacValidator.valid (HmacValidator.validateBffId cfg (transmit method path r)))
    eqn:Eid; [|cbn [negb] in Hok; rewrite Hok in Eid; discriminate].
  cbn [negb] in *.
  change (HmacValidator.validateTimestamp now (transmit method path (with_signature r signature)))
    with (HmacValidator.validateTimestamp now (transmit method path r)).
  destruct (HmacValidator.valid (HmacValidator.validateTimestamp now (transmit method path r)))
    eqn:Ets; [|cbn [negb] in Hok; rewrite Hok in Ets; discriminate].
  cbn [negb] in *.
  change (HmacValidator.generatePayload (transmit method path (with_signature r signature)))
    with (HmacValidator.generatePayload (transmit method path r)).
  unfold HmacValidator.validateSignature in *.
  destruct (HmacValidator.services_bff_secret cfg) as [secret|]; [|discriminate].
  destruct (Php.empty secret); [discriminate|].
  change (HmacValidator.header_text "X-BFF-Signature" (transmit method path r))
    with (Hmac.X_BFF_Signature r) in Hok.
  change (HmacValidator.header_text "X-BFF-Signature"
            (transmit method path (with_signature r signature)))
    with signature.
  cbv zeta in *.
  destruct (String.eqb_spec
              (hmac_sha256_hex secret (HmacValidator.generatePayload (transmit method path r)))
              (Hmac.X_BFF_Signature r)) as [E|E]; [|discriminate].
  destruct (String.eqb_spec
              (hmac_sha256_hex secret (HmacValidator.generatePayload (transmit method path r)))
              signature) as [E'|E']; [congruence | reflexivity].
Qed.


(** ** The proxy *)

Lemma validateSegment_message (s : string) (e : exn) :
  Route.validateSegment s = Throw e ->
  exists msg, In msg path_messages /\ e = BffException INVALID_SIGNATURE msg.
Proof.
  unfold Route.validateSegment, path_messages.
  repeat match goal with |- context [if ?b then _ else _] => destruct b end;
    intros H; inversion H; eexists; (split; [|reflexivity]); simpl; auto.
Qed.

Lemma validatePathSegments_message (segments : list string) (e : exn) :
  Route.validatePathSegments segments = Throw e ->
  exists msg, In msg path_messages /\ e = BffException INVALID_SIGNATURE msg.
Proof.
  induction segments as [|s r IH]; simpl; [discriminate|].
  destruct (Route.validateSegment s) as [[]|e'] eqn:E; simpl.
  - exact IH.
  - intros H. inversion H; subst. now apply validateSegment_message with (s := s).
Qed.

Section ProxyFacts.

Variable JSON_parse : string -> option json.
Variable fetch : Route.FetchRequest -> Route.FetchOutcome.
Variable env : ProcessEnv.
Variable now_ms : Z.
Variable request : Route.Inbound.
Variable method : string.
Variable segments : list string.

Lemma prepare_invalid_path (e : exn) :
  Route.validatePathSegments segments = Throw e ->
  Route.prepare JSON_parse env now_ms request method segments = Throw e.
Proof. intros H. unfold Route.prepare. rewrite H. reflexivity. Qed.

Lemma proxy_invalid_path (e : exn) :
  Route.validatePathSegments segments = Throw e ->
  Route.proxyRequest JSON_parse fetch env now_ms request method segments
  = (Route.on_error e, []).
Proof.
  intros H. unfold Route.proxyRequest. now rewrite (prepare_invalid_path e H).
Qed.

(** Past the path guard, with a base URL that parses and a secret that is
    set: the request is signed, and the credential step decides. *)
Lemma prepare_valid_path (base : Route.URL) :
  Route.validatePathSegments segments = Return tt ->
  Route.parse_URL (Route.LARAVEL_API_URL env) = Some base ->
  Hmac.BFF_SECRET env <> EmptyString ->
  exists (r : Hmac.HmacResult) (laravelUrl : Route.URL),
    Hmac.generateSignature env now_ms method (Route.laravelPath_of segments)
                           (Some (Route.read_body JSON_parse request))
    = Return r
    /\ Route.host laravelUrl = Route.host base
    /\ Route.prepare JSON_parse env now_ms request method segments
       = if Route.present (Route.auth_token request) then
           Return (inl (Route.fetch_options laravelUrl request method
                          (Route.signed_headers r
                           ++ [("Authorization", Route.bearer (Route.auth_token request))])%list
                          r))
         else if negb (Route.isPublicRoute (Route.laravelPath_of segments))
         then Return (inr Route.unauthorized)
         else Return (inl (Route.fetch_options laravelUrl request method
                             (Route.signed_headers r) r)).
Proof.
  intros Hpath Hbase Hsecret.
  pose proof (generateSignature_configured env now_ms method (Route.laravelPath_of segments)
                (Some (Route.read_body JSON_parse request)) Hsecret) as Hsig.
  eexists. eexists. split; [exact Hsig|].
  unfold Route.prepare. rewrite Hpath.
  unfold Route.new_URL_relative, Route.new_URL. rewrite Hbase.
  cbn [bind Route.host]. rewrite String.eqb_refl. cbn [negb].
  rewrite Hsig. cbn [bind].
  split; cycle 1.
  - reflexivity.
  - reflexivity.
Qed.

(** Whatever the upstream does, a request handed to [fetch] is the only
    call made. *)
Lemma proxy_calls_once (options : Route.FetchRequest) :
  Route.prepare JSON_parse env now_ms request method segments = Return (inl options) ->
  snd (Route.proxyRequest JSON_parse fetch env now_ms request method segments) = [options].
Proof.
  intros H. unfold Route.proxyRequest. rewrite H.
  destruct (fetch options) as [response| |e]; try reflexivity.
  now destruct (Route.relay JSON_parse env response).
Qed.

Lemma proxy_relays (options : Route.FetchRequest) (response : Route.UpstreamResponse) :
  Route.prepare JSON_parse env now_ms request method segments = Return (inl options) ->
  fetch options = Route.Responded response ->
  Route.proxyRequest JSON_parse fetch env now_ms request method segments
  = (match Route.relay JSON_parse env response with
     | Return nextResponse => nextResponse
     | Throw e => Route.on_error (Route.inner_catch e)
     end, [options]).
Proof.
  intros H Hf. unfold Route.proxyRequest. rewrite H, Hf.
  now destruct (Route.relay JSON_parse env response).
Qed.

(** A response is built around the body for a status from 200 to 599 with
    which a body goes. *)
Lemma relay_built (response : Route.UpstreamResponse) :
  200 <= Route.upstream_status response <= 599 ->
  Route.null_body_status (Route.upstream_status response) = false ->
  Route.relay JSON_parse env response
  = Return
      {| Route.status := Route.upstream_status response;
         Route.statusText := Route.upstream_statusText response;
         Route.response_headers :=
           if has_key "content-type" (Route.relayed_headers (Route.upstream_headers response))
           then Route.relayed_headers (Route.upstream_headers response)
           else (Route.relayed_headers (Route.upstream_headers response) ++ [text_plain])%list;
         Route.response_body := Route.upstream_body response;
         Route.cookies :=
           Route.token_cookies JSON_parse env (Route.answered_ms response)
                               (Route.upstream_body response) |}.
Proof.
  intros Hst Hnull. unfold Route.relay, Route.new_NextResponse. cbv zeta.
  rewrite Hnull.
  destruct (Z.ltb_spec (Route.upstream_status response) 200) as [Hlt|_]; [lia|].
  destruct (Z.ltb_spec 599 (Route.upstream_status response)) as [Hgt|_]; [lia|].
  reflexivity.
Qed.

(** For any other status the constructor throws, and the proxy answers
    with its generic error. *)
Lemma relay_refused (response : Route.UpstreamResponse) :
  Route.upstream_status response < 200 \/ 599 < Route.upstream_status response
  \/ Route.null_body_status (Route.upstream_status response) = true ->
  exists e,
    Route.relay JSON_parse env response = Throw e
    /\ Route.on_error (Route.inner_catch e) = failed_to_proxy.
Proof.
  intros Hst. unfold Route.relay, Route.new_NextResponse. cbv zeta.
  destruct (Z.ltb_spec (Route.upstream_status response) 200) as [Hlt|Hge];
    [eexists; split; reflexivity|].
  destruct (Z.ltb_spec 599 (Route.upstream_status response)) as [Hgt|Hle];
    [eexists; split; reflexivity|].
  destruct Hst as [Hst|[Hst|Hst]]; try lia.
  rewrite Hst. eexists; split; reflexivity.
Qed.

End ProxyFacts.

Lemma null_body_status_spec (st : Z) :
  200 <= st ->
  (Route.null_body_status st = true <-> st = 204 \/ st = 205 \/ st = 304).
Proof.
  intros Hst. unfold Route.null_body_status.
  rewrite !orb_true_iff, !Z.eqb_eq. lia.
Qed.

(** The first segment that the class refuses decides the exception, by
    the first of the four checks that it fails. *)
Lemma validateSegment_check (s : string) :
  ~ matches_class s ->
  exists msg,
    Route.validateSegment s = Throw (BffException INVALID_SIGNATURE msg)
    /\ (s = EmptyString -> msg = "Invalid path: empty segment")
    /\ (s = "." \/ s = ".." -> msg = "Invalid path: traversal not allowed")
    /\ ((exists a b, s = a ++ "://" ++ b) \/ (exists b, s = "//" ++ b) ->
        msg = "Invalid path: absolute URLs not allowed")
    /\ (s <> EmptyString -> s <> "." -> s <> ".." ->
        (forall a b, s <> a ++ "://" ++ b) -> (forall b, s <> "//" ++ b) ->
        msg = "Invalid path: forbidden characters").
Proof.
  intros Hn. unfold Route.validateSegment.
  destruct (String.eqb_spec s EmptyString) as [->|Hne].
  { eexists. split; [reflexivity|]. repeat split; try reflexivity.
    - intros [H|H]; discriminate.
    - intros [(a & b & H)|(b & H)]; [destruct a|]; discriminate.
    - congruence. }
  destruct (String.eqb_spec s "..") as [->|Hdd].
  { eexists. split; [reflexivity|]. repeat split; try reflexivity.
    - discriminate.
    - intros [(a & b & H)|(b & H)]; [|discriminate].
      destruct a as [|x [|y [|z a]]]; discriminate.
    - congruence. }
  destruct (String.eqb_spec s ".") as [->|Hd].
  { eexists. split; [reflexivity|]. repeat split; try reflexivity.
    - discriminate.
    - intros [(a & b & H)|(b & H)]; [|discriminate].
      destruct a as [|x [|y a]]; discriminate.
    - congruence. }
  cbn [orb].
  destruct (includes "://" s) eqn:Ei.
  { apply includes_spec in Ei. eexists. split; [reflexivity|]. repeat split; try reflexivity.
    - congruence.
    - intros [H|H]; congruence.
    - intros _ _ _ H _. destruct Ei as (a & b & E). now destruct (H a b). }
  destruct (startsWith s "//") eqn:Es.
  { apply prefix_spec in Es. eexists. split; [reflexivity|]. repeat split; try reflexivity.
    - congruence.
    - intros [H|H]; congruence.
    - intros _ _ _ _ H. destruct Es as (b & E). now destruct (H b). }
  cbn [orb].
  destruct (Route.SAFE_PATH_SEGMENT s) eqn:E.
  { exfalso. apply Hn. now apply SAFE_PATH_SEGMENT_spec. }
  cbn [negb]. eexists. split; [reflexivity|]. repeat split; try reflexivity.
  - congruence.
  - intros [H|H]; congruence.
  - intros [(a & b & H)|(b & H)].
    + assert (includes "://" s = true) by (apply includes_spec; eauto). congruence.
    + assert (startsWith s "//" = true) by (apply prefix_spec; eauto). congruence.
Qed.

Lemma validatePathSegments_first (good : list string) (s : string) (rest : list string) :
  Forall matches_class good ->
  Route.validatePathSegments (good ++ s :: rest)%list
  = (_ <- Route.validateSegment s ;; Route.validatePathSegments rest).
Proof.
  induction 1 as [|g good Hg Hgood IH]; [reflexivity|].
  cbn [app Route.validatePathSegments].
  apply validateSegment_accepts in Hg. rewrite Hg. exact IH.
Qed.

(** C4, as the code has it: a request that fails the path guard, or that
    holds no credential on a route that needs one (the path guard passed,
    the base URL and the secret set), reaches no upstream.  The first is
    answered 500 with the code [INVALID_SIGNATURE] and, as its error, the
    message of the exception that the guard threw, which is the message of
    the first check that the first refused segment fails (empty segment,
    traversal, absolute URL, forbidden characters); the second is answered
    401 with the message [No auth token found]. *)
Theorem proxy_failures_are_local
        (JSON_parse : string -> option json)
        (fetch : Route.FetchRequest -> Route.FetchOutcome)
        (env : ProcessEnv) (now_ms : Z) (request : Route.Inbound)
        (method : string) (segments : list string) :
  (forall e, Route.validatePathSegments segments = Throw e ->
     exists msg,
       e = BffException INVALID_SIGNATURE msg
       /\ In msg path_messages
       /\ Route.proxyRequest JSON_parse fetch env now_ms request method segments
          = (Route.NextResponse_json
               (JObj [("error", JStr msg); ("code", JStr "INVALID_SIGNATURE")]) 500,
             []))
  /\ (forall good s rest,
        segments = (good ++ s :: rest)%list ->
        Forall matches_class good ->
        ~ matches_class s ->
        exists msg,
          Route.proxyRequest JSON_parse fetch env now_ms request method segments
          = (Route.NextResponse_json
               (JObj [("error", JStr msg); ("code", JStr "INVALID_SIGNATURE")]) 500,
             [])
          /\ (s = EmptyString -> msg = "Invalid path: empty segment")
          /\ (s = "." \/ s = ".." -> msg = "Invalid path: traversal not allowed")
          /\ ((exists a b, s = a ++ "://" ++ b) \/ (exists b, s = "//" ++ b) ->
              msg = "Invalid path: absolute URLs not allowed")
          /\ (s <> EmptyString -> s <> "." -> s <> ".." ->
              (forall a b, s <> a ++ "://" ++ b) -> (forall b, s <> "//" ++ b) ->
              msg = "Invalid path: forbidden characters"))
  /\ (forall base,
        Route.validatePathSegments segments = Return tt ->
        Route.parse_URL (Route.LARAVEL_API_URL env) = Some base ->
        Hmac.BFF_SECRET env <> EmptyString ->
        Route.present (Route.auth_token request) = false ->
        Route.isPublicRoute (Route.laravelPath_of segments) = false ->
        Route.proxyRequest JSON_parse fetch env now_ms request method segments
        = (Route.NextResponse_json
             (JObj [("error", JStr "Unauthorized"); ("message", JStr "No auth token found")])
             401,
           [])).
Proof.
  split; [|split].
  - intros e He. destruct (validatePathSegments_message segments e He) as (msg & Hin & ->).
    exists msg. split; [reflexivity|]. split; [exact Hin|].
    now rewrite (proxy_invalid_path JSON_parse fetch env now_ms request method segments _ He).
  - intros good s rest -> Hgood Hs.
    destruct (validateSegment_check s Hs) as (msg & Hthrow & Hmsg).
    exists msg. split; [|exact Hmsg].
    rewrite (proxy_invalid_path JSON_parse fetch env now_ms request method _
               (BffException INVALID_SIGNATURE msg)); [reflexivity|].
    rewrite (validatePathSegments_first good s rest Hgood), Hthrow. reflexivity.
  - intros base Hpath Hbase Hsecret Htoken Hroute.
    destruct (prepare_valid_path JSON_parse env now_ms request method segments base
                Hpath Hbase Hsecret) as (r & u & _ & _ & Hprep).
    rewrite Htoken, Hroute in Hprep. cbn [negb] in Hprep.
    unfold Route.proxyRequest. rewrite Hprep. reflexivity.
Qed.

Lemma proxy_failures_are_local_witness :
  example_proxy EmptyString None ["users"; "42"]
  = (Route.NextResponse_json
       (JObj [("error", JStr "Unauthorized"); ("message", JStr "No auth token found")]) 401,
     [])
  /\ exists msg,
       example_proxy EmptyString None ["users"; ".."]
       = (Route.NextResponse_json
            (JObj [("error", JStr msg); ("code", JStr "INVALID_SIGNATURE")]) 500,
          [])
       /\ msg = "Invalid path: traversal not allowed".
Proof.
  unfold example_proxy. split.
  - eapply (proj2 (proj2 (proxy_failures_are_local JSON_parse (example_fetch EmptyString)
                            example_env example_now_ms (example_inbound None) "POST"
                            ["users"; "42"]))).
    + reflexivity.
    + reflexivity.
    + discriminate.
    + reflexivity.
    + reflexivity.
  - destruct (proj1 (proj2 (proxy_failures_are_local JSON_parse (example_fetch EmptyString)
                              example_env example_now_ms (example_inbound None) "POST"
                              ["users"; ".."]))
                ["users"] ".." [] eq_refl) as (msg & Hout & _ & Hdots & _).
    + constructor; [|constructor]. split; [discriminate|].
      repeat constructor; cbv; intuition congruence.
    + intros [_ H]. apply Forall_forall with (x := "."%char) in H; [|simpl; auto].
      cbv in H. intuition congruence.
    + exists msg. split; [exact Hout|]. apply Hdots. now right.
Defined.

(** C4 as stated fails: two requests refused by the path guard get two
    different bodies, each naming the check that failed. *)
Lemma proxy_error_names_the_check :
  Route.response_body (fst (example_proxy EmptyString None [".."]))
  = txt "{'error':'Invalid path: traversal not allowed','code':'INVALID_SIGNATURE'}"
  /\ Route.response_body (fst (example_proxy EmptyString None [EmptyString]))
     = txt "{'error':'Invalid path: empty segment','code':'INVALID_SIGNATURE'}"
  /\ Route.response_body (fst (example_proxy EmptyString None ["a b"]))
     = txt "{'error':'Invalid path: forbidden characters','code':'INVALID_SIGNATURE'}"
  /\ Route.response_body (fst (example_proxy EmptyString None [".."]))
     <> Route.response_body (fst (example_proxy EmptyString None [EmptyString])).
Proof. repeat split; try (vm_compute; reflexivity). vm_compute. discriminate. Qed.

(** C8, as the code has it.  For a request that passes the path guard, with
    the base URL and the secret set: with no [auth_token] cookie, or an
    empty one, a path that starts with none of the public routes is answered
    401 with no upstream call, and a path that starts with one is forwarded
    once, with the HMAC headers and no [Authorization] header; with a
    non-empty cookie the request is forwarded once with the header
    [Authorization: Bearer] followed by its value. *)
Theorem credential_step
        (JSON_parse : string -> option json)
        (fetch : Route.FetchRequest -> Route.FetchOutcome)
        (env : ProcessEnv) (now_ms : Z) (request : Route.Inbound)
        (method : string) (segments : list string) (base : Route.URL) :
  Route.validatePathSegments segments = Return tt ->
  Route.parse_URL (Route.LARAVEL_API_URL env) = Some base ->
  Hmac.BFF_SECRET env <> EmptyString ->
  exists r,
    Hmac.generateSignature env now_ms method (Route.laravelPath_of segments)
                           (Some (Route.read_body JSON_parse request))
    = Return r
    /\ (Route.present (Route.auth_token request) = false ->
        Route.isPublicRoute (Route.laravelPath_of segments) = false ->
        Route.proxyRequest JSON_parse fetch env now_ms request method segments
        = (Route.unauthorized, [])
        /\ Route.status Route.unauthorized = 401)
    /\ (Route.present (Route.auth_token request) = false ->
        Route.isPublicRoute (Route.laravelPath_of segments) = true ->
        exists options,
          snd (Route.proxyRequest JSON_parse fetch env now_ms request method segments)
          = [options]
          /\ Route.fetch_headers options = Route.signed_headers r
          /\ lookup "Authorization" (Route.fetch_headers options) = None
          /\ lookup "X-BFF-Id" (Route.fetch_headers options) = Some (Hmac.X_BFF_Id r)
          /\ lookup "X-BFF-Timestamp" (Route.fetch_headers options)
             = Some (Hmac.X_BFF_Timestamp r)
          /\ lookup "X-BFF-Signature" (Route.fetch_headers options)
             = Some (Hmac.X_BFF_Signature r)
          /\ Route.fetch_body options = Hmac.normalizedBody r
          /\ Route.host (Route.url options) = Route.host base)
    /\ (forall token,
          Route.auth_token request = Some token -> token <> EmptyString ->
          exists options,
            snd (Route.proxyRequest JSON_parse fetch env now_ms request method segments)
            = [options]
            /\ lookup "Authorization" (Route.fetch_headers options)
               = Some ("Bearer " ++ token)
            /\ lookup "X-BFF-Id" (Route.fetch_headers options) = Some (Hmac.X_BFF_Id r)
            /\ lookup "X-BFF-Timestamp" (Route.fetch_headers options)
               = Some (Hmac.X_BFF_Timestamp r)
            /\ lookup "X-BFF-Signature" (Route.fetch_headers options)
               = Some (Hmac.X_BFF_Signature r)
            /\ Route.fetch_body options = Hmac.normalizedBody r
            /\ Route.host (Route.url options) = Route.host base).
Proof.
  intros Hpath Hbase Hsecret.
  destruct (prepare_valid_path JSON_parse env now_ms request method segments base
              Hpath Hbase Hsecret) as (r & u & Hsig & Hhost & Hprep).
  exists r. split; [exact Hsig|]. split; [|split].
  - intros Htoken Hroute. rewrite Htoken, Hroute in Hprep. cbn [negb] in Hprep.
    unfold Route.proxyRequest. rewrite Hprep. split; reflexivity.
  - intros Htoken Hroute. rewrite Htoken, Hroute in Hprep. cbn [negb] in Hprep.
    eexists. split; [apply proxy_calls_once; exact Hprep|].
    repeat split. exact Hhost.
  - intros token Htoken Hne.
    assert (Hpresent : Route.present (Route.auth_token request) = true).
    { rewrite Htoken. simpl. apply String.eqb_neq in Hne. now rewrite Hne. }
    rewrite Hpresent, Htoken in Hprep.
    eexists. split; [apply proxy_calls_once; exact Hprep|].
    repeat split. exact Hhost.
Qed.

Lemma credential_step_witness :
  exists options,
    snd (example_proxy EmptyString (Some "tok123") ["users"; "42"]) = [options]
    /\ lookup "Authorization" (Route.fetch_headers options) = Some "Bearer tok123".
Proof.
  destruct (credential_step JSON_parse (example_fetch EmptyString) example_env example_now_ms
              (example_inbound (Some "tok123")) "POST" ["users"; "42"]
              example_base eq_refl eq_refl ltac:(discriminate))
    as (r & _ & _ & _ & H).
  destruct (H "tok123" eq_refl ltac:(discriminate)) as (options & Hcalls & Hauth & _).
  exists options. split; [exact Hcalls | exact Hauth].
Defined.

(** C8 as stated fails: an [auth_token] cookie that is present and empty is
    not attached (the request is answered 401 with no upstream call); and a
    request with no cookie, for a path outside the public routes, is
    answered 500 when the path guard refuses the path or when no secret is
    set. *)
Lemma empty_cookie_is_no_credential :
  example_proxy EmptyString (Some EmptyString) ["users"; "42"] = (Route.unauthorized, [])
  /\ Route.status (fst (example_proxy EmptyString None ["users"; ".."])) = 500
  /\ snd (example_proxy EmptyString None ["users"; ".."]) = []
  /\ Route.status
       (fst (Route.proxyRequest JSON_parse (example_fetch EmptyString) example_env_no_secret
               example_now_ms (example_inbound None) "POST" ["users"; "42"])) = 500.
Proof. repeat split; vm_compute; reflexivity. Qed.

(** ** Relaying the response *)









(** ** Other outcomes of the proxy *)

(** Without a secret the proxy signs nothing and forwards nothing: the
    request is answered 500 with the generic message. *)
Lemma proxy_fails_closed
      (JSON_parse : string -> option json)
      (fetch : Route.FetchRequest -> Route.FetchOutcome)
      (env : ProcessEnv) (now_ms : Z) (request : Route.Inbound)
      (method : string) (segments : list string) (base : Route.URL) :
  Route.validatePathSegments segments = Return tt ->
  Route.parse_URL (Route.LARAVEL_API_URL env) = Some base ->
  Hmac.BFF_SECRET env = EmptyString ->
  Route.proxyRequest JSON_parse fetch env now_ms request method segments
  = (Route.NextResponse_json
       (JObj [("error", JStr "Internal server error");
              ("message", JStr "Failed to proxy request")]) 500,
     []).
Proof.
  intros Hpath Hbase Hsecret.
  unfold Route.proxyRequest, Route.prepare. rewrite Hpath.
  unfold Route.new_URL_relative, Route.new_URL. rewrite Hbase.
  cbn [bind Route.host]. rewrite String.eqb_refl. cbn [negb].
  rewrite (generateSignature_unconfigured env now_ms method _ _ Hsecret).
  reflexivity.
Qed.

Lemma proxy_fails_closed_witness :
  Route.status
    (fst (Route.proxyRequest JSON_parse (example_fetch EmptyString) example_env_no_secret
            example_now_ms (example_inbound (Some "tok123")) "POST" ["users"])) = 500.
Proof.
  rewrite (proxy_fails_closed JSON_parse (example_fetch EmptyString) example_env_no_secret
             example_now_ms (example_inbound (Some "tok123")) "POST" ["users"] example_base
             eq_refl eq_refl eq_refl).
  reflexivity.
Defined.

(** A forward that is aborted when the timer fires, or that fails with an
    error named [AbortError], is answered 500 with the code [TIMEOUT]; a
    failure of [fetch] under any other name gets the generic message. *)
Lemma proxy_timeout
      (JSON_parse : string -> option json)
      (fetch : Route.FetchRequest -> Route.FetchOutcome)
      (env : ProcessEnv) (now_ms : Z) (request : Route.Inbound)
      (method : string) (segments : list string) (options : Route.FetchRequest) :
  Route.prepare JSON_parse env now_ms request method segments = Return (inl options) ->
  (fetch options = Route.Aborted
   \/ (exists message, fetch options = Route.Failed (Error "AbortError" message)) ->
   Route.proxyRequest JSON_parse fetch env now_ms request method segments
   = (Route.NextResponse_json
        (JObj [("error", JStr "Request timeout"); ("code", JStr "TIMEOUT")]) 500,
      [options]))
  /\ (forall name message,
        fetch options = Route.Failed (Error name message) ->
        name <> "AbortError" ->
        Route.proxyRequest JSON_parse fetch env now_ms request method segments
        = (Route.NextResponse_json
             (JObj [("error", JStr "Internal server error");
                    ("message", JStr "Failed to proxy request")]) 500,
           [options])).
Proof.
  intros Hprep. unfold Route.proxyRequest. rewrite Hprep. split.
  - intros [->|[message ->]]; reflexivity.
  - intros name message -> Hname. unfold Route.inner_catch.
    apply String.eqb_neq in Hname. rewrite Hname. reflexivity.
Qed.

Lemma proxy_timeout_witness :
  Route.response_body
    (fst (Route.proxyRequest JSON_parse (fun _ => Route.Aborted) example_env example_now_ms
            (example_inbound (Some "tok123")) "POST" ["users"]))
  = txt "{'error':'Request timeout','code':'TIMEOUT'}".
Proof.
  edestruct (proxy_timeout JSON_parse (fun _ => Route.Aborted) example_env example_now_ms
               (example_inbound (Some "tok123")) "POST" ["users"]) as [H _].
  - vm_compute. reflexivity.
  - rewrite (H (or_introl eq_refl)). vm_compute. reflexivity.
Defined.

Lemma tampered_signature_rejected_witness :
  exists r,
    Hmac.generateSignature example_env example_now_ms "POST" "api/v1/items" (Some body_ba)
    = Return r
    /\ HmacValidator.validate example_config example_now
         (transmit "POST" "api/v1/items" (with_signature r "00"))
       = HmacValidator.InvalidSignature.
Proof.
  eexists. split.
  - apply generateSignature_configured. discriminate.
  - apply tampered_signature_rejected.
    + vm_compute. reflexivity.
    + vm_compute. discriminate.
Defined.


(** ** The validator as a whole *)

Lemma validateHeaders_ok_inv (request : HmacValidator.Request) :
  HmacValidator.validateHeaders request = HmacValidator.ok <->
  exists id t s,
    HmacValidator.header "X-BFF-Id" (HmacValidator.headers request) = Some id
    /\ HmacValidator.header "X-BFF-Timestamp" (HmacValidator.headers request) = Some t
    /\ HmacValidator.header "X-BFF-Signature" (HmacValidator.headers request) = Some s.
Proof.
  unfold HmacValidator.validateHeaders, HmacValidator.requiredHeaders, HmacValidator.hasHeader.
  cbn [filter].
  destruct (HmacValidator.header "X-BFF-Id" (HmacValidator.headers request)) as [id|];
    destruct (HmacValidator.header "X-BFF-Timestamp" (HmacValidator.headers request)) as [t|];
    destruct (HmacValidator.header "X-BFF-Signature" (HmacValidator.headers request)) as [s|];
    cbn [negb]; split; try discriminate;
    try (intros (? & ? & ? & ? & ? & ?); discriminate).
  - intros _. now exists id, t, s.
  - reflexivity.
Qed.

Lemma validateHeaders_valid (request : HmacValidator.Request) :
  HmacValidator.valid (HmacValidator.validateHeaders request) = true ->
  HmacValidator.validateHeaders request = HmacValidator.ok.
Proof.
  unfold HmacValidator.validateHeaders.
  destruct (filter _ _); [reflexivity | discriminate].
Qed.

Lemma validate_ok_inv (cfg : HmacValidator.Config) (now : Z) (request : HmacValidator.Request) :
  HmacValidator.validate cfg now request = HmacValidator.ok <->
  exists id t s secret,
    HmacValidator.header "X-BFF-Id" (HmacValidator.headers request) = Some id
    /\ HmacValidator.header "X-BFF-Timestamp" (HmacValidator.headers request) = Some t
    /\ HmacValidator.header "X-BFF-Signature" (HmacValidator.headers request) = Some s
    /\ HmacValidator.services_bff_id cfg = Some id
    /\ Z.abs (now - Php.intval t) <= 300
    /\ HmacValidator.services_bff_secret cfg = Some secret
    /\ secret <> EmptyString /\ secret <> "0"
    /\ s = hmac_sha256_hex secret
             (t ++ ":" ++ HmacValidator.method request ++ ":" ++ HmacValidator.path request
                ++ ":" ++ HmacValidator.hashBody request).
Proof.
  unfold HmacValidator.validate. cbv zeta.
  destruct (HmacValidator.valid (HmacValidator.validateHeaders request)) eqn:Eh; cbn [negb].
  2:{ split.
      - intros H. rewrite H in Eh. discriminate.
      - intros (id & t & s & secret & Hi & Ht & Hs & _).
        assert (Hok : HmacValidator.validateHeaders request = HmacValidator.ok).
        { apply validateHeaders_ok_inv. now exists id, t, s. }
        rewrite Hok in Eh. discriminate. }
  apply validateHeaders_valid in Eh. apply validateHeaders_ok_inv in Eh.
  destruct Eh as (id & t & s & Hi & Ht & Hs).
  unfold HmacValidator.validateBffId, HmacValidator.validateTimestamp,
    HmacValidator.validateSignature, HmacValidator.generatePayload,
    HmacValidator.header_text, HmacValidator.TIMESTAMP_TOLERANCE.
  rewrite Hi, Ht, Hs. cbv zeta.
  destruct (HmacValidator.services_bff_id cfg) as [id'|]; cbn [HmacValidator.option_eqb].
  2:{ cbn [negb HmacValidator.valid HmacValidator.failure].
      split; [discriminate|]. intros (? & ? & ? & ? & _ & _ & _ & ? & _). discriminate. }
  destruct (String.eqb_spec id id') as [->|Hne]; cbn [negb HmacValidator.valid HmacValidator.ok
                                                    HmacValidator.failure].
  2:{ split; [discriminate|].
      intros (? & ? & ? & ? & E1 & _ & _ & E2 & _). congruence. }
  destruct (Z.gtb_spec (Z.abs (now - Php.intval t)) 300) as [Hgt|Hle];
    cbn [negb HmacValidator.valid HmacValidator.ok HmacValidator.failure].
  { split; [discriminate|].
    intros (? & t' & ? & ? & _ & E1 & _ & _ & E2 & _).
    assert (t' = t) by congruence. subst. lia. }
  destruct (HmacValidator.services_bff_secret cfg) as [secret|].
  2:{ split; [discriminate|]. intros (? & ? & ? & ? & _ & _ & _ & _ & _ & ? & _). discriminate. }
  unfold Php.empty.
  destruct (String.eqb_spec secret EmptyString) as [->|Hn1]; cbn [orb].
  { split; [discriminate|].
    intros (? & ? & ? & ? & _ & _ & _ & _ & _ & E & Hn & _). congruence. }
  destruct (String.eqb_spec secret "0") as [->|Hn2].
  { split; [discriminate|].
    intros (? & ? & ? & ? & _ & _ & _ & _ & _ & E & _ & Hn & _). congruence. }
  match goal with |- context [String.eqb ?a ?b] => destruct (String.eqb_spec a b) as [E|E] end;
    cbn [negb].
  - split; [|reflexivity]. intros _.
    exists id', t, s, secret. repeat split; auto.
  - split; [discriminate|].
    intros (? & t' & s' & secret' & _ & E1 & E2 & _ & _ & E3 & _ & _ & E4).
    exfalso. apply E. congruence.
Qed.

Lemma validate_cases (cfg : HmacValidator.Config) (now : Z) (request : HmacValidator.Request) :
  HmacValidator.validate cfg now request = HmacValidator.ok
  \/ exists msg,
       HmacValidator.validate cfg now request = HmacValidator.failure msg
       /\ (String.prefix "Missing required headers: " msg = true
           \/ msg = "Invalid BFF ID" \/ msg = "Timestamp validation failed"
           \/ msg = "BFF authentication misconfigured" \/ msg = "Invalid signature").
Proof.
  assert (Hh : HmacValidator.validateHeaders request = HmacValidator.ok
               \/ exists msg, HmacValidator.validateHeaders request = HmacValidator.failure msg
                              /\ String.prefix "Missing required headers: " msg = true).
  { unfold HmacValidator.validateHeaders. cbv zeta.
    destruct (filter _ HmacValidator.requiredHeaders); [now left|].
    right. eexists. split; [reflexivity|].
    generalize (String.concat ", " (s :: l)). intros x. cbn. repeat rewrite Ascii.eqb_refl. now destruct x. }
  unfold HmacValidator.validate. cbv zeta.
  destruct Hh as [Hh | (msg & Hh & Hp)]; rewrite Hh;
    cbn [negb HmacValidator.valid HmacValidator.ok HmacValidator.failure].
  2:{ right. exists msg. split; [reflexivity|]. now left. }
  unfold HmacValidator.validateBffId. cbv zeta.
  destruct (HmacValidator.option_eqb _ _);
    cbn [negb HmacValidator.valid HmacValidator.ok HmacValidator.failure].
  2:{ right. eexists. split; [reflexivity|]. auto. }
  unfold HmacValidator.validateTimestamp. cbv zeta.
  destruct (_ >? _);
    cbn [negb HmacValidator.valid HmacValidator.ok HmacValidator.failure].
  { right. eexists. split; [reflexivity|]. auto. }
  unfold HmacValidator.validateSignature. cbv zeta.
  destruct (HmacValidator.services_bff_secret cfg) as [secret|].
  2:{ right. eexists. split; [reflexivity|]. auto 6. }
  destruct (Php.empty secret).
  { right. eexists. split; [reflexivity|]. auto 6. }
  destruct (String.eqb _ _); cbn [negb].
  - now left.
  - right. eexists. split; [reflexivity|]. auto 6.
Qed.

(** The validator accepts a request exactly when the three headers are
    present, the identifier is the configured one, the number read from the
    timestamp header is within 300 seconds of the clock, a secret is
    configured (neither empty nor the string [0]) and the signature is the
    HMAC under it of [timestamp:method:path:hash]; every other request is
    refused with one of five messages. *)
Theorem validate_accepts_exactly
        (cfg : HmacValidator.Config) (now : Z) (request : HmacValidator.Request) :
  (HmacValidator.validate cfg now request = HmacValidator.ok <->
   exists id t s secret,
     HmacValidator.header "X-BFF-Id" (HmacValidator.headers request) = Some id
     /\ HmacValidator.header "X-BFF-Timestamp" (HmacValidator.headers request) = Some t
     /\ HmacValidator.header "X-BFF-Signature" (HmacValidator.headers request) = Some s
     /\ HmacValidator.services_bff_id cfg = Some id
     /\ Z.abs (now - Php.intval t) <= 300
     /\ HmacValidator.services_bff_secret cfg = Some secret
     /\ secret <> EmptyString /\ secret <> "0"
     /\ s = hmac_sha256_hex secret
              (t ++ ":" ++ HmacValidator.method request ++ ":" ++ HmacValidator.path request
                 ++ ":" ++ HmacValidator.hashBody request))
  /\ (HmacValidator.validate cfg now request = HmacValidator.ok
      \/ exists msg,
           HmacValidator.validate cfg now request = HmacValidator.failure msg
           /\ (String.prefix "Missing required headers: " msg = true
               \/ msg = "Invalid BFF ID" \/ msg = "Timestamp validation failed"
               \/ msg = "BFF authentication misconfigured" \/ msg = "Invalid signature")).
Proof.
  split; [apply validate_ok_inv | apply validate_cases].
Qed.

(** There is no nonce: a request that was accepted is accepted again at
    any later (or earlier) time within 300 seconds of its timestamp, and
    refused with [TimestampExpired] outside of it. *)
Theorem accepted_request_replays
        (cfg : HmacValidator.Config) (now now' : Z) (request : HmacValidator.Request)
        (t : string) :
  HmacValidator.validate cfg now request = HmacValidator.ok ->
  HmacValidator.header "X-BFF-Timestamp" (HmacValidator.headers request) = Some t ->
  (Z.abs (now' - Php.intval t) <= 300 ->
   HmacValidator.validate cfg now' request = HmacValidator.ok)
  /\ (300 < Z.abs (now' - Php.intval t) ->
      HmacValidator.validate cfg now' request = HmacValidator.TimestampExpired).
Proof.
  intros Hok Ht.
  apply validate_ok_inv in Hok.
  destruct Hok as (id & t' & s & secret & Hi & Ht' & Hs & Hid & Hwin & Hsec & Hn1 & Hn2 & Hsig).
  assert (t' = t) by congruence. subst t'.
  split; intros Hw.
  - apply validate_ok_inv. exists id, t, s, secret. repeat split; auto.
  - unfold HmacValidator.validate. cbv zeta.
    assert (Hh : HmacValidator.validateHeaders request = HmacValidator.ok).
    { apply validateHeaders_ok_inv. now exists id, t, s. }
    rewrite Hh. cbn [negb HmacValidator.valid HmacValidator.ok].
    unfold HmacValidator.validateBffId. rewrite Hi, Hid.
    cbn [HmacValidator.option_eqb]. rewrite String.eqb_refl.
    cbn [negb HmacValidator.valid HmacValidator.ok].
    unfold HmacValidator.validateTimestamp, HmacValidator.TIMESTAMP_TOLERANCE. rewrite Ht.
    cbv zeta.
    destruct (Z.gtb_spec (Z.abs (now' - Php.intval t)) 300) as [_|Hle]; [reflexivity | lia].
Qed.

Lemma accepted_request_replays_witness :
  HmacValidator.validate example_config (example_now + 290) signed_example = HmacValidator.ok.
Proof.
  apply (proj1 (accepted_request_replays example_config example_now (example_now + 290)
                  signed_example "1700000000" ltac:(vm_compute; reflexivity) eq_refl)).
  vm_compute. discriminate.
Defined.

(** ** What the proxy sends *)

Lemma validatePathSegments_unit (segments : list string) :
  Route.validatePathSegments segments = Return tt \/
  exists e, Route.validatePathSegments segments = Throw e.
Proof.
  destruct (Route.validatePathSegments segments) as [[]|e]; [now left | right; now exists e].
Qed.

Lemma prepare_call_inv
      (JSON_parse : string -> option json) (env : ProcessEnv) (now_ms : Z)
      (request : Route.Inbound) (method : string) (segments : list string)
      (options : Route.FetchRequest) :
  Route.prepare JSON_parse env now_ms request method segments = Return (inl options) ->
  exists base r,
    Route.validatePathSegments segments = Return tt
    /\ Route.parse_URL (Route.LARAVEL_API_URL env) = Some base
    /\ Hmac.BFF_SECRET env <> EmptyString
    /\ Hmac.generateSignature env now_ms method (Route.laravelPath_of segments)
                              (Some (Route.read_body JSON_parse request)) = Return r
    /\ options
       = Route.fetch_options
           {| Route.protocol := Route.protocol base; Route.host := Route.host base;
              Route.pathname :=
                Route.directory (Route.pathname base) EmptyString EmptyString
                ++ Route.laravelPath_of segments;
              Route.searchParams := [] |}
           request method
           (if Route.present (Route.auth_token request)
            then (Route.signed_headers r
                  ++ [("Authorization", Route.bearer (Route.auth_token request))])%list
            else Route.signed_headers r)
           r
    /\ (Route.present (Route.auth_token request) = true
        \/ Route.isPublicRoute (Route.laravelPath_of segments) = true).
Proof.
  unfold Route.prepare.
  destruct (validatePathSegments_unit segments) as [Hp | (e & Hp)]; rewrite Hp;
    cbn [bind]; [|discriminate].
  unfold Route.new_URL_relative, Route.new_URL.
  destruct (Route.parse_URL (Route.LARAVEL_API_URL env)) as [base|] eqn:Hb;
    cbn [bind Route.host]; [|discriminate].
  rewrite String.eqb_refl. cbn [negb].
  destruct (string_dec (Hmac.BFF_SECRET env) EmptyString) as [Hs|Hs].
  { rewrite (generateSignature_unconfigured _ _ _ _ _ Hs). cbn [bind]. discriminate. }
  rewrite (generateSignature_configured _ _ _ _ _ Hs). cbn [bind].
  intros H. eexists base, _. split; [reflexivity|]. split; [reflexivity|].
  split; [exact Hs|]. split; [reflexivity|].
  destruct (Route.present (Route.auth_token request)).
  - injection H as <-. split; [reflexivity | now left].
  - destruct (Route.isPublicRoute (Route.laravelPath_of segments)); cbn [negb] in H.
    + injection H as <-. split; [reflexivity | now right].
    + discriminate.
Qed.

Lemma proxy_calls_inv
      (JSON_parse : string -> option json)
      (fetch : Route.FetchRequest -> Route.FetchOutcome)
      (env : ProcessEnv) (now_ms : Z) (request : Route.Inbound)
      (method : string) (segments : list string) (options : Route.FetchRequest) :
  In options (snd (Route.proxyRequest JSON_parse fetch env now_ms request method segments)) ->
  Route.prepare JSON_parse env now_ms request method segments = Return (inl options).
Proof.
  unfold Route.proxyRequest.
  destruct (Route.prepare JSON_parse env now_ms request method segments) as [[o|early]|e];
    cbn [snd]; try (intros []).
  assert (Hsnd : snd (match fetch o with
                       | Route.Responded response =>
                           match Route.relay JSON_parse env response with
                           | Return nextResponse => (nextResponse, [o])
                           | Throw e => (Route.on_error (Route.inner_catch e), [o])
                           end
                       | Route.Aborted =>
                           (Route.on_error
                              (Route.inner_catch (Error "AbortError" "This operation was aborted")),
                            [o])
                       | Route.Failed e => (Route.on_error (Route.inner_catch e), [o])
                       end) = [o]).
  { destruct (fetch o) as [response| |e]; try reflexivity.
    now destruct (Route.relay JSON_parse env response). }
  rewrite Hsnd. intros [<-|[]]. reflexivity.
Qed.

Lemma laravelPath_of_eq (segments : list string) :
  Route.laravelPath_of segments = "api/v1/" ++ String.concat "/" segments.
Proof. reflexivity. Qed.

(** A call made by the proxy goes to the configured host, under the
    scheme of the configured URL, to the path [api/v1/] followed by the
    segments, which are all made of class characters; it uses the method
    of the handler, it is the only call, and the caller holds a credential
    or the route is public. *)
Theorem proxy_call_confined
        (JSON_parse : string -> option json)
        (fetch : Route.FetchRequest -> Route.FetchOutcome)
        (env : ProcessEnv) (now_ms : Z) (request : Route.Inbound)
        (method : string) (segments : list string) (options : Route.FetchRequest) :
  In options (snd (Route.proxyRequest JSON_parse fetch env now_ms request method segments)) ->
  exists base,
    Route.parse_URL (Route.LARAVEL_API_URL env) = Some base
    /\ Forall matches_class segments
    /\ Route.protocol (Route.url options) = Route.protocol base
    /\ Route.host (Route.url options) = Route.host base
    /\ Route.pathname (Route.url options)
       = Route.directory (Route.pathname base) EmptyString EmptyString
         ++ "api/v1/" ++ String.concat "/" segments
    /\ Route.fetch_method options = method
    /\ snd (Route.proxyRequest JSON_parse fetch env now_ms request method segments) = [options]
    /\ (Route.present (Route.auth_token request) = true
        \/ Route.isPublicRoute ("api/v1/" ++ String.concat "/" segments) = true).
Proof.
  intros Hin. apply proxy_calls_inv in Hin.
  destruct (prepare_call_inv _ _ _ _ _ _ _ Hin)
    as (base & r & Hpath & Hbase & _ & _ & Hopt & Hcred).
  exists base. split; [exact Hbase|].
  split; [now apply validatePathSegments_accepts|].
  rewrite Hopt. cbn [Route.fetch_options Route.url Route.protocol Route.host Route.pathname
                     Route.fetch_method].
  repeat split; try reflexivity.
  - rewrite <- Hopt. now apply proxy_calls_once.
  - exact Hcred.
Qed.

Lemma proxy_call_confined_witness :
  exists base,
    Route.parse_URL (Route.LARAVEL_API_URL example_env) = Some base
    /\ Route.host (Route.url (hd_call (example_proxy EmptyString (Some "tok123") ["users"; "42"])))
       = Route.host base.
Proof.
  destruct (proxy_call_confined JSON_parse (example_fetch EmptyString) example_env
              example_now_ms (example_inbound (Some "tok123")) "POST" ["users"; "42"]
              (hd_call (example_proxy EmptyString (Some "tok123") ["users"; "42"])))
    as (base & Hb & _ & _ & Hh & _).
  - vm_compute. left. reflexivity.
  - exists base. split; [exact Hb | exact Hh].
Defined.

(** What a call of the proxy carries.  A [GET] or [HEAD] request, a
    request with no JSON content type and a body that does not parse are
    signed and forwarded with no body; any other body is forwarded as its
    canonical text, not as the bytes received.  The three HMAC headers hold
    the identifier, the clock in seconds, and the HMAC of
    [timestamp:method:path:hash] for that body. *)
Theorem proxy_forwarded_body
        (JSON_parse : string -> option json)
        (fetch : Route.FetchRequest -> Route.FetchOutcome)
        (env : ProcessEnv) (now_ms : Z) (request : Route.Inbound)
        (method : string) (segments : list string) (options : Route.FetchRequest) :
  In options (snd (Route.proxyRequest JSON_parse fetch env now_ms request method segments)) ->
  let body := Route.read_body JSON_parse request in
  (Route.request_method request = "GET" \/ Route.request_method request = "HEAD"
   \/ Route.content_type request = None
   \/ (exists c, Route.content_type request = Some c /\ includes "application/json" c = false)
   \/ JSON_parse (Route.body_text request) = None ->
   body = JNull)
  /\ (body = JNull -> Route.fetch_body options = None)
  /\ (body <> JNull ->
      Route.fetch_body options = Some (Js.JSON_stringify (Hmac.sortObjectKeys body)))
  /\ HmacValidator.header "X-BFF-Id" (Route.fetch_headers options) = Some (Hmac.BFF_ID env)
  /\ HmacValidator.header "X-BFF-Timestamp" (Route.fetch_headers options)
     = Some (dec_of_Z (now_ms / 1000))
  /\ HmacValidator.header "X-BFF-Signature" (Route.fetch_headers options)
     = Some (hmac_sha256_hex (Hmac.BFF_SECRET env)
               (dec_of_Z (now_ms / 1000) ++ ":" ++ method ++ ":"
                ++ ("api/v1/" ++ String.concat "/" segments) ++ ":"
                ++ Hmac.hashBody (Some body))).
Proof.
  intros Hin body. apply proxy_calls_inv in Hin.
  destruct (prepare_call_inv _ _ _ _ _ _ _ Hin)
    as (base & r & _ & _ & Hsecret & Hsig & Hopt & _).
  rewrite (generateSignature_configured _ _ _ _ _ Hsecret) in Hsig.
  injection Hsig as Hr. fold body in Hr.
  split.
  { subst body. unfold Route.read_body.
    intros [-> | [-> | [-> | [(c & -> & Hc) | Hp]]]]; try reflexivity.
    - destruct (_ && _); reflexivity.
    - rewrite Hc. destruct (_ && _); reflexivity.
    - rewrite Hp. destruct (_ && _); [|reflexivity].
      destruct (includes _ _); reflexivity. }
  rewrite Hopt. cbn [Route.fetch_options Route.fetch_body Route.fetch_headers].
  rewrite <- Hr. cbn [Hmac.normalizedBody].
  split; [intros ->; reflexivity|].
  split; [intros Hb; destruct body; try reflexivity; congruence|].
  destruct (Route.present (Route.auth_token request)); repeat split.
Qed.

Lemma proxy_forwarded_body_witness :
  Route.fetch_body (hd_call (example_proxy EmptyString (Some "tok123") ["users"; "42"]))
  = Some (txt "{'email':'a@b.io','password':'pw'}").
Proof.
  destruct (proxy_forwarded_body JSON_parse (example_fetch EmptyString) example_env
              example_now_ms (example_inbound (Some "tok123")) "POST" ["users"; "42"]
              (hd_call (example_proxy EmptyString (Some "tok123") ["users"; "42"])))
    as (_ & _ & Hb & _).
  - vm_compute. left. reflexivity.
  - rewrite Hb; [vm_compute; reflexivity | vm_compute; discriminate].
Defined.

(** ** Copying with [set] *)

Lemma filter_other_id (key : string) (ps : list (string * string)) :
  ~ In key (map fst ps) ->
  filter (fun kv => negb (String.eqb (fst kv) key)) ps = ps.
Proof.
  induction ps as [|[k v] ps IH]; simpl; auto.
  intros Hn. destruct (String.eqb_spec k key) as [->|_]; simpl.
  - exfalso. apply Hn. now left.
  - rewrite IH; auto.
Qed.

Lemma params_set_keys (key value : string) (ps : list (string * string)) :
  NoDup (map fst ps) ->
  map fst (Route.params_set key value ps)
  = if in_dec string_dec key (map fst ps) then map fst ps else (map fst ps ++ [key])%list.
Proof.
  induction ps as [|[k v] ps IH]; simpl; intros Hnd.
  - reflexivity.
  - inversion Hnd as [|? ? Hk Hnd']; subst.
    destruct (String.eqb_spec k key) as [->|Hne].
    + simpl. rewrite filter_other_id by exact Hk.
      destruct (string_dec key key); [|congruence].
      reflexivity.
    + simpl. rewrite (IH Hnd').
      destruct (string_dec k key); [congruence|].
      destruct (in_dec string_dec key (map fst ps)); reflexivity.
Qed.

Lemma params_set_NoDup (key value : string) (ps : list (string * string)) :
  NoDup (map fst ps) -> NoDup (map fst (Route.params_set key value ps)).
Proof.
  intros Hnd. rewrite (params_set_keys key value ps Hnd).
  destruct (in_dec string_dec key (map fst ps)) as [_|Hn]; [exact Hnd|].
  apply NoDup_app_remove_l with (l := []) || idtac.
  rewrite <- (rev_involutive (map fst ps ++ [key])). apply NoDup_rev.
  rewrite rev_app_distr. simpl. constructor.
  - rewrite <- in_rev. exact Hn.
  - now apply NoDup_rev.
Qed.

Lemma params_set_In (key value : string) (ps : list (string * string)) (k v : string) :
  NoDup (map fst ps) ->
  In (k, v) (Route.params_set key value ps)
  <-> (k = key /\ v = value) \/ (k <> key /\ In (k, v) ps).
Proof.
  induction ps as [|[k' v'] ps IH]; simpl; intros Hnd.
  - split.
    + intros [H|[]]. injection H as <- <-. now left.
    + intros [[-> ->]|[_ []]]. now left.
  - inversion Hnd as [|? ? Hk Hnd']; subst.
    destruct (String.eqb_spec k' key) as [->|Hne].
    + rewrite filter_other_id by exact Hk. simpl. split.
      * intros [H|H].
        -- injection H as <- <-. now left.
        -- right. split; [|now right].
           intros ->. apply Hk. now apply (in_map fst) in H.
      * intros [[-> ->]|[Hn [H|H]]].
        -- now left.
        -- injection H as E _. congruence.
        -- now right.
    + simpl. rewrite (IH Hnd'). split.
      * intros [H|[H|[Hn H]]].
        -- injection H as <- <-. right. split; [exact Hne | now left].
        -- now left.
        -- right. split; [exact Hn | now right].
      * intros [H|[Hn [H|H]]].
        -- right. now left.
        -- now left.
        -- right. right. now split.
Qed.

(** Copying the pairs of [l] one by one with [set]: each name is kept
    once, with the value of its last occurrence. *)
Lemma fold_params_set (l : list (string * string)) :
  forall acc, NoDup (map fst acc) ->
    NoDup (map fst (fold_left (fun acc kv => Route.params_set (fst kv) (snd kv) acc) l acc))
    /\ forall k v,
         In (k, v) (fold_left (fun acc kv => Route.params_set (fst kv) (snd kv) acc) l acc)
         <-> (exists l1 l2, l = (l1 ++ (k, v) :: l2)%list /\ ~ In k (map fst l2))
             \/ (~ In k (map fst l) /\ In (k, v) acc).
Proof.
  induction l as [|[k0 v0] l IH]; intros acc Hnd; simpl.
  - split; [exact Hnd|]. intros k v. split.
    + intros H. right. split; auto.
    + intros [(l1 & l2 & H & _)|[_ H]]; [|exact H]. now destruct l1.
  - destruct (IH (Route.params_set k0 v0 acc) (params_set_NoDup k0 v0 acc Hnd)) as [Hn Hin].
    split; [exact Hn|]. intros k v. rewrite Hin. rewrite (params_set_In k0 v0 acc k v Hnd).
    split.
    + intros [(l1 & l2 & -> & Hl2)|[Hnk [[-> ->]|[Hne H]]]].
      * left. exists ((k0, v0) :: l1), l2. split; [reflexivity | exact Hl2].
      * left. exists [], l. split; [reflexivity | exact Hnk].
      * right. split; [|exact H]. intros [E|E]; [congruence | contradiction].
    + intros [(l1 & l2 & E & Hl2)|[Hnk H]].
      * destruct l1 as [|p l1]; simpl in E.
        -- injection E as E1 E2 E3. subst. right. split; [exact Hl2 | now left].
        -- injection E as E1 E2. subst. left. now exists l1, l2.
      * right. split; [tauto|]. right. split; [|exact H]. intros ->. apply Hnk. now left.
Qed.

(** Relaying the headers of the upstream adds nothing and loses no
    name: the [set-cookie] lines are all kept, each as a line of its own
    and in their order, and every other name is kept once. *)
Theorem set_cookie_lines_relayed (hs : list (string * string)) :
  filter Route.is_set_cookie (Route.relayed_headers hs) = filter Route.is_set_cookie hs
  /\ (forall h, In h (Route.relayed_headers hs) -> In h hs)
  /\ (forall name, In name (map fst hs) <-> In name (map fst (Route.relayed_headers hs)))
  /\ NoDup (map fst (filter not_set_cookie (Route.relayed_headers hs))).
Proof.
  unfold Route.relayed_headers.
  change (fun h => negb (Route.is_set_cookie h)) with not_set_cookie.
  destruct (fold_params_set (filter not_set_cookie hs) [] (NoDup_nil _)) as [Hnd Hin].
  match goal with
  | |- context [fold_left ?f ?l []] => set (copied := fold_left f l []) in *
  end.
  assert (Hsub : forall h, In h copied -> In h (filter not_set_cookie hs)).
  { intros [k v] H. apply Hin in H. destruct H as [(l1 & l2 & -> & _)|[_ []]].
    apply in_or_app. right. now left. }
  assert (Hnone : filter Route.is_set_cookie copied = []).
  { assert (G : forall l, (forall h, In h l -> not_set_cookie h = true) ->
                          filter Route.is_set_cookie l = []).
    { induction l as [|h l IHl]; simpl; auto. intros Hl.
      pose proof (Hl h (or_introl eq_refl)) as Hh. unfold not_set_cookie in Hh.
      apply negb_true_iff in Hh. rewrite Hh. apply IHl. intros; apply Hl; now right. }
    apply G. intros h Hh. apply Hsub in Hh. now apply filter_In in Hh. }
  assert (Hall : filter not_set_cookie copied = copied).
  { assert (G : forall l, (forall h, In h l -> not_set_cookie h = true) ->
                          filter not_set_cookie l = l).
    { induction l as [|h l IHl]; simpl; auto. intros Hl.
      rewrite (Hl h (or_introl eq_refl)). f_equal. apply IHl. intros; apply Hl; now right. }
    apply G. intros h Hh. apply Hsub in Hh. now apply filter_In in Hh. }
  assert (Hidem : forall l, filter Route.is_set_cookie (filter Route.is_set_cookie l)
                            = filter Route.is_set_cookie l).
  { induction l as [|h l IHl]; simpl; auto.
    destruct (Route.is_set_cookie h) eqn:E; simpl; [rewrite E; now f_equal | exact IHl]. }
  assert (Hmix : forall l, filter not_set_cookie (filter Route.is_set_cookie l) = []).
  { induction l as [|h l IHl]; simpl; auto.
    destruct (Route.is_set_cookie h) eqn:E; simpl; [|exact IHl].
    unfold not_set_cookie at 1. rewrite E. exact IHl. }
  split; [|split; [|split]].
  - rewrite filter_app, Hnone, Hidem. reflexivity.
  - intros h H. apply in_app_or in H. destruct H as [H|H].
    + apply Hsub in H. now apply filter_In in H.
    + now apply filter_In in H.
  - intros name. rewrite map_app, in_app_iff. split.
    + intros H. apply in_map_iff in H. destruct H as ([k v] & <- & H). simpl.
      destruct (Route.is_set_cookie (k, v)) eqn:E.
      * right. apply in_map_iff. exists (k, v). split; [reflexivity|].
        apply filter_In. now split.
      * left.
        assert (Hk : In k (map fst (filter not_set_cookie hs))).
        { apply in_map_iff. exists (k, v). split; [reflexivity|].
          apply filter_In. split; [exact H|]. unfold not_set_cookie. now rewrite E. }
        assert (Hlast : forall l : list (string * string), In k (map fst l) ->
                  exists v' l1 l2, l = (l1 ++ (k, v') :: l2)%list /\ ~ In k (map fst l2)).
        { clear. induction l as [|[k' v'] l IHl]; simpl; intros Hk; [contradiction|].
          destruct (in_dec string_dec k (map fst l)) as [Hi|Hn].
          - destruct (IHl Hi) as (w & l1 & l2 & -> & Hl2).
            exists w, ((k', v') :: l1), l2. now split.
          - destruct Hk as [->|Hk]; [|contradiction].
            exists v', [], l. now split. }
        destruct (Hlast _ Hk) as (v' & l1 & l2 & El & Hl2).
        apply in_map_iff. exists (k, v'). split; [reflexivity|].
        apply Hin. left. now exists l1, l2.
    + intros [H|H]; apply in_map_iff in H; destruct H as (h & <- & H); apply in_map.
      * apply Hsub in H. now apply filter_In in H.
      * now apply filter_In in H.
  - rewrite filter_app, Hall, Hmix, app_nil_r. exact Hnd.
Qed.

(** The query of a call holds each name of the inbound query once, with
    the value of its last occurrence: a repeated parameter is forwarded
    once. *)
Theorem query_parameters_forwarded
        (JSON_parse : string -> option json)
        (fetch : Route.FetchRequest -> Route.FetchOutcome)
        (env : ProcessEnv) (now_ms : Z) (request : Route.Inbound)
        (method : string) (segments : list string) (options : Route.FetchRequest) :
  In options (snd (Route.proxyRequest JSON_parse fetch env now_ms request method segments)) ->
  NoDup (map fst (Route.searchParams (Route.url options)))
  /\ forall k v,
       In (k, v) (Route.searchParams (Route.url options))
       <-> exists l1 l2,
             Route.query request = (l1 ++ (k, v) :: l2)%list /\ ~ In k (map fst l2).
Proof.
  intros Hin. apply proxy_calls_inv in Hin.
  destruct (prepare_call_inv _ _ _ _ _ _ _ Hin) as (base & r & _ & _ & _ & _ & Hopt & _).
  rewrite Hopt. cbn [Route.fetch_options Route.url Route.searchParams].
  destruct (fold_params_set (Route.query request) [] (NoDup_nil _)) as [Hnd Hiff].
  split; [exact Hnd|]. intros k v. rewrite Hiff. split.
  - intros [H|[_ []]]. exact H.
  - intros H. now left.
Qed.

Lemma query_parameters_forwarded_witness :
  In ("tag", "b")
     (Route.searchParams
        (Route.url (hd_call (Route.proxyRequest JSON_parse (example_fetch EmptyString)
                               example_env example_now_ms example_search "GET" ["posts"])))).
Proof.
  apply (proj2 (query_parameters_forwarded JSON_parse (example_fetch EmptyString)
                  example_env example_now_ms example_search "GET" ["posts"] _
                  ltac:(vm_compute; left; reflexivity))).
  exists [("tag", "a"); ("page", "1")], []. split; [reflexivity|]. simpl. tauto.
Defined.

(** ** The shape of the canonical form *)

Lemma NoDup_nodupb (l : list string) : NoDup l -> nodupb l = true.
Proof.
  induction 1 as [|k l Hk Hnd IH]; simpl; auto.
  rewrite IH, andb_true_r. apply negb_true_iff.
  destruct (existsb (String.eqb k) l) eqn:E; auto.
  apply existsb_exists in E. destruct E as (x & Hx & Hkx).
  apply String.eqb_eq in Hkx. subst. contradiction.
Qed.

Lemma NoDup_snoc {A : Type} (l : list A) (x : A) :
  NoDup l -> ~ In x l -> NoDup (l ++ [x]).
Proof.
  intros Hnd Hn. rewrite <- (rev_involutive (l ++ [x])). apply NoDup_rev.
  rewrite rev_app_distr. simpl. constructor; [now rewrite <- in_rev | now apply NoDup_rev].
Qed.

Lemma keys_app {A : Type} (o1 o2 : list (string * A)) :
  keys (o1 ++ o2) = (keys o1 ++ keys o2)%list.
Proof. apply map_app. Qed.

Lemma define_NoDup (o : list (string * json)) (k : string) (v : json) :
  NoDup (keys o) -> NoDup (keys (Js.define o k v)).
Proof.
  intros Hnd. unfold Js.define.
  destruct (has_key k o) eqn:E.
  - now rewrite keys_update.
  - apply has_key_false in E.
    destruct (Js.array_index k) as [i|].
    + eapply Permutation_NoDup; [apply keys_insert_index|]. now constructor.
    + rewrite keys_app. now apply NoDup_snoc.
Qed.

Lemma reducer_NoDup (values acc : list (string * json)) (k : string) :
  NoDup (keys acc) -> NoDup (keys (Hmac.reducer values acc k)).
Proof.
  intros Hnd. unfold Hmac.reducer, Js.assign.
  destruct (lookup k values); auto.
  destruct (String.eqb k "__proto__"); auto.
  now apply define_NoDup.
Qed.

Lemma fold_NoDup (values : list (string * json)) (ks : list string) :
  forall acc, NoDup (keys acc) -> NoDup (keys (fold_left (Hmac.reducer values) ks acc)).
Proof.
  induction ks as [|k ks IH]; intros acc Hnd; simpl; auto.
  apply IH. now apply reducer_NoDup.
Qed.

Lemma ordered_spec (l : list string) : StronglySorted before l -> ordered l = true.
Proof.
  induction 1 as [|a l Hs IH Ha]; simpl; auto.
  rewrite IH, andb_true_r. apply forallb_forall. now apply Forall_forall.
Qed.

Lemma In_keys_insert_index (i : Z) (k : string) (v : json) (o : list (string * json))
      (x : string) :
  In x (keys (Js.insert_index i k v o)) -> x = k \/ In x (keys o).
Proof.
  intros H. eapply Permutation_in in H; [|apply Permutation_sym, keys_insert_index].
  destruct H as [<-|H]; auto.
Qed.

Lemma insert_index_sorted (i : Z) (k : string) (v : json) (o : list (string * json)) :
  Js.array_index k = Some i ->
  StronglySorted before (keys o) ->
  StronglySorted before (keys (Js.insert_index i k v o)).
Proof.
  intros Hk. induction o as [|[k' v'] o IH]; intros Hs.
  - simpl. repeat constructor.
  - simpl in Hs. inversion Hs as [|? ? Hs' Hall]; subst.
    cbn [Js.insert_index].
    destruct (Js.array_index k') as [j|] eqn:Ek'.
    + destruct (Z.ltb_spec j i) as [Hlt|Hge].
      * change (StronglySorted before (k' :: keys (Js.insert_index i k v o))).
        constructor; [now apply IH|].
        apply Forall_forall. intros x Hx.
        destruct (In_keys_insert_index _ _ _ _ _ Hx) as [->|Hx'].
        -- unfold before, js_before. rewrite Ek', Hk. apply Z.leb_le. lia.
        -- rewrite Forall_forall in Hall. now apply Hall.
      * change (StronglySorted before (k :: k' :: keys o)).
        constructor; [exact Hs|].
        constructor.
        -- unfold before, js_before. rewrite Hk, Ek'. now apply Z.leb_le.
        -- apply Forall_forall. intros x Hx. rewrite Forall_forall in Hall.
           specialize (Hall x Hx). unfold before, js_before in *.
           rewrite Hk. rewrite Ek' in Hall.
           destruct (Js.array_index x) as [jx|]; auto.
           apply Z.leb_le in Hall. apply Z.leb_le. lia.
    + change (StronglySorted before (k :: k' :: keys o)).
      constructor; [exact Hs|].
      constructor.
      * unfold before, js_before. now rewrite Hk, Ek'.
      * apply Forall_forall. intros x Hx. rewrite Forall_forall in Hall.
        specialize (Hall x Hx). unfold before, js_before in *.
        rewrite Hk. rewrite Ek' in Hall.
        destruct (Js.array_index x) as [jx|]; [discriminate | reflexivity].
Qed.

Lemma snoc_sorted (l : list string) (k : string) :
  StronglySorted before l -> Forall (fun a => before a k) l ->
  StronglySorted before (l ++ [k]).
Proof.
  induction 1 as [|a l Hs IH Ha]; intros Hall; simpl.
  - repeat constructor.
  - inversion Hall as [|? ? Hak Hall']; subst.
    constructor; [now apply IH|].
    apply Forall_app. split; [exact Ha | now constructor].
Qed.

Lemma define_sorted (o : list (string * json)) (k : string) (v : json) :
  StronglySorted before (keys o) ->
  (Js.array_index k = None -> Forall (fun a => before a k) (keys o)) ->
  StronglySorted before (keys (Js.define o k v)).
Proof.
  intros Hs Hk. unfold Js.define.
  destruct (has_key k o).
  - now rewrite keys_update.
  - destruct (Js.array_index k) as [i|] eqn:E.
    + now apply insert_index_sorted.
    + rewrite keys_app. apply snoc_sorted; auto.
Qed.

Lemma In_keys_reducer (values acc : list (string * json)) (k x : string) :
  In x (keys (Hmac.reducer values acc k)) -> x = k \/ In x (keys acc).
Proof.
  unfold Hmac.reducer, Js.assign.
  destruct (lookup k values) as [v|]; auto.
  destruct (String.eqb k "__proto__"); auto.
  intros H. apply in_map_iff in H. destruct H as (e & <- & He).
  destruct (In_define _ _ _ _ He) as [Hi| ->]; [|now left].
  right. now apply in_map.
Qed.

Lemma fold_sorted (values : list (string * json)) (ks : list string) :
  StronglySorted le_key ks ->
  forall acc,
    StronglySorted before (keys acc) ->
    (forall a b, In a (keys acc) -> In b ks -> Js.array_index a = None -> le_key a b) ->
    StronglySorted before (keys (fold_left (Hmac.reducer values) ks acc)).
Proof.
  induction 1 as [|k ks Hs IH Hk]; intros acc Hacc Hle; simpl; auto.
  apply IH.
  - unfold Hmac.reducer, Js.assign.
    destruct (lookup k values) as [v|]; auto.
    destruct (String.eqb k "__proto__"); auto.
    apply define_sorted; auto.
    intros Hn. apply Forall_forall. intros a Ha. unfold before, js_before. rewrite Hn.
    destruct (Js.array_index a) eqn:Ea; auto.
    apply (Hle a k Ha (or_introl eq_refl) Ea).
  - intros a b Ha Hb Hn.
    destruct (In_keys_reducer _ _ _ _ Ha) as [->|Ha'].
    + rewrite Forall_forall in Hk. now apply Hk.
    + apply (Hle a b Ha' (or_intror Hb) Hn).
Qed.

Lemma canonical_obj (props : list (string * json)) :
  NoDup (keys props) -> StronglySorted before (keys props) ->
  (forall e, In e props -> canonical (snd e) = true) ->
  canonical (JObj props) = true.
Proof.
  intros Hnd Hs Hv. cbn [canonical].
  rewrite (NoDup_nodupb _ Hnd), (ordered_spec _ Hs). cbn [andb].
  now apply forallb_forall.
Qed.

Lemma before_le_key (l : list string) :
  StronglySorted before l -> (forall k, In k l -> Js.array_index k = None) ->
  StronglySorted le_key l.
Proof.
  induction 1 as [|a l Hs IH Ha]; intros Hn; constructor.
  - apply IH. intros k Hk. apply Hn. now right.
  - apply Forall_forall. intros x Hx. rewrite Forall_forall in Ha.
    specialize (Ha x Hx). unfold before, js_before in Ha.
    rewrite (Hn a (or_introl eq_refl)), (Hn x (or_intror Hx)) in Ha. exact Ha.
Qed.

(** The canonical form of any value holds, in every object and at every
    depth, each key once, the integer-like keys first in numeric order and
    the other keys after them in the order of their UTF-16 code units. *)
Theorem sortObjectKeys_shape (v : json) : canonical (Hmac.sortObjectKeys v) = true.
Proof.
  induction v as [ | b | n | s | items IH | props IH] using json_induction; try reflexivity.
  - cbn [Hmac.sortObjectKeys canonical]. apply forallb_forall. intros x Hx.
    apply in_map_iff in Hx. destruct Hx as (y & <- & Hy).
    rewrite Forall_forall in IH. now apply IH.
  - rewrite sortObjectKeys_obj. apply canonical_obj.
    + apply fold_NoDup. constructor.
    + apply fold_sorted; [apply sort_sorted | constructor | intros a b []].
    + intros e He. apply In_fold in He. destruct He as [[]|He].
      apply in_map_iff in He. destruct He as ([k x] & <- & Hx). simpl.
      rewrite Forall_forall in IH. apply (IH (k, x) Hx).
Qed.

(** Canonicalising an object loses no property but [__proto__]: every
    other key is found with the canonical form of its value, and a key that
    was absent stays absent.  When no key is integer-like the keys come out
    in ascending order of their UTF-16 code units. *)
Theorem sortObjectKeys_keeps_properties (props : list (string * json)) :
  exists out,
    Hmac.sortObjectKeys (JObj props) = JObj out
    /\ (forall k, k <> "__proto__" ->
          lookup k out = option_map Hmac.sortObjectKeys (lookup k props))
    /\ lookup "__proto__" out = None
    /\ ((forall k, In k (keys props) -> Js.array_index k = None) ->
        NoDup (keys props) ->
        keys out = filter not_proto (Js.sort (keys props))).
Proof.
  eexists. split; [apply sortObjectKeys_obj|].
  set (values := map (fun '(k, v) => (k, Hmac.sortObjectKeys v)) props).
  assert (Hvalues : forall k, lookup k values = option_map Hmac.sortObjectKeys (lookup k props)).
  { intros k. apply lookup_map_values. }
  split; [|split].
  - intros k Hk. rewrite <- Hvalues.
    destruct (lookup k values) as [x|] eqn:E.
    + apply lookup_fold_same; auto.
      * eapply Permutation_in; [apply sort_perm|].
        apply lookup_In in E. apply (in_map fst) in E.
        unfold values in E. rewrite map_map in E.
        replace (map (fun x0 : string * json => fst (let '(k0, v) := x0 in (k0, Hmac.sortObjectKeys v))) props)
          with (keys props) in E; [exact E|].
        unfold keys. apply map_ext. now intros [? ?].
      * unfold not_proto. apply negb_true_iff. now apply String.eqb_neq.
    + rewrite lookup_fold_other; [reflexivity|].
      intros Hin. apply lookup_None in E. apply E.
      unfold values. rewrite keys_map_values.
      eapply Permutation_in; [apply Permutation_sym, sort_perm | exact Hin].
  - rewrite fold_skip_proto. rewrite lookup_fold_other; [reflexivity|].
    intros H. apply filter_In in H. destruct H as [_ H]. discriminate.
  - intros Hidx Hnd.
    apply sorted_perm_eq.
    + assert (Hp : Permutation (filter not_proto (Js.sort (keys props)))
                               (keys (fold_left (Hmac.reducer values) (Js.sort (keys props)) []))).
      { apply (keys_fold_perm values (Js.sort (keys props)) []).
        - eapply Permutation_NoDup; [apply sort_perm | exact Hnd].
        - intros k Hk. now apply lookup_values_defined.
        - intros k _ []. }
      apply before_le_key.
      * apply fold_sorted; [apply sort_sorted | constructor | intros a b []].
      * intros k Hk. apply Hidx.
        eapply Permutation_in in Hk; [|apply Permutation_sym, Hp].
        apply filter_In in Hk. destruct Hk as [Hk _].
        eapply Permutation_in; [apply Permutation_sym, sort_perm | exact Hk].
    + apply filter_sorted, sort_sorted.
    + apply Permutation_sym.
      apply (keys_fold_perm values (Js.sort (keys props)) []).
      * eapply Permutation_NoDup; [apply sort_perm | exact Hnd].
      * intros k Hk. now apply lookup_values_defined.
      * intros k _ [].
Qed.

(** ** Plain text *)

Lemma plain_visible (s : string) : plain s = true -> visible s = true.
Proof.
  induction s as [|c s IH]; simpl; auto.
  unfold plain_char. intros H. apply andb_true_iff in H. destruct H as [Hc Hs].
  apply andb_true_iff in Hc. destruct Hc as [Hc _].
  apply andb_true_iff in Hc. destruct Hc as [Hc _].
  now rewrite Hc, IH.
Qed.

Lemma visible_app (a b : string) : visible (a ++ b) = visible a && visible b.
Proof. induction a as [|c a IH]; simpl; auto. now rewrite IH, andb_assoc. Qed.

Lemma plain_char_bounds (c : ascii) :
  plain_char c = true ->
  33 <= byte_of_ascii c <= 126 /\ byte_of_ascii c <> 34 /\ byte_of_ascii c <> 92.
Proof.
  unfold plain_char, visible_char. cbv zeta. intros H.
  apply andb_true_iff in H. destruct H as [H H3].
  apply andb_true_iff in H. destruct H as [H H2].
  apply andb_true_iff in H. destruct H as [H0 H1].
  apply Z.leb_le in H0. apply Z.leb_le in H1.
  apply negb_true_iff, Z.eqb_neq in H2. apply negb_true_iff, Z.eqb_neq in H3. lia.
Qed.

Lemma quote_char_plain (c : ascii) :
  plain_char c = true -> Js.quote_char c = String c EmptyString.
Proof.
  intros H. apply plain_char_bounds in H. unfold Js.quote_char. cbv zeta.
  repeat match goal with
         | |- context [?a =? ?b] => destruct (Z.eqb_spec a b); [lia|]
         | |- context [?a <? ?b] => destruct (Z.ltb_spec a b); [lia|]
         end.
  reflexivity.
Qed.

Lemma encode_char_plain (c : ascii) :
  plain_char c = true -> Php.encode_char c = String c EmptyString.
Proof.
  intros H. apply plain_char_bounds in H. unfold Php.encode_char. cbv zeta.
  repeat match goal with
         | |- context [?a =? ?b] => destruct (Z.eqb_spec a b); [lia|]
         | |- context [?a <? ?b] => destruct (Z.ltb_spec a b); [lia|]
         end.
  reflexivity.
Qed.

Lemma quote_chars_plain (s : string) : plain s = true -> Js.quote_chars s = s.
Proof.
  induction s as [|c s IH]; simpl; auto.
  intros H. apply andb_true_iff in H. destruct H as [Hc Hs].
  now rewrite (quote_char_plain c Hc), (IH Hs).
Qed.

Lemma quote_plain (s : string) :
  plain s = true -> Js.quote s = String dquote (s ++ String dquote EmptyString).
Proof. intros H. unfold Js.quote. now rewrite quote_chars_plain. Qed.

(** No sequence of [Js.whitespace] starts with a visible character. *)
Lemma whitespace_heads :
  forallb (fun w => match w with
                    | String c _ => negb (visible_char c)
                    | EmptyString => false
                    end) Js.whitespace = true.
Proof. vm_compute. reflexivity. Qed.

Lemma prefix_head (w : string) (c : ascii) (r : string) :
  match w with String c0 _ => negb (visible_char c0) | EmptyString => false end = true ->
  visible_char c = true ->
  String.prefix w (String c r) = false.
Proof.
  destruct w as [|c0 w]; [discriminate|]. intros H0 Hc. rewrite prefix_cons.
  destruct (Ascii.ascii_dec c0 c) as [->|_]; [|reflexivity].
  rewrite Hc in H0. discriminate.
Qed.

Lemma find_prefix_none (c : ascii) (r : string) :
  visible_char c = true ->
  find (fun w => String.prefix w (String c r)) Js.whitespace = None.
Proof.
  intros Hc. pose proof whitespace_heads as H. revert H.
  generalize Js.whitespace. intros ws.
  induction ws as [|w l IH]; [reflexivity|].
  cbn [forallb]. intros H. apply andb_true_iff in H. destruct H as [Hw Hl].
  cbn [find]. rewrite (prefix_head w c r Hw Hc). now apply IH.
Qed.

Lemma strip_whitespace_visible (s : string) :
  visible s = true -> forall fuel, Js.strip_whitespace fuel s = s.
Proof.
  induction s as [|c s IH]; intros H fuel.
  - now destruct fuel.
  - simpl in H. apply andb_true_iff in H. destruct H as [Hc Hs].
    destruct fuel as [|f]; [reflexivity|].
    cbn [Js.strip_whitespace]. rewrite (find_prefix_none c s Hc).
    now rewrite (IH Hs).
Qed.

Lemma remove_whitespace_visible (s : string) :
  visible s = true -> Js.remove_whitespace s = s.
Proof. intros H. now apply strip_whitespace_visible. Qed.

(** The same, from the absence of every white-space sequence. *)
Lemma includes_tail (ws : list string) (c : ascii) (s : string) :
  forallb (fun w => negb (includes w (String c s))) ws = true ->
  find (fun w => String.prefix w (String c s)) ws = None
  /\ forallb (fun w => negb (includes w s)) ws = true.
Proof.
  induction ws as [|w l IHl]; [split; reflexivity|].
  cbn [forallb find]. intros H. apply andb_true_iff in H. destruct H as [Hw Hl].
  apply negb_true_iff in Hw.
  change (includes w (String c s))
    with (String.prefix w (String c s) || includes w s) in Hw.
  apply orb_false_iff in Hw. destruct Hw as [Hw1 Hw2]. rewrite Hw1, Hw2.
  destruct (IHl Hl) as [H1 H2]. now split.
Qed.

Lemma strip_whitespace_none (s : string) :
  forallb (fun w => negb (includes w s)) Js.whitespace = true ->
  forall fuel, Js.strip_whitespace fuel s = s.
Proof.
  induction s as [|c s IH]; intros H fuel.
  - now destruct fuel.
  - destruct fuel as [|f]; [reflexivity|].
    cbn [Js.strip_whitespace].
    destruct (includes_tail _ _ _ H) as [Hfind Htail].
    rewrite Hfind. f_equal. now apply IH.
Qed.

(** When the canonical text of a truthy body holds no white-space
    character, the hash that is signed is the SHA-256 of the very text
    returned for transmission. *)
Theorem hash_covers_transmitted_body
        (env : ProcessEnv) (now_ms : Z) (method path : string) (body : json) (r : Hmac.HmacResult)
        (text : string) :
  Hmac.generateSignature env now_ms method path (Some body) = Return r ->
  Js.truthy body = true ->
  Hmac.normalizedBody r = Some text ->
  forallb (fun w => negb (includes w text)) Js.whitespace = true ->
  Hmac.hashBody (Some body) = sha256_hex text
  /\ Hmac.X_BFF_Signature r
     = hmac_sha256_hex (Hmac.BFF_SECRET env)
         (Hmac.X_BFF_Timestamp r ++ ":" ++ method ++ ":" ++ path ++ ":" ++ sha256_hex text).
Proof.
  intros Hsig Ht Hbody Hws.
  assert (Hconf : Hmac.BFF_SECRET env <> EmptyString).
  { intros E. rewrite (generateSignature_unconfigured _ _ _ _ _ E) in Hsig. discriminate. }
  rewrite (generateSignature_configured _ _ _ _ _ Hconf) in Hsig.
  injection Hsig as Hr. rewrite <- Hr in Hbody |- *.
  cbn [Hmac.normalizedBody Hmac.X_BFF_Signature Hmac.X_BFF_Timestamp] in *.
  assert (Htext : text = Js.JSON_stringify (Hmac.sortObjectKeys body)).
  { destruct body; try discriminate; now injection Hbody as <-. }
  assert (Hhash : Hmac.hashBody (Some body) = sha256_hex text).
  { unfold Hmac.hashBody. rewrite Ht. cbn [negb]. cbv zeta. rewrite <- Htext.
    unfold Js.remove_whitespace. now rewrite strip_whitespace_none. }
  split; [exact Hhash|].
  unfold Hmac.hashBody in Hhash. cbv zeta in Hhash. rewrite Hhash. reflexivity.
Qed.

Lemma hash_covers_transmitted_body_witness :
  Hmac.hashBody (Some body_ba) = sha256_hex (txt "{'a':[2,1],'b':1}").
Proof.
  refine (proj1 (hash_covers_transmitted_body example_env example_now_ms "POST" "api/v1/items"
                   body_ba _ (txt "{'a':[2,1],'b':1}")
                   (generateSignature_configured example_env example_now_ms "POST"
                      "api/v1/items" (Some body_ba) _) eq_refl _ _)).
  - vm_compute. discriminate.
  - cbn [Hmac.normalizedBody body_ba]. vm_compute. reflexivity.
  - vm_compute. reflexivity.
Defined.

(** ** Reading back what [JSON.stringify] writes *)

Lemma parse_chars_plain (s : string) :
  plain s = true ->
  forall (acc rest : string) (fuel : nat),
    (String.length s < fuel)%nat ->
    JsonText.parse_chars fuel (s ++ String dquote rest) acc = Some (acc ++ s, rest).
Proof.
  induction s as [|c s IH]; intros Hp acc rest fuel Hf.
  - destruct fuel as [|f]; [simpl in Hf; lia|]. rewrite append_nil_r. reflexivity.
  - simpl in Hp. apply andb_true_iff in Hp. destruct Hp as [Hc Hs].
    destruct fuel as [|f]; [simpl in Hf; lia|].
    pose proof (plain_char_bounds c Hc) as Hb.
    cbn [append JsonText.parse_chars]. cbv zeta.
    destruct (Z.eqb_spec (byte_of_ascii c) 34); [lia|].
    destruct (Z.ltb_spec (byte_of_ascii c) 32); [lia|].
    destruct (Z.eqb_spec (byte_of_ascii c) 92); [lia|].
    rewrite (IH Hs) by (simpl in Hf; lia).
    now rewrite append_assoc.
Qed.

Lemma parse_string_quote (s rest : string) :
  plain s = true -> JsonText.parse_string (Js.quote s ++ rest) = Some (s, rest).
Proof.
  intros Hp. rewrite (quote_plain s Hp).
  cbn [append JsonText.parse_string]. rewrite append_assoc. cbn [append].
  change (Ascii.eqb dquote dquote) with true. cbv iota.
  rewrite (parse_chars_plain s Hp EmptyString rest).
  - reflexivity.
  - rewrite length_app. simpl. lia.
Qed.

Lemma span_digits_app (d rest : string) :
  all_digits d = true -> number_end rest = true ->
  JsonText.span_digits (d ++ rest) = (d, rest).
Proof.
  intros Hd Hr. induction d as [|c d IH].
  - destruct rest as [|c' rest']; [reflexivity|].
    cbn [append JsonText.span_digits]. unfold number_end in Hr.
    destruct (is_digit c'); [discriminate | reflexivity].
  - simpl in Hd. apply andb_true_iff in Hd. destruct Hd as [Hc Hd].
    cbn [append JsonText.span_digits]. rewrite Hc, (IH Hd). reflexivity.
Qed.

Lemma dec_digits_head (fuel : nat) :
  forall n acc, (0 < fuel)%nat -> 1 <= n < 2 ^ Z.of_nat fuel ->
  exists k r, 1 <= k <= 9 /\ dec_digits fuel n acc = String (ascii_of_byte (48 + k)) r.
Proof.
  induction fuel as [|f IH]; intros n acc Hf Hn; [lia|].
  rewrite dec_digits_S. destruct (n <? 10) eqn:E.
  - apply Z.ltb_lt in E. rewrite Z.mod_small by lia.
    exists n, acc. split; [lia | reflexivity].
  - apply Z.ltb_ge in E.
    assert (Hpow : 2 ^ Z.of_nat (S f) = 2 * 2 ^ Z.of_nat f).
    { rewrite Nat2Z.inj_succ, Z.pow_succ_r by lia. reflexivity. }
    assert (Hf' : (0 < f)%nat).
    { destruct f; [|lia]. simpl in Hn. lia. }
    apply IH; [exact Hf'|]. split.
    + apply Z.div_le_lower_bound; lia.
    + apply Z.div_lt_upper_bound; lia.
Qed.

(** The numeral of a positive number starts with a digit other than
    zero. *)
Lemma dec_of_nat_head (n : Z) :
  0 < n ->
  exists c d, dec_of_nat n = String c d /\ is_digit c = true /\ Ascii.eqb c "0" = false
              /\ all_digits d = true.
Proof.
  intros Hn. destruct (dec_of_nat_numeral n) as (Hall & _ & _); [lia|].
  destruct (dec_digits_head (S (Z.to_nat (Z.log2 n))) n EmptyString) as (k & r & Hk & E).
  - lia.
  - split; [lia|]. rewrite Nat2Z.inj_succ, Z2Nat.id by apply Z.log2_nonneg.
    apply Z.log2_spec. lia.
  - fold (dec_of_nat n) in E. rewrite E in Hall |- *.
    simpl in Hall. apply andb_true_iff in Hall. destruct Hall as [Hc Hd].
    exists (ascii_of_byte (48 + k)), r. repeat split; auto.
    destruct (Ascii.eqb_spec (ascii_of_byte (48 + k)) "0") as [E0|]; [|reflexivity].
    apply (f_equal byte_of_ascii) in E0. rewrite byte_of_ascii_of_byte in E0 by lia.
    change (byte_of_ascii "0") with 48 in E0. lia.
Qed.

Lemma dec_of_nat_zero : dec_of_nat 0 = "0".
Proof. reflexivity. Qed.

Lemma number_end_case {X : Type} (rest : string) (A B : X) :
  number_end rest = true ->
  match rest with
  | String "." _ | String "e" _ | String "E" _ => A
  | _ => B
  end = B.
Proof.
  destruct rest as [|c rest]; [reflexivity|].
  unfold number_end. intros H.
  apply andb_true_iff in H. destruct H as [H HE].
  apply andb_true_iff in H. destruct H as [H He].
  apply andb_true_iff in H. destruct H as [_ Hdot].
  destruct c as [[] [] [] [] [] [] [] []]; try reflexivity; discriminate.
Qed.

Lemma not_minus_case {X : Type} (c : ascii) (r : string) (A : string -> X) (B : X) :
  is_digit c = true ->
  match String c r with
  | String "-" r' => A r'
  | _ => B
  end = B.
Proof.
  intros H.
  destruct c as [[] [] [] [] [] [] [] []]; try reflexivity; discriminate.
Qed.

Lemma parse_number_digits (c : ascii) (d rest : string) :
  is_digit c = true -> all_digits d = true ->
  (Ascii.eqb c "0" = true -> d = EmptyString) ->
  number_end rest = true ->
  JsonText.parse_number (String c (d ++ rest))
  = Some (digits_value 0 (String c d), rest)
  /\ JsonText.parse_number (String "-" (String c (d ++ rest)))
     = if digits_value 0 (String c d) =? 0 then None
       else Some (- digits_value 0 (String c d), rest).
Proof.
  intros Hc Hd Hz Hend.
  assert (Hspan : (if Ascii.eqb c "0"
                   then (String c EmptyString, drop 1 (String c (d ++ rest)))
                   else JsonText.span_digits (String c (d ++ rest)))
                  = (String c d, rest)).
  { destruct (Ascii.eqb c "0") eqn:E.
    - rewrite (Hz eq_refl). reflexivity.
    - change (String c (d ++ rest)) with (String c d ++ rest).
      apply span_digits_app; [|exact Hend]. simpl. now rewrite Hc, Hd. }
  split.
  - unfold JsonText.parse_number.
    rewrite (not_minus_case c (d ++ rest) (fun r => (true, r)) (false, String c (d ++ rest)) Hc).
    rewrite Hc, Hspan. rewrite (number_end_case rest _ _ Hend). reflexivity.
  - unfold JsonText.parse_number. cbv beta iota. rewrite Hc, Hspan.
    rewrite (number_end_case rest _ _ Hend). reflexivity.
Qed.

Lemma parse_number_dec (n : Z) (rest : string) :
  number_end rest = true ->
  JsonText.parse_number (dec_of_Z n ++ rest) = Some (n, rest).
Proof.
  intros Hend. unfold dec_of_Z.
  destruct (Z.ltb_spec n 0) as [Hneg|Hpos].
  - destruct (dec_of_nat_head (- n)) as (c & d & E & Hc & Hc0 & Hd); [lia|].
    pose proof (numeral_value _ _ (dec_of_nat_numeral (- n) ltac:(lia))) as Hv.
    rewrite E in Hv |- *. cbn [append].
    rewrite (proj2 (parse_number_digits c d rest Hc Hd ltac:(congruence) Hend)), Hv.
    destruct (Z.eqb_spec (- n) 0); [lia|]. now rewrite Z.opp_involutive.
  - destruct (Z.eq_dec n 0) as [->|Hnz].
    + rewrite dec_of_nat_zero. cbn [append].
      destruct (parse_number_digits "0" EmptyString rest eq_refl eq_refl
                  (fun _ => eq_refl) Hend) as [H _].
      cbn [append] in H. rewrite H. reflexivity.
    + destruct (dec_of_nat_head n) as (c & d & E & Hc & Hc0 & Hd); [lia|].
      pose proof (numeral_value _ _ (dec_of_nat_numeral n ltac:(lia))) as Hv.
      rewrite E in Hv |- *. cbn [append].
      now rewrite (proj1 (parse_number_digits c d rest Hc Hd ltac:(congruence) Hend)), Hv.
Qed.

Lemma parse_value_number (f : nat) (c : ascii) (r : string) :
  is_digit c || Ascii.eqb c "-" = true ->
  JsonText.parse_value (S f) (String c r)
  = match JsonText.parse_number (String c r) with
    | Some (n, r') => Some (JNum n, r')
    | None => None
    end.
Proof.
  intros H.
  destruct c as [[] [] [] [] [] [] [] []]; try discriminate; reflexivity.
Qed.

Lemma parse_value_string (f : nat) (r : string) :
  JsonText.parse_value (S f) (String dquote r)
  = match JsonText.parse_string (String dquote r) with
    | Some (x, r') => Some (JStr x, r')
    | None => None
    end.
Proof. reflexivity. Qed.

Lemma parse_value_array (f : nat) (c : ascii) (r : string) :
  value_head c = true ->
  JsonText.parse_value (S f) (String "[" (String c r))
  = JsonText.parse_elements f (String c r) [].
Proof.
  intros H.
  destruct c as [[] [] [] [] [] [] [] []]; try discriminate; reflexivity.
Qed.

Lemma parse_value_object (f : nat) (r : string) :
  JsonText.parse_value (S f) (String "{" (String dquote r))
  = JsonText.parse_members f (String dquote r) [].
Proof. reflexivity. Qed.

Lemma parse_elements_S (f : nat) (s : string) (acc : list json) :
  JsonText.parse_elements (S f) s acc
  = match JsonText.parse_value f s with
    | Some (v, r) =>
        match JsonText.skip_ws r with
        | String "," r' => JsonText.parse_elements f r' (acc ++ [v])%list
        | String "]" r' => Some (JArr (acc ++ [v])%list, r')
        | _ => None
        end
    | None => None
    end.
Proof. reflexivity. Qed.

Lemma parse_members_S (f : nat) (s : string) (acc : list (string * json)) :
  JsonText.parse_members (S f) s acc
  = match JsonText.parse_string (JsonText.skip_ws s) with
    | Some (k, r) =>
        match JsonText.expect ":" (JsonText.skip_ws r) with
        | Some r1 =>
            match JsonText.parse_value f r1 with
            | Some (v, r2) =>
                match JsonText.skip_ws r2 with
                | String "," r' => JsonText.parse_members f r' (acc ++ [(k, v)])%list
                | String "}" r' => Some (JObj (acc ++ [(k, v)])%list, r')
                | _ => None
                end
            | None => None
            end
        | None => None
        end
    | None => None
    end.
Proof. reflexivity. Qed.

Lemma dec_of_Z_head (n : Z) :
  exists c r, dec_of_Z n = String c r /\ is_digit c || Ascii.eqb c "-" = true.
Proof.
  unfold dec_of_Z. destruct (Z.ltb_spec n 0).
  - exists "-"%char, (dec_of_nat (- n)). split; reflexivity.
  - destruct (Z.eq_dec n 0) as [->|Hn].
    + exists "0"%char, EmptyString. split; reflexivity.
    + destruct (dec_of_nat_head n) as (c & d & E & Hc & _); [lia|].
      exists c, d. split; [exact E|]. now rewrite Hc.
Qed.

Lemma number_head (c : ascii) :
  is_digit c || Ascii.eqb c "-" = true -> value_head c = true.
Proof.
  intros H. destruct c as [[] [] [] [] [] [] [] []]; try discriminate; reflexivity.
Qed.

(** Every text [JSON.stringify] writes starts with such a character. *)
Lemma stringify_head (v : json) :
  exists c r, Js.JSON_stringify v = String c r /\ value_head c = true.
Proof.
  destruct v as [ | [] | n | s | items | props]; simpl.
  - now exists "n"%char, "ull".
  - now exists "t"%char, "rue".
  - now exists "f"%char, "alse".
  - destruct (dec_of_Z_head n) as (c & r & E & H).
    exists c, r. split; [exact E | now apply number_head].
  - eexists _, _. split; reflexivity.
  - eexists _, _. split; reflexivity.
  - eexists _, _. split; reflexivity.
Qed.

Lemma parse_value_dec (f : nat) (n : Z) (rest : string) :
  number_end rest = true ->
  JsonText.parse_value (S f) (dec_of_Z n ++ rest) = Some (JNum n, rest).
Proof.
  intros Hend. pose proof (parse_number_dec n rest Hend) as Hn.
  destruct (dec_of_Z_head n) as (c & r & E & H). rewrite E in Hn |- *.
  cbn [append] in *. now rewrite (parse_value_number f c _ H), Hn.
Qed.

Lemma concat_cons2 (sep x y : string) (l : list string) :
  String.concat sep (x :: y :: l) = x ++ sep ++ String.concat sep (y :: l).
Proof. reflexivity. Qed.

Lemma parse_elements_items (items : list json) :
  Forall reads_back items -> forallb portable items = true -> items <> [] ->
  forall (fuel : nat) (acc : list json) (rest : string),
    (elements_size items <= fuel)%nat ->
    JsonText.parse_elements fuel
      (String.concat "," (map Js.JSON_stringify items) ++ String "]" rest) acc
    = Some (JArr (acc ++ items)%list, rest).
Proof.
  induction 1 as [|x xs Hx Hxs IH]; intros Hp Hne fuel acc rest Hf; [congruence|].
  cbn [forallb] in Hp. apply andb_true_iff in Hp. destruct Hp as [Hpx Hpxs].
  cbn [elements_size fold_right] in Hf. fold (elements_size xs) in Hf.
  destruct fuel as [|f]; [lia|].
  rewrite parse_elements_S.
  destruct xs as [|y ys].
  - cbn [map String.concat].
    rewrite (Hx Hpx f (String "]" rest)) by (try reflexivity; lia).
    reflexivity.
  - cbn [map]. rewrite concat_cons2, !append_assoc.
    rewrite (Hx Hpx f) by (try reflexivity; lia).
    cbn [append JsonText.skip_ws]. change (JsonText.is_ws ",") with false. cbv beta iota.
    cbn [map] in IH.
    rewrite (IH Hpxs ltac:(discriminate) f (acc ++ [x])%list rest) by lia.
    now rewrite <- app_assoc.
Qed.

Lemma skip_ws_quote (k r : string) :
  JsonText.skip_ws (Js.quote k ++ r) = Js.quote k ++ r.
Proof. reflexivity. Qed.

Lemma expect_colon (r : string) :
  JsonText.expect ":" (JsonText.skip_ws (String ":" r)) = Some r.
Proof. reflexivity. Qed.

Lemma parse_members_props (props : list (string * json)) :
  Forall (fun kv => reads_back (snd kv)) props ->
  forallb (fun kv => plain (fst kv) && text_key (fst kv) && portable (snd kv)) props = true ->
  props <> [] ->
  forall (fuel : nat) (acc : list (string * json)) (rest : string),
    (members_size props <= fuel)%nat ->
    JsonText.parse_members fuel
      (String.concat ","
         (map (fun '(k, x) => Js.quote k ++ ":" ++ Js.JSON_stringify x) props)
       ++ String "}" rest) acc
    = Some (JObj (acc ++ props)%list, rest).
Proof.
  induction 1 as [|[k x] xs Hx Hxs IH]; intros Hp Hne fuel acc rest Hf; [congruence|].
  cbn [forallb fst snd] in Hp. apply andb_true_iff in Hp. destruct Hp as [Hpx Hpxs].
  apply andb_true_iff in Hpx. destruct Hpx as [Hk Hpx].
  apply andb_true_iff in Hk. destruct Hk as [Hk _].
  cbn [members_size fold_right snd] in Hf. fold (members_size xs) in Hf.
  cbn [snd] in Hx.
  destruct fuel as [|f]; [lia|].
  rewrite parse_members_S.
  destruct xs as [|[k' y] ys].
  - cbn [map String.concat]. rewrite !append_assoc.
    rewrite skip_ws_quote, (parse_string_quote k _ Hk).
    cbn [append]. rewrite expect_colon.
    rewrite (Hx Hpx f (String "}" rest)) by (try reflexivity; lia).
    reflexivity.
  - cbn [map]. rewrite concat_cons2, !append_assoc.
    rewrite skip_ws_quote, (parse_string_quote k _ Hk).
    cbn [append]. rewrite expect_colon.
    rewrite (Hx Hpx f) by (try reflexivity; lia).
    cbn [JsonText.skip_ws]. change (JsonText.is_ws ",") with false. cbv beta iota.
    cbn [map] in IH.
    etransitivity;
      [exact (IH Hpxs ltac:(discriminate) f (acc ++ [(k, x)])%list rest ltac:(lia))|].
    now rewrite <- app_assoc.
Qed.

Lemma reads_back_all (v : json) : reads_back v.
Proof.
  induction v as [ | b | n | s | items IH | props IH] using json_induction;
    intros Hp fuel rest Hf Hend; (destruct fuel as [|f]; [simpl in Hf; lia|]).
  - destruct rest; reflexivity.
  - destruct b, rest; reflexivity.
  - now apply parse_value_dec.
  - cbn [Js.JSON_stringify]. cbn [portable] in Hp.
    pose proof (parse_string_quote s rest Hp) as H.
    unfold Js.quote in *. cbn [append] in *.
    rewrite parse_value_string. now rewrite H.
  - cbn [Js.JSON_stringify]. cbn [portable] in Hp.
    destruct items as [|x xs]; [reflexivity|].
    cbn [append]. rewrite append_assoc. cbn [append].
    destruct (stringify_head x) as (c & r & E & Hc).
    cbn [map]. 
    assert (Ehead : exists r', String.concat "," (Js.JSON_stringify x :: map Js.JSON_stringify xs)
                               ++ String "]" rest = String c r').
    { destruct xs; cbn [map String.concat]; rewrite E; eexists; reflexivity. }
    destruct Ehead as (r' & Er').
    rewrite Er', (parse_value_array f c r' Hc), <- Er'.
    apply (parse_elements_items (x :: xs) IH Hp ltac:(discriminate) f [] rest).
    cbn [size] in Hf. unfold elements_size. lia.
  - cbn [Js.JSON_stringify]. cbn [portable] in Hp.
    apply andb_true_iff in Hp. destruct Hp as [Hp Hall].
    apply andb_true_iff in Hp. destruct Hp as [Hne _].
    destruct props as [|[k x] xs]; [discriminate|].
    cbn [append]. rewrite append_assoc. cbn [append].
    match goal with
    | |- JsonText.parse_value _ (String _ ?t) = _ =>
        assert (Ehead : exists r', t = String dquote r');
        [destruct xs as [|[k' y] ys]; cbn [map String.concat]; unfold Js.quote;
         eexists; reflexivity|];
        destruct Ehead as (r' & Er'); rewrite Er', (parse_value_object f r'), <- Er'
    end.
    etransitivity;
      [exact (parse_members_props ((k, x) :: xs) IH Hall ltac:(discriminate) f [] rest
                ltac:(cbn [size] in Hf; unfold members_size; lia))|].
    reflexivity.
Qed.

Lemma concat_length_bound {A : Type} (f : A -> nat) (g : A -> string) (l : list A) :
  (forall x, In x l -> (f x <= String.length (g x))%nat) ->
  (fold_right (fun x n => S (f x + n)) O l
   <= S (String.length (String.concat "," (map g l))))%nat.
Proof.
  induction l as [|x xs IH]; intros H; [simpl; lia|].
  assert (Hx : (f x <= String.length (g x))%nat) by (apply H; now left).
  assert (Hxs : (fold_right (fun x n => S (f x + n)) O xs
                 <= S (String.length (String.concat "," (map g xs))))%nat).
  { apply IH. intros; apply H; now right. }
  destruct xs as [|y ys].
  - simpl. lia.
  - cbn [map] in *. rewrite concat_cons2, !length_app.
    cbn [fold_right] in *. simpl String.length at 2. lia.
Qed.

Lemma size_le_length (v : json) : (size v <= String.length (Js.JSON_stringify v))%nat.
Proof.
  induction v as [ | b | n | s | items IH | props IH] using json_induction.
  - simpl. lia.
  - destruct b; simpl; lia.
  - simpl. destruct (dec_of_Z_head n) as (c & r & -> & _). simpl. lia.
  - simpl. lia.
  - cbn [size Js.JSON_stringify]. rewrite !length_app.
    pose proof (concat_length_bound size Js.JSON_stringify items) as H.
    rewrite Forall_forall in IH. specialize (H IH).
    simpl String.length. lia.
  - cbn [size Js.JSON_stringify]. rewrite !length_app.
    pose proof (concat_length_bound (fun kv => size (snd kv))
                  (fun '(k, x) => Js.quote k ++ ":" ++ Js.JSON_stringify x) props) as H.
    assert (Hin : forall kv, In kv props ->
                    (size (snd kv)
                     <= String.length (let '(k, x) := kv in
                                       Js.quote k ++ ":" ++ Js.JSON_stringify x))%nat).
    { intros [k x] Hkx. rewrite Forall_forall in IH. specialize (IH (k, x) Hkx).
      cbn [snd] in *. rewrite !length_app. lia. }
    specialize (H Hin). cbv beta in H.
    change (String.length "{") with 1%nat. change (String.length "}") with 1%nat. lia.
Qed.

(** A portable value is read back from the text written for it. *)
Lemma parse_stringify (v : json) :
  portable v = true -> JsonText.parse (Js.JSON_stringify v) = Some v.
Proof.
  intros Hp. unfold JsonText.parse.
  pose proof (reads_back_all v Hp (2 * String.length (Js.JSON_stringify v) + 2)%nat
                EmptyString) as H.
  rewrite append_nil_r in H. rewrite H; [reflexivity | | reflexivity].
  pose proof (size_le_length v). lia.
Qed.

(** ** The two canonical forms on portable values *)

Lemma digits_value_shift (d : string) :
  forall a, digits_value a d = a * 10 ^ Z.of_nat (String.length d) + digits_value 0 d.
Proof.
  induction d as [|c d IH]; intros a.
  - simpl. lia.
  - cbn [digits_value String.length]. rewrite (IH (10 * a + digit_value c)).
    rewrite (IH (10 * 0 + digit_value c)).
    rewrite Nat2Z.inj_succ, Z.pow_succ_r by lia. lia.
Qed.

Lemma all_digits_numeral (d : string) :
  all_digits d = true -> d <> EmptyString -> numeral d (digits_value 0 d).
Proof.
  intros Hd Hne. repeat split; auto. apply digits_value_shift.
Qed.

Lemma numeric_numeral (d : string) (n : Z) : numeral d n -> Php.numeric d = Some (n, 0).
Proof.
  intros H. unfold Php.numeric. now rewrite (scan_number_numeral d n H).
Qed.

Lemma numeric_dec_of_Z (z : Z) : Php.numeric (dec_of_Z z) = Some (z, 0).
Proof.
  unfold Php.numeric, dec_of_Z. destruct (Z.ltb_spec z 0).
  - rewrite (scan_number_minus _ (- z)) by (apply dec_of_nat_numeral; lia).
    simpl. now rewrite Z.opp_involutive.
  - now rewrite (scan_number_numeral _ z) by (apply dec_of_nat_numeral; lia).
Qed.

Lemma text_key_inv (k : string) :
  text_key k = true ->
  Php.numeric k = None /\ k <> "__proto__"
  /\ Php.array_key k = Php.KStr k /\ Js.array_index k = None.
Proof.
  unfold text_key. destruct (Php.numeric k) as [p|] eqn:En; [discriminate|].
  intros Hp. unfold not_proto in Hp. apply negb_true_iff, String.eqb_neq in Hp.
  repeat split; auto.
  - unfold Php.array_key.
    destruct (String.eqb_spec (dec_of_Z (Php.intval k)) k) as [E|_]; [|reflexivity].
    rewrite <- E, numeric_dec_of_Z in En. discriminate.
  - unfold Js.array_index. destruct k as [|c r]; [reflexivity|].
    destruct (all_digits (String c r)) eqn:Ed; [|reflexivity].
    rewrite (numeric_numeral _ _ (all_digits_numeral _ Ed ltac:(discriminate))) in En.
    discriminate.
Qed.

Lemma encode_chars_plain (s : string) :
  plain s = true ->
  forall fuel, (String.length s <= fuel)%nat -> Php.encode_chars fuel s = s.
Proof.
  induction s as [|c s IH]; intros Hp fuel Hf.
  - now destruct fuel.
  - simpl in Hp. apply andb_true_iff in Hp. destruct Hp as [Hc Hs].
    destruct fuel as [|f]; [simpl in Hf; lia|].
    assert (Hv : visible_char c = true).
    { unfold plain_char in Hc. cbv zeta in Hc.
      apply andb_true_iff in Hc. destruct Hc as [Hc _].
      apply andb_true_iff in Hc. now destruct Hc as [Hc _]. }
    cbn [Php.encode_chars].
    rewrite (prefix_head (string_of_bytes [0xE2; 0x80; 0xA8]) c s eq_refl Hv).
    rewrite (prefix_head (string_of_bytes [0xE2; 0x80; 0xA9]) c s eq_refl Hv).
    rewrite (encode_char_plain c Hc), (IH Hs) by (simpl in Hf; lia).
    reflexivity.
Qed.

Lemma encode_string_plain (s : string) : plain s = true -> Php.encode_string s = Js.quote s.
Proof.
  intros Hp. unfold Php.encode_string, Js.quote.
  now rewrite (encode_chars_plain s Hp), (quote_chars_plain s Hp).
Qed.

Lemma json_encode_arr (entries : list (Php.key * Php.value)) :
  Php.json_encode (Php.PArr entries)
  = if Php.is_list_from 0 entries
    then "[" ++ String.concat "," (map (fun '(_, x) => Php.json_encode x) entries) ++ "]"
    else "{" ++ String.concat ","
                  (map (fun '(k, x) => Php.encode_string (Php.key_string k) ++ ":"
                                       ++ Php.json_encode x) entries)
             ++ "}".
Proof. reflexivity. Qed.

Lemma index_from_map (f : Php.value -> Php.value) (l : list Php.value) :
  forall i, map (fun '(k, x) => (k, f x)) (Php.index_from i l) = Php.index_from i (map f l).
Proof. induction l as [|x l IH]; intros i; simpl; [reflexivity | now rewrite IH]. Qed.

Lemma ksort_index_from (l : list Php.value) :
  forall i, Php.ksort (Php.index_from i l) = Php.index_from i l.
Proof.
  induction l as [|x l IH]; intros i; [reflexivity|].
  cbn [Php.index_from Php.ksort fold_right].
  change (fold_right Php.insert_entry [] (Php.index_from (i + 1) l))
    with (Php.ksort (Php.index_from (i + 1) l)).
  rewrite IH. destruct l as [|y l]; [reflexivity|].
  cbn [Php.index_from Php.insert_entry fst]. unfold Php.key_leb. cbn [Php.compare_keys].
  destruct (Z.compare_spec i (i + 1)); try reflexivity; lia.
Qed.

Lemma is_list_index_from (l : list Php.value) :
  forall i, Php.is_list_from i (Php.index_from i l) = true.
Proof.
  induction l as [|x l IH]; intros i; [reflexivity|].
  cbn [Php.index_from Php.is_list_from]. now rewrite Z.eqb_refl, IH.
Qed.

Lemma index_from_values (g : Php.value -> string) (l : list Php.value) :
  forall i, map (fun '(_, x) => g x) (Php.index_from i l) = map g l.
Proof. induction l as [|x l IH]; intros i; simpl; [reflexivity | now rewrite IH]. Qed.

Lemma set_new (k : Php.key) (v : Php.value) (a : list (Php.key * Php.value)) :
  ~ In k (map fst a) -> Php.set k v a = (a ++ [(k, v)])%list.
Proof.
  induction a as [|[k' v'] a IH]; intros Hn; [reflexivity|].
  cbn [Php.set app].
  destruct (Php.key_eqb k k') eqn:E.
  - exfalso. apply Hn. left. simpl.
    destruct k, k'; simpl in E; try discriminate.
    + apply Z.eqb_eq in E. now subst.
    + apply String.eqb_eq in E. now subst.
  - rewrite IH; [reflexivity|]. intros H. apply Hn. now right.
Qed.

Lemma of_json_members (l : list (string * Php.value)) :
  NoDup (keys l) -> (forall k, In k (keys l) -> text_key k = true) ->
  forall acc,
    (forall k, In k (keys l) -> ~ In (Php.KStr k) (map fst acc)) ->
    fold_left (fun acc '(k, x) => Php.set (Php.array_key k) x acc) l acc
    = (acc ++ map (fun '(k, x) => (Php.KStr k, x)) l)%list.
Proof.
  induction l as [|[k x] l IH]; intros Hnd Hk acc Hacc.
  - simpl. now rewrite app_nil_r.
  - cbn [keys map fst] in Hnd. inversion Hnd as [|? ? Hkl Hnd']; subst.
    cbn [fold_left map].
    destruct (text_key_inv k (Hk k (or_introl eq_refl))) as (_ & _ & -> & _).
    rewrite set_new by (apply Hacc; now left).
    rewrite IH.
    + now rewrite <- app_assoc.
    + exact Hnd'.
    + intros k' Hk'. apply Hk. now right.
    + intros k' Hk' Hin. rewrite map_app, in_app_iff in Hin. destruct Hin as [Hin|Hin].
      * apply (Hacc k'); [now right | exact Hin].
      * simpl in Hin. destruct Hin as [E|[]]. injection E as ->. contradiction.
Qed.

Lemma code_units_small (b : Z) (r : list Z) :
  b < 194 -> Js.code_units (b :: r) = b :: Js.code_units r.
Proof.
  intros Hb.
  assert (H1 : (194 <=? b) = false) by (apply Z.leb_gt; lia).
  assert (H2 : (224 <=? b) = false) by (apply Z.leb_gt; lia).
  assert (H3 : (240 <=? b) = false) by (apply Z.leb_gt; lia).
  destruct r as [|c1 [|c2 [|c3 r3]]];
    cbn [Js.code_units]; rewrite ?H1, ?H2, ?H3; reflexivity.
Qed.

Lemma code_units_plain (s : string) :
  plain s = true -> Js.code_units (bytes_of_string s) = bytes_of_string s.
Proof.
  induction s as [|c s IH]; [reflexivity|].
  cbn [plain bytes_of_string]. intros H.
  apply andb_true_iff in H. destruct H as [Hc Hs].
  rewrite code_units_small, (IH Hs); [reflexivity|].
  unfold plain_char, visible_char in Hc. cbv zeta in Hc.
  rewrite !andb_true_iff in Hc. destruct Hc as [[[_ Hc] _] _].
  apply Z.leb_le in Hc. lia.
Qed.

Lemma compare_units_bytes (a b : string) :
  Js.compare_units (bytes_of_string a) (bytes_of_string b) = String.compare a b.
Proof.
  revert b. induction a as [|x a IH]; intros [|y b]; simpl; try reflexivity.
  unfold byte_of_ascii, Ascii.compare. rewrite N2Z.inj_compare.
  destruct (N_of_ascii x ?= N_of_ascii y)%N; auto.
Qed.

(** On plain texts the order of the code units is the order of the
    bytes. *)
Lemma leb_plain (a b : string) :
  plain a = true -> plain b = true -> Js.leb a b = String.leb a b.
Proof.
  intros Ha Hb. unfold Js.leb.
  rewrite (code_units_plain a Ha), (code_units_plain b Hb), compare_units_bytes.
  unfold String.leb. now destruct (String.compare a b).
Qed.

Lemma key_leb_text (a b : string) :
  Php.numeric a = None -> Php.key_leb (Php.KStr a) (Php.KStr b) = String.leb a b.
Proof. intros H. unfold Php.key_leb, Php.compare_keys. rewrite H. reflexivity. Qed.

Lemma insert_entry_text (k : string) (y : Php.value) (h h' : string -> Php.value)
      (ks : list string) :
  Php.numeric k = None -> plain k = true -> h' k = y ->
  (forall k', In k' ks -> plain k' = true) ->
  (forall k', In k' ks -> h' k' = h k') ->
  Php.insert_entry (Php.KStr k, y) (map (fun k' => (Php.KStr k', h k')) ks)
  = map (fun k' => (Php.KStr k', h' k')) (Js.insert_sorted k ks).
Proof.
  intros Hk Hpk Hy. induction ks as [|k0 ks IH]; intros Hpl Hh.
  - simpl. now rewrite Hy.
  - cbn [map Php.insert_entry Js.insert_sorted fst].
    rewrite (key_leb_text k k0 Hk), (leb_plain k k0 Hpk (Hpl k0 (or_introl eq_refl))).
    destruct (String.leb k k0).
    + cbn [map]. rewrite Hy. f_equal. f_equal.
      * now rewrite (Hh k0 (or_introl eq_refl)).
      * apply map_ext_in. intros k' Hk'. now rewrite (Hh k' (or_intror Hk')).
    + cbn [map]. rewrite (Hh k0 (or_introl eq_refl)). f_equal.
      apply IH; intros k' Hk'; [apply Hpl | apply Hh]; now right.
Qed.

Lemma ksort_text (l : list (string * Php.value)) :
  NoDup (keys l) -> (forall k, In k (keys l) -> Php.numeric k = None) ->
  (forall k, In k (keys l) -> plain k = true) ->
  Php.ksort (map (fun '(k, x) => (Php.KStr k, x)) l)
  = map (fun k => (Php.KStr k, php_get l k)) (Js.sort (keys l)).
Proof.
  induction l as [|[k y] l IH]; intros Hnd Hk Hpl; [reflexivity|].
  cbn [keys map fst] in Hnd. inversion Hnd as [|? ? Hkl Hnd']; subst.
  cbn [map Php.ksort fold_right keys fst Js.sort].
  change (fold_right Php.insert_entry [] (map (fun '(k, x) => (Php.KStr k, x)) l))
    with (Php.ksort (map (fun '(k, x) => (Php.KStr k, x)) l)).
  change (fold_right Js.insert_sorted [] (map fst l)) with (Js.sort (keys l)).
  rewrite IH; [|exact Hnd'|intros k' Hk'; apply Hk; now right
             |intros k' Hk'; apply Hpl; now right].
  apply insert_entry_text.
  - apply Hk. now left.
  - apply Hpl. now left.
  - unfold php_get. cbn [lookup]. now rewrite String.eqb_refl.
  - intros k' Hk'. apply Hpl. right.
    eapply Permutation_in; [apply Permutation_sym, sort_perm | exact Hk'].
  - intros k' Hk'. unfold php_get. cbn [lookup].
    destruct (String.eqb_spec k' k) as [->|_]; [|reflexivity].
    exfalso. apply Hkl. eapply Permutation_in; [apply Permutation_sym, sort_perm | exact Hk'].
Qed.

Lemma fold_reducer_text (values : list (string * json)) (ks : list string) :
  NoDup ks ->
  (forall k, In k ks -> Js.array_index k = None /\ k <> "__proto__"
                        /\ lookup k values <> None) ->
  forall acc,
    (forall k, In k ks -> ~ In k (keys acc)) ->
    fold_left (Hmac.reducer values) ks acc
    = (acc ++ map (fun k => (k, js_get values k)) ks)%list.
Proof.
  induction 1 as [|k ks Hk Hnd IH]; intros Hks acc Hacc.
  - simpl. now rewrite app_nil_r.
  - cbn [fold_left map].
    destruct (Hks k (or_introl eq_refl)) as (Hidx & Hproto & Hval).
    assert (Hstep : Hmac.reducer values acc k = (acc ++ [(k, js_get values k)])%list).
    { unfold Hmac.reducer, js_get, Js.assign, Js.define.
      destruct (lookup k values) as [v|]; [|congruence].
      apply String.eqb_neq in Hproto. rewrite Hproto, Hidx.
      assert (Hh : has_key k acc = false)
        by (apply has_key_false, Hacc; now left).
      now rewrite Hh. }
    rewrite Hstep, IH.
    + now rewrite <- app_assoc.
    + intros k' Hk'. apply Hks. now right.
    + intros k' Hk' Hin. rewrite keys_app, in_app_iff in Hin. destruct Hin as [Hin|Hin].
      * apply (Hacc k'); [now right | exact Hin].
      * simpl in Hin. destruct Hin as [<-|[]]. contradiction.
Qed.

Lemma portable_obj (props : list (string * json)) :
  portable (JObj props) = true ->
  props <> [] /\ NoDup (keys props)
  /\ forall k x, In (k, x) props -> plain k = true /\ text_key k = true /\ portable x = true.
Proof.
  cbn [portable]. intros H.
  apply andb_true_iff in H. destruct H as [H Hall].
  apply andb_true_iff in H. destruct H as [Hne Hnd].
  split; [now destruct props|]. split; [now apply nodupb_NoDup|].
  intros k x Hin. rewrite forallb_forall in Hall. specialize (Hall (k, x) Hin).
  cbn [fst snd] in Hall.
  apply andb_true_iff in Hall. destruct Hall as [Hall Hp].
  apply andb_true_iff in Hall. destruct Hall as [Hk Ht]. auto.
Qed.

Lemma In_keys_lookup {A : Type} (k : string) (l : list (string * A)) :
  In k (keys l) -> exists x, lookup k l = Some x /\ In (k, x) l.
Proof.
  intros H. destruct (lookup k l) as [x|] eqn:E.
  - exists x. split; [reflexivity | now apply lookup_In].
  - apply lookup_None in E. contradiction.
Qed.

(** The canonical object of a portable object: its keys in ascending
    order, each with its canonical value. *)
Lemma sortObjectKeys_portable_obj (props : list (string * json)) :
  portable (JObj props) = true ->
  Hmac.sortObjectKeys (JObj props)
  = JObj (map (fun k => (k, js_get (map (fun '(k, v) => (k, Hmac.sortObjectKeys v)) props) k))
              (Js.sort (keys props))).
Proof.
  intros Hp. destruct (portable_obj props Hp) as (Hne & Hnd & Hall).
  rewrite sortObjectKeys_obj. f_equal.
  rewrite (fold_reducer_text _ (Js.sort (keys props))); [reflexivity| | |].
  - eapply Permutation_NoDup; [apply sort_perm | exact Hnd].
  - intros k Hk.
    assert (Hin : In k (keys props))
      by (eapply Permutation_in; [apply Permutation_sym, sort_perm | exact Hk]).
    destruct (In_keys_lookup k props Hin) as (x & _ & Hx).
    destruct (Hall k x Hx) as (_ & Ht & _).
    destruct (text_key_inv k Ht) as (_ & Hproto & _ & Hidx).
    repeat split; auto. now apply lookup_values_defined.
  - intros k _ [].
Qed.

Lemma of_json_portable_obj (props : list (string * json)) :
  portable (JObj props) = true ->
  HmacValidator.sortValue (Php.of_json (JObj props))
  = Php.PArr
      (map (fun k => (Php.KStr k,
                      php_get (map (fun '(k, x) =>
                                      (k, HmacValidator.sortValue (Php.of_json x))) props) k))
           (Js.sort (keys props))).
Proof.
  intros Hp. destruct (portable_obj props Hp) as (Hne & Hnd & Hall).
  assert (Htext : forall k, In k (keys props) -> text_key k = true).
  { intros k Hk. destruct (In_keys_lookup k props Hk) as (x & _ & Hx).
    now destruct (Hall k x Hx) as (_ & Ht & _). }
  cbn [Php.of_json].
  rewrite (of_json_members (map (fun '(k, x) => (k, Php.of_json x)) props)).
  - cbn [app HmacValidator.sortValue]. f_equal.
    rewrite !map_map.
    replace (map (fun x : string * json =>
                    let '(k, x0) := let '(k, x0) := let '(k, x0) := x in (k, Php.of_json x0)
                                    in (Php.KStr k, x0)
                    in (k, HmacValidator.sortValue x0)) props)
      with (map (fun '(k, x) => (Php.KStr k, x))
                (map (fun '(k, x) => (k, HmacValidator.sortValue (Php.of_json x))) props)).
    + rewrite ksort_text.
      * now rewrite keys_map_values.
      * now rewrite keys_map_values.
      * rewrite keys_map_values. intros k Hk.
        now destruct (text_key_inv k (Htext k Hk)) as (Hn & _).
      * rewrite keys_map_values. intros k Hk.
        destruct (In_keys_lookup k props Hk) as (x & _ & Hx).
        now destruct (Hall k x Hx) as (Hpl & _).
    + rewrite map_map. apply map_ext. now intros [k x].
  - now rewrite keys_map_values.
  - now rewrite keys_map_values.
  - intros k _ [].
Qed.

Lemma sort_not_nil (l : list string) : l <> [] -> Js.sort l <> [].
Proof.
  intros Hne E. apply Hne. apply Permutation_nil.
  rewrite <- E. apply Permutation_sym, sort_perm.
Qed.

Lemma encode_sorted_portable (v : json) :
  portable v = true ->
  Php.json_encode (HmacValidator.sortValue (Php.of_json v))
  = Js.JSON_stringify (Hmac.sortObjectKeys v).
Proof.
  induction v as [ | b | n | s | items IH | props IH] using json_induction; intros Hp.
  - reflexivity.
  - reflexivity.
  - reflexivity.
  - cbn [portable] in Hp. cbn. now apply encode_string_plain.
  - cbn [portable] in Hp.
    cbn [Php.of_json HmacValidator.sortValue Hmac.sortObjectKeys Js.JSON_stringify].
    rewrite index_from_map, ksort_index_from, json_encode_arr, is_list_index_from.
    rewrite index_from_values, !map_map. f_equal. f_equal. f_equal.
    apply map_ext_in. intros x Hx.
    rewrite Forall_forall in IH. rewrite forallb_forall in Hp. now apply IH; [|apply Hp].
  - destruct (portable_obj props Hp) as (Hne & Hnd & Hall).
    rewrite (of_json_portable_obj props Hp), (sortObjectKeys_portable_obj props Hp).
    rewrite json_encode_arr.
    pose proof (sort_not_nil (keys props) ltac:(now destruct props)) as Hs.
    match goal with
    | |- context [Php.is_list_from 0 ?l] =>
        assert (Hlist : Php.is_list_from 0 l = false)
          by (destruct (Js.sort (keys props)); [congruence | reflexivity]);
        rewrite Hlist
    end.
    cbn [Js.JSON_stringify]. rewrite !map_map. f_equal. f_equal. f_equal.
    apply map_ext_in. intros k Hk. cbn [Php.key_string].
    assert (Hin : In k (keys props))
      by (eapply Permutation_in; [apply Permutation_sym, sort_perm | exact Hk]).
    destruct (In_keys_lookup k props Hin) as (x & Hlk & Hx).
    destruct (Hall k x Hx) as (Hplain & _ & Hpx).
    rewrite (encode_string_plain k Hplain). f_equal. f_equal.
    unfold php_get, js_get. rewrite !lookup_map_values, Hlk. cbn [option_map].
    rewrite Forall_forall in IH. apply (IH (k, x) Hx Hpx).
Qed.

Lemma portable_wf (v : json) : portable v = true -> wf_json v = true.
Proof.
  induction v as [ | b | n | s | items IH | props IH] using json_induction; intros Hp;
    try reflexivity.
  - cbn [portable wf_json] in *. apply forallb_forall. intros x Hx.
    rewrite Forall_forall in IH. rewrite forallb_forall in Hp. now apply IH; [|apply Hp].
  - destruct (portable_obj props Hp) as (_ & Hnd & Hall).
    cbn [wf_json]. rewrite (NoDup_nodupb _ Hnd). cbn [andb].
    apply forallb_forall. intros [k x] Hx. rewrite Forall_forall in IH.
    apply (IH (k, x) Hx). now destruct (Hall k x Hx) as (_ & _ & H).
Qed.

Lemma portable_sortObjectKeys (v : json) :
  portable v = true -> portable (Hmac.sortObjectKeys v) = true.
Proof.
  induction v as [ | b | n | s | items IH | props IH] using json_induction; intros Hp;
    try exact Hp.
  - cbn [portable Hmac.sortObjectKeys] in *. apply forallb_forall. intros y Hy.
    apply in_map_iff in Hy. destruct Hy as (x & <- & Hx).
    rewrite Forall_forall in IH. rewrite forallb_forall in Hp. now apply IH; [|apply Hp].
  - destruct (portable_obj props Hp) as (Hne & Hnd & Hall).
    rewrite (sortObjectKeys_portable_obj props Hp).
    pose proof (sort_not_nil (keys props) ltac:(now destruct props)) as Hs.
    cbn [portable].
    apply andb_true_iff. split; [apply andb_true_iff; split|].
    + destruct (Js.sort (keys props)); [congruence | reflexivity].
    + apply NoDup_nodupb. unfold keys. rewrite map_map. cbn [fst]. rewrite map_id.
      eapply Permutation_NoDup; [apply sort_perm | exact Hnd].
    + apply forallb_forall. intros e He. apply in_map_iff in He.
      destruct He as (k & <- & Hk). cbn [fst snd].
      assert (Hin : In k (keys props))
        by (eapply Permutation_in; [apply Permutation_sym, sort_perm | exact Hk]).
      destruct (In_keys_lookup k props Hin) as (x & Hlk & Hx).
      destruct (Hall k x Hx) as (Hplain & Ht & Hpx).
      rewrite Hplain, Ht. cbn [andb].
      unfold js_get. rewrite lookup_map_values, Hlk. cbn [option_map].
      rewrite Forall_forall in IH. apply (IH (k, x) Hx Hpx).
Qed.

Lemma visible_digits (d : string) : all_digits d = true -> visible d = true.
Proof.
  induction d as [|c d IH]; simpl; auto.
  intros H. apply andb_true_iff in H. destruct H as [Hc Hd].
  rewrite (IH Hd), andb_true_r.
  unfold is_digit in Hc. unfold visible_char. cbv zeta in *.
  apply andb_true_iff in Hc. destruct Hc as [H1 H2].
  apply Z.leb_le in H1. apply Z.leb_le in H2.
  apply andb_true_iff. split; apply Z.leb_le; lia.
Qed.

Lemma visible_dec_of_Z (n : Z) : visible (dec_of_Z n) = true.
Proof.
  unfold dec_of_Z. destruct (Z.ltb_spec n 0) as [Hn|Hn].
  - cbn [visible]. change (visible_char "-") with true. cbn [andb].
    apply visible_digits. now destruct (dec_of_nat_numeral (- n)) as (H & _); [lia|].
  - apply visible_digits. now destruct (dec_of_nat_numeral n) as (H & _); [lia|].
Qed.

Lemma visible_concat (l : list string) :
  (forall s, In s l -> visible s = true) -> visible (String.concat "," l) = true.
Proof.
  induction l as [|x l IH]; intros H; [reflexivity|].
  destruct l as [|y l].
  - apply H. now left.
  - rewrite concat_cons2, !visible_app.
    rewrite (H x (or_introl eq_refl)), IH by (intros; apply H; now right).
    reflexivity.
Qed.

Lemma visible_quote (s : string) : plain s = true -> visible (Js.quote s) = true.
Proof.
  intros Hp. rewrite (quote_plain s Hp). cbn [visible].
  change (visible_char dquote) with true. cbn [andb].
  rewrite visible_app, (plain_visible s Hp). reflexivity.
Qed.

(** The text written for a portable value holds no white space. *)
Lemma visible_stringify (v : json) :
  portable v = true -> visible (Js.JSON_stringify v) = true.
Proof.
  induction v as [ | b | n | s | items IH | props IH] using json_induction; intros Hp.
  - reflexivity.
  - now destruct b.
  - apply visible_dec_of_Z.
  - now apply visible_quote.
  - cbn [Js.JSON_stringify]. cbn [portable] in Hp.
    rewrite !visible_app. rewrite visible_concat; [reflexivity|].
    intros s Hs. apply in_map_iff in Hs. destruct Hs as (x & <- & Hx).
    rewrite Forall_forall in IH. rewrite forallb_forall in Hp. now apply IH; [|apply Hp].
  - destruct (portable_obj props Hp) as (_ & _ & Hall).
    cbn [Js.JSON_stringify]. rewrite !visible_app. rewrite visible_concat; [reflexivity|].
    intros s Hs. apply in_map_iff in Hs. destruct Hs as ([k x] & <- & Hx).
    destruct (Hall k x Hx) as (Hk & _ & Hpx).
    rewrite !visible_app, (visible_quote k Hk).
    rewrite Forall_forall in IH. specialize (IH (k, x) Hx Hpx). cbn [snd] in IH.
    now rewrite IH.
Qed.

Lemma sortObjectKeys_zero (v : json) : Hmac.sortObjectKeys v = JNum 0 -> v = JNum 0.
Proof. destruct v; simpl; intros H; try discriminate; exact H. Qed.

(** On a portable body the validator computes the hash the signer
    signed. *)
Lemma body_hashes_agree (body : json) (text : string) :
  portable body = true -> Js.truthy body = true ->
  text = Js.JSON_stringify (Hmac.sortObjectKeys body) ->
  (if Php.empty text then EmptyString else sha256_hex (HmacValidator.canonicalBody text))
  = Hmac.hashBody (Some body)
  /\ Hmac.hashBody (Some body) = sha256_hex text.
Proof.
  intros Hp Ht ->.
  set (b' := Hmac.sortObjectKeys body).
  assert (Hp' : portable b' = true) by now apply portable_sortObjectKeys.
  pose proof (parse_stringify b' Hp') as Hparse.
  assert (Hjs : Hmac.hashBody (Some body) = sha256_hex (Js.JSON_stringify b')).
  { unfold Hmac.hashBody. rewrite Ht. cbn [negb]. cbv zeta. fold b'.
    now rewrite (remove_whitespace_visible _ (visible_stringify b' Hp')). }
  split; [|exact Hjs]. rewrite Hjs.
  assert (Hne : Php.empty (Js.JSON_stringify b') = false).
  { unfold Php.empty. destruct (stringify_head b') as (c & r & E & _).
    destruct (String.eqb_spec (Js.JSON_stringify b') EmptyString) as [E0|_]; [congruence|].
    destruct (String.eqb_spec (Js.JSON_stringify b') "0") as [E0|_]; [|reflexivity].
    rewrite E0 in Hparse.
    change (JsonText.parse "0") with (Some (JNum 0)) in Hparse. injection Hparse as Hz.
    symmetry in Hz. apply sortObjectKeys_zero in Hz. subst body. discriminate. }
  rewrite Hne. f_equal.
  unfold HmacValidator.canonicalBody, Php.json_decode. rewrite Hparse.
  destruct (depth b' <? 512)%nat; [|reflexivity].
  destruct (Php.of_json b') as [ | | | | data] eqn:E; try reflexivity.
  change (Php.PArr (HmacValidator.sortArrayKeys data))
    with (HmacValidator.sortValue (Php.PArr data)).
  rewrite <- E, (encode_sorted_portable b' Hp'). unfold b'.
  now rewrite (sortObjectKeys_idempotent body (portable_wf body Hp)).
Qed.

(** On a portable value (safe integers, plain strings, objects that are
    not empty and whose keys are plain texts that are no numerals), nested
    less than 512 deep, the two sides agree: the canonical text the
    validator computes from the text of the value, which is what PHP
    encodes after decoding and sorting, is the text JavaScript writes for
    the canonical form, and that text is read back as the canonical
    form. *)
Theorem canonical_forms_agree (v : json) :
  portable v = true ->
  (depth v < 512)%nat ->
  HmacValidator.canonicalBody (Js.JSON_stringify v)
  = Js.JSON_stringify (Hmac.sortObjectKeys v)
  /\ Php.json_encode (HmacValidator.sortValue (Php.of_json v))
     = Js.JSON_stringify (Hmac.sortObjectKeys v)
  /\ JsonText.parse (Js.JSON_stringify (Hmac.sortObjectKeys v)) = Some (Hmac.sortObjectKeys v).
Proof.
  intros Hp Hd. split; [|split].
  - unfold HmacValidator.canonicalBody, Php.json_decode.
    rewrite (parse_stringify v Hp).
    apply Nat.ltb_lt in Hd. rewrite Hd.
    destruct (Php.of_json v) as [ | | | | data] eqn:E;
      try (destruct v; try discriminate E; reflexivity).
    change (Php.PArr (HmacValidator.sortArrayKeys data))
      with (HmacValidator.sortValue (Php.PArr data)).
    rewrite <- E. now apply encode_sorted_portable.
  - now apply encode_sorted_portable.
  - apply parse_stringify. now apply portable_sortObjectKeys.
Qed.

Lemma canonical_forms_agree_witness :
  HmacValidator.canonicalBody (Js.JSON_stringify body_ba)
  = Js.JSON_stringify (Hmac.sortObjectKeys body_ba).
Proof.
  apply (proj1 (canonical_forms_agree body_ba eq_refl ltac:(cbn; lia))).
Defined.

(** ** From the proxy to the validator *)

Lemma rtrim_slashes_last (a : string) (c : ascii) :
  Ascii.eqb c "/" = false ->
  rtrim_slashes (a ++ String c EmptyString) = a ++ String c EmptyString.
Proof.
  intros Hc. induction a as [|x a IH].
  - simpl. now rewrite Hc.
  - cbn [append rtrim_slashes]. rewrite IH.
    destruct a; reflexivity.
Qed.

Lemma string_last (s : string) :
  s <> EmptyString ->
  exists a c, s = a ++ String c EmptyString /\ In c (list_ascii_of_string s).
Proof.
  induction s as [|x s IH]; [congruence|]. intros _.
  destruct s as [|y s].
  - exists EmptyString, x. split; [reflexivity | now left].
  - destruct (IH ltac:(discriminate)) as (a & c & E & Hin).
    exists (String x a), c. split; [simpl; now rewrite E | now right].
Qed.

Lemma class_char_not_slash (c : ascii) : class_char c -> Ascii.eqb c "/" = false.
Proof.
  intros H. destruct (Ascii.eqb_spec c "/") as [->|]; [|reflexivity].
  unfold class_char in H. cbv in H. intuition congruence.
Qed.

Lemma segments_last (segments : list string) :
  segments <> [] -> Forall matches_class segments ->
  exists a c, String.concat "/" segments = a ++ String c EmptyString
              /\ Ascii.eqb c "/" = false.
Proof.
  induction segments as [|s l IH]; [congruence|]. intros _ H.
  inversion H as [|? ? Hs Hl]; subst.
  destruct l as [|t l].
  - destruct Hs as [Hne Hall]. destruct (string_last s Hne) as (a & c & E & Hin).
    exists a, c. split; [exact E|]. apply class_char_not_slash.
    rewrite Forall_forall in Hall. now apply Hall.
  - destruct (IH ltac:(discriminate) Hl) as (a & c & E & Hc).
    exists (s ++ "/" ++ a), c. split; [|exact Hc].
    rewrite concat_cons2, E, !append_assoc. reflexivity.
Qed.

(** The path Laravel reads is the path that was signed. *)
Lemma Request_path_laravel (segments : list string) :
  segments <> [] -> Forall matches_class segments ->
  Request_path ("/" ++ Route.laravelPath_of segments) = Route.laravelPath_of segments.
Proof.
  intros Hne Hall. destruct (segments_last segments Hne Hall) as (a & c & E & Hc).
  rewrite laravelPath_of_eq, E. unfold Request_path.
  change (ltrim_slashes ("/" ++ "api/v1/" ++ a ++ String c EmptyString))
    with ("api/v1/" ++ a ++ String c EmptyString).
  rewrite <- append_assoc, (rtrim_slashes_last _ c Hc). reflexivity.
Qed.

Lemma Request_path_signed (segments : list string) :
  segments <> [] -> Forall matches_class segments ->
  Request_path (Route.laravelPath_of segments) = Route.laravelPath_of segments.
Proof.
  intros Hne Hall. destruct (segments_last segments Hne Hall) as (a & c & E & Hc).
  rewrite laravelPath_of_eq, E. unfold Request_path.
  change (ltrim_slashes ("api/v1/" ++ a ++ String c EmptyString))
    with ("api/v1/" ++ a ++ String c EmptyString).
  rewrite <- append_assoc, (rtrim_slashes_last _ c Hc). reflexivity.
Qed.

Lemma uppercase_handler_method (method : string) :
  In method handler_methods -> uppercase method = method.
Proof.
  unfold handler_methods. intros Hin.
  repeat (destruct Hin as [<-|Hin]; [reflexivity|]). destruct Hin.
Qed.

Lemma empty_secret (secret : string) :
  secret <> EmptyString -> secret <> "0" -> Php.empty secret = false.
Proof.
  intros H1 H2. unfold Php.empty.
  apply String.eqb_neq in H1. apply String.eqb_neq in H2. now rewrite H1, H2.
Qed.

(** Signing and validating, for a method and a path that are read back
    as they were signed. *)
Lemma sign_then_validate_transmitted
      (env : ProcessEnv) (cfg : HmacValidator.Config) (now_ms now : Z)
      (method path : string) (body : option json) :
  uppercase method = method ->
  Request_path path = path ->
  Hmac.BFF_SECRET env <> EmptyString -> Hmac.BFF_SECRET env <> "0" ->
  HmacValidator.services_bff_id cfg = Some (Hmac.BFF_ID env) ->
  HmacValidator.services_bff_secret cfg = Some (Hmac.BFF_SECRET env) ->
  0 <= now_ms -> now_ms / 1000 <= Php.PHP_INT_MAX ->
  Z.abs (now - now_ms / 1000) <= 300 ->
  (forall r, Hmac.generateSignature env now_ms method path body = Return r ->
             HmacValidator.hashBody (transmit method path r) = Hmac.hashBody body) ->
  sign_then_validate env cfg now_ms now method path body = Some HmacValidator.ok.
Proof.
  intros Hup Hpath Hs1 Hs2 Hid Hsecret Hms Hmax Hwin Hhash.
  unfold sign_then_validate.
  destruct (Hmac.generateSignature env now_ms method path body) as [r|e] eqn:Hsig.
  - f_equal.
    apply (validate_transmitted env cfg now_ms now method path body r); auto.
    now apply empty_secret.
  - rewrite (generateSignature_configured _ _ _ _ _ Hs1) in Hsig. discriminate.
Qed.

(** What the validator answers to a request signed by the gateway for one
    of the methods of the route and a path that passes the guard, with no
    query and no method spoofed: when the two services share the
    identifier and the secret and the clocks are within the tolerance, the
    outcome rests on the two body hashes alone. *)
Lemma validate_signed_request
      (env : ProcessEnv) (cfg : HmacValidator.Config) (now_ms now : Z)
      (method : string) (segments : list string) (body : option json)
      (r : Hmac.HmacResult) :
  In method handler_methods ->
  segments <> [] ->
  Route.validatePathSegments segments = Return tt ->
  spoofs_method method [] body = false ->
  Hmac.generateSignature env now_ms method (Route.laravelPath_of segments) body = Return r ->
  HmacValidator.services_bff_id cfg = Some (Hmac.BFF_ID env) ->
  HmacValidator.services_bff_secret cfg = Some (Hmac.BFF_SECRET env) ->
  Php.empty (Hmac.BFF_SECRET env) = false ->
  0 <= now_ms -> now_ms / 1000 <= Php.PHP_INT_MAX ->
  Z.abs (now - now_ms / 1000) <= 300 ->
  HmacValidator.hashBody (transmit method (Route.laravelPath_of segments) r)
  = Hmac.hashBody body ->
  HmacValidator.validate cfg now (transmit method (Route.laravelPath_of segments) r)
  = HmacValidator.ok.
Proof.
  intros Hm Hne Hguard _ Hsig Hid Hsecret Hempty Hms Hmax Hwin Hhash.
  apply (validate_transmitted env cfg now_ms now method _ body r); auto.
  - now apply uppercase_handler_method.
  - apply Request_path_signed; [exact Hne|]. now apply validatePathSegments_accepts.
Qed.

Lemma validate_signed_request_witness :
  exists r,
    Hmac.generateSignature example_env example_now_ms "POST" (Route.laravelPath_of ["items"])
                           (Some body_ba)
    = Return r
    /\ HmacValidator.validate example_config example_now
         (transmit "POST" (Route.laravelPath_of ["items"]) r)
       = HmacValidator.ok.
Proof.
  eexists. split.
  - apply generateSignature_configured. discriminate.
  - apply (validate_signed_request example_env example_config example_now_ms example_now
             "POST" ["items"] (Some body_ba)).
    + simpl. auto.
    + discriminate.
    + reflexivity.
    + reflexivity.
    + apply generateSignature_configured. discriminate.
    + reflexivity.
    + reflexivity.
    + reflexivity.
    + unfold example_now_ms. lia.
    + vm_compute. discriminate.
    + vm_compute. discriminate.
    + vm_compute. reflexivity.
Defined.

(** A request signed with no body (or the body [null]), for one of the
    methods of the route and a path that passes the guard, is accepted by
    a validator that shares the identifier and the secret and whose clock
    is within the tolerance. *)
Theorem bodiless_request_accepted
        (env : ProcessEnv) (cfg : HmacValidator.Config) (now_ms now : Z)
        (method : string) (segments : list string) (body : option json) :
  In method handler_methods ->
  segments <> [] ->
  Route.validatePathSegments segments = Return tt ->
  body = None \/ body = Some JNull ->
  Hmac.BFF_SECRET env <> EmptyString -> Hmac.BFF_SECRET env <> "0" ->
  HmacValidator.services_bff_id cfg = Some (Hmac.BFF_ID env) ->
  HmacValidator.services_bff_secret cfg = Some (Hmac.BFF_SECRET env) ->
  0 <= now_ms -> now_ms / 1000 <= Php.PHP_INT_MAX ->
  Z.abs (now - now_ms / 1000) <= 300 ->
  sign_then_validate env cfg now_ms now method (Route.laravelPath_of segments) body
  = Some HmacValidator.ok.
Proof.
  intros Hm Hne Hguard Hbody Hs1 Hs2 Hid Hsecret Hms Hmax Hwin.
  apply sign_then_validate_transmitted; auto.
  - now apply uppercase_handler_method.
  - apply Request_path_signed; [exact Hne|]. now apply validatePathSegments_accepts.
  - intros r Hsig. rewrite (generateSignature_configured _ _ _ _ _ Hs1) in Hsig.
    injection Hsig as <-. destruct Hbody as [-> | ->]; reflexivity.
Qed.

Lemma bodiless_request_accepted_witness :
  sign_then_validate example_env example_config example_now_ms example_now
                     "DELETE" (Route.laravelPath_of ["users"; "42"]) (Some JNull)
  = Some HmacValidator.ok.
Proof.
  apply bodiless_request_accepted.
  - simpl. auto 6.
  - discriminate.
  - reflexivity.
  - now right.
  - vm_compute. discriminate.
  - vm_compute. discriminate.
  - reflexivity.
  - reflexivity.
  - vm_compute. discriminate.
  - vm_compute. discriminate.
  - vm_compute. discriminate.
Defined.

(** A portable, truthy body signed by the gateway, for one of the methods
    of the route and a path that passes the guard, with no method spoofed,
    is accepted by a validator that shares the identifier and the secret
    and whose clock is within the tolerance: the hash recomputed from the
    transmitted text is the hash that was signed. *)
Theorem signed_body_accepted
        (env : ProcessEnv) (cfg : HmacValidator.Config) (now_ms now : Z)
        (method : string) (segments : list string) (body : json) :
  In method handler_methods ->
  segments <> [] ->
  Route.validatePathSegments segments = Return tt ->
  spoofs_method method [] (Some body) = false ->
  portable body = true -> Js.truthy body = true ->
  Hmac.BFF_SECRET env <> EmptyString -> Hmac.BFF_SECRET env <> "0" ->
  HmacValidator.services_bff_id cfg = Some (Hmac.BFF_ID env) ->
  HmacValidator.services_bff_secret cfg = Some (Hmac.BFF_SECRET env) ->
  0 <= now_ms -> now_ms / 1000 <= Php.PHP_INT_MAX ->
  Z.abs (now - now_ms / 1000) <= 300 ->
  sign_then_validate env cfg now_ms now method (Route.laravelPath_of segments) (Some body)
  = Some HmacValidator.ok.
Proof.
  intros Hm Hne Hguard _ Hp Ht Hs1 Hs2 Hid Hsecret Hms Hmax Hwin.
  apply sign_then_validate_transmitted; auto.
  - now apply uppercase_handler_method.
  - apply Request_path_signed; [exact Hne|]. now apply validatePathSegments_accepts.
  - intros r Hsig. rewrite (generateSignature_configured _ _ _ _ _ Hs1) in Hsig.
    injection Hsig as <-.
    unfold HmacValidator.hashBody. cbn [transmit HmacValidator.content Hmac.normalizedBody].
    destruct (body_hashes_agree body _ Hp Ht eq_refl) as [H _].
    destruct body; try exact H; discriminate.
Qed.

Lemma signed_body_accepted_witness :
  sign_then_validate example_env example_config example_now_ms example_now
                     "POST" (Route.laravelPath_of ["items"]) (Some body_ba)
  = Some HmacValidator.ok.
Proof.
  apply signed_body_accepted.
  - simpl. auto.
  - discriminate.
  - reflexivity.
  - reflexivity.
  - reflexivity.
  - reflexivity.
  - vm_compute. discriminate.
  - vm_compute. discriminate.
  - reflexivity.
  - reflexivity.
  - vm_compute. discriminate.
  - vm_compute. discriminate.
  - vm_compute. discriminate.
Defined.

(** End to end: a call the proxy makes for one of the methods of the
    route (base URL at the root of the host, at least one segment, a body
    that is absent or portable and truthy, no method spoofed through the
    query or the body) is accepted by the validator when it reaches it, the
    method and the path being read as Laravel reads them. *)
Theorem proxy_call_accepted
        (JSON_parse : string -> option json)
        (fetch : Route.FetchRequest -> Route.FetchOutcome)
        (env : ProcessEnv) (cfg : HmacValidator.Config) (now_ms now : Z)
        (request : Route.Inbound) (method : string) (segments : list string)
        (options : Route.FetchRequest) (base : Route.URL) :
  In options (snd (Route.proxyRequest JSON_parse fetch env now_ms request method segments)) ->
  In method handler_methods ->
  spoofs_method method (Route.query request) (Some (Route.read_body JSON_parse request))
  = false ->
  Route.parse_URL (Route.LARAVEL_API_URL env) = Some base ->
  Route.pathname base = "/" ->
  segments <> [] ->
  Route.read_body JSON_parse request = JNull
  \/ (portable (Route.read_body JSON_parse request) = true
      /\ Js.truthy (Route.read_body JSON_parse request) = true) ->
  Hmac.BFF_SECRET env <> "0" ->
  HmacValidator.services_bff_id cfg = Some (Hmac.BFF_ID env) ->
  HmacValidator.services_bff_secret cfg = Some (Hmac.BFF_SECRET env) ->
  0 <= now_ms -> now_ms / 1000 <= Php.PHP_INT_MAX ->
  Z.abs (now - now_ms / 1000) <= 300 ->
  HmacValidator.validate cfg now (received options) = HmacValidator.ok.
Proof.
  intros Hin Hmethod _ Hbase Hroot Hne Hbody Hs2 Hid Hsecret Hms Hmax Hwin.
  apply proxy_calls_inv in Hin.
  destruct (prepare_call_inv _ _ _ _ _ _ _ Hin)
    as (base' & r & Hpath & Hbase' & Hs1 & Hsig & Hopt & _).
  assert (base' = base) by congruence. subst base'.
  rewrite (generateSignature_configured _ _ _ _ _ Hs1) in Hsig.
  injection Hsig as Hr.
  apply validate_ok_inv.
  exists (Hmac.BFF_ID env), (dec_of_Z (now_ms / 1000)), (Hmac.X_BFF_Signature r),
    (Hmac.BFF_SECRET env).
  assert (Hheaders :
            HmacValidator.header "X-BFF-Id" (Route.fetch_headers options)
            = Some (Hmac.BFF_ID env)
            /\ HmacValidator.header "X-BFF-Timestamp" (Route.fetch_headers options)
               = Some (dec_of_Z (now_ms / 1000))
            /\ HmacValidator.header "X-BFF-Signature" (Route.fetch_headers options)
               = Some (Hmac.X_BFF_Signature r)).
  { rewrite Hopt. cbn [Route.fetch_options Route.fetch_headers]. rewrite <- Hr.
    destruct (Route.present (Route.auth_token request)); repeat split. }
  destruct Hheaders as (H1 & H2 & H3).
  split; [exact H1|]. split; [exact H2|]. split; [exact H3|].
  split; [exact Hid|].
  rewrite (timestamp_read_back now_ms Hms Hmax).
  split; [exact Hwin|]. split; [exact Hsecret|]. split; [exact Hs1|]. split; [exact Hs2|].
  assert (Hm : HmacValidator.method (received options) = method).
  { rewrite Hopt. cbn [received Route.fetch_options Route.fetch_method HmacValidator.method].
    now apply uppercase_handler_method. }
  assert (Hp : HmacValidator.path (received options) = Route.laravelPath_of segments).
  { rewrite Hopt. cbn [received Route.fetch_options Route.url Route.pathname HmacValidator.path].
    rewrite Hroot. apply Request_path_laravel; [exact Hne|].
    now apply validatePathSegments_accepts. }
  assert (Hh : HmacValidator.hashBody (received options)
               = Hmac.hashBody (Some (Route.read_body JSON_parse request))).
  { unfold HmacValidator.hashBody. rewrite Hopt.
    cbn [received Route.fetch_options Route.fetch_body HmacValidator.content].
    rewrite <- Hr. cbn [Hmac.normalizedBody].
    destruct Hbody as [-> | [Hport Htruthy]]; [reflexivity|].
    destruct (body_hashes_agree _ _ Hport Htruthy eq_refl) as [H _].
    destruct (Route.read_body JSON_parse request); try exact H; discriminate. }
  rewrite Hm, Hp, Hh, <- Hr. reflexivity.
Qed.

Lemma proxy_call_accepted_witness :
  HmacValidator.validate example_config example_now
    (received (hd_call (example_proxy EmptyString (Some "tok123") ["users"; "42"])))
  = HmacValidator.ok.
Proof.
  apply (proxy_call_accepted JSON_parse (example_fetch EmptyString) example_env example_config
           example_now_ms example_now (example_inbound (Some "tok123")) "POST"
           ["users"; "42"] _ example_base).
  - vm_compute. left. reflexivity.
  - simpl. auto.
  - vm_compute. reflexivity.
  - reflexivity.
  - reflexivity.
  - discriminate.
  - right. split; vm_compute; reflexivity.
  - vm_compute. discriminate.
  - reflexivity.
  - reflexivity.
  - vm_compute. discriminate.
  - vm_compute. discriminate.
  - vm_compute. discriminate.
Defined.

(** ** The middleware *)

Lemma middleware_login (token : option string) :
  Route.present token = false -> Middleware.middleware token "/auth/login" = Middleware.Next.
Proof. intros H. unfold Middleware.middleware. cbn. rewrite H. reflexivity. Qed.

Lemma middleware_root (token : option string) :
  Middleware.middleware token "/" = Middleware.Next.
Proof. reflexivity. Qed.

(** The middleware lets a request through exactly when a protected path
    comes with a token and a login or registration path comes without one.
    A redirect goes to [/auth/login] (with the path asked for under
    [redirect]) or to [/], and the middleware lets the target through: no
    redirect leads to another. *)
Theorem middleware_redirects_settle (token : option string) (pathname : string) :
  (Middleware.middleware token pathname = Middleware.Next
   <-> (startsWith pathname "/dashboard" = true -> Route.present token = true)
       /\ (startsWith pathname "/auth/login" = true \/ startsWith pathname "/auth/register" = true
           -> Route.present token = false))
  /\ (forall p q,
        Middleware.middleware token pathname = Middleware.Redirect p q ->
        Middleware.middleware token p = Middleware.Next
        /\ ((p = "/auth/login" /\ q = [("redirect", pathname)]
             /\ startsWith pathname "/dashboard" = true /\ Route.present token = false)
            \/ (p = "/" /\ q = [] /\ Route.present token = true))).
Proof.
  pose proof (middleware_login token) as Hlogin.
  pose proof (middleware_root token) as Hroot.
  unfold Middleware.middleware at 1 2, Middleware.protectedRoutes, Middleware.authRoutes.
  cbn [existsb Route.params_set]. rewrite !orb_false_r.
  destruct (startsWith pathname "/dashboard") eqn:Ed; cbn [andb].
  - destruct (Route.present token) eqn:Et; cbn [negb andb].
    + rewrite andb_true_r.
      destruct (startsWith pathname "/auth/login" || startsWith pathname "/auth/register")
        eqn:Ea.
      * split.
        -- split; [discriminate|]. intros [_ H]. apply orb_true_iff in Ea.
           specialize (H Ea). discriminate.
        -- intros p q H. injection H as <- <-. split; [exact Hroot|]. right. auto.
      * split.
        -- split; [|reflexivity]. intros _. split; [reflexivity|].
           intros H. apply orb_true_iff in H. congruence.
        -- intros p q H. discriminate.
    + split.
      * split; [discriminate|]. intros [H _]. specialize (H eq_refl). discriminate.
      * intros p q H. injection H as <- <-. split; [now apply Hlogin|]. left. auto.
  - destruct (Route.present token) eqn:Et; cbn [negb andb].
    + rewrite andb_true_r.
      destruct (startsWith pathname "/auth/login" || startsWith pathname "/auth/register")
        eqn:Ea.
      * split.
        -- split; [discriminate|]. intros [_ H]. apply orb_true_iff in Ea.
           specialize (H Ea). discriminate.
        -- intros p q H. injection H as <- <-. split; [exact Hroot|]. right. auto.
      * split.
        -- split; [|reflexivity]. intros _. split; [discriminate|].
           intros H. apply orb_true_iff in H. congruence.
        -- intros p q H. discriminate.
    + rewrite andb_false_r. split.
      * split; [|reflexivity]. intros _. split; [discriminate | reflexivity].
      * intros p q H. discriminate.
Qed.

(** ** The routes served without a credential *)

Lemma prefix_empty (s : string) : String.prefix EmptyString s = true.
Proof. now destruct s. Qed.

Lemma prefix_nil_r (w : string) : String.prefix w EmptyString = String.eqb w EmptyString.
Proof. now destruct w. Qed.

(** A word without a slash is a prefix of [s] followed by a slash exactly
    when it is a prefix of [s]. *)
Lemma prefix_before_slash (w : string) :
  lacks "/" w = true ->
  forall s r, String.prefix w (s ++ String "/" r) = String.prefix w s.
Proof.
  induction w as [|c w IH]; intros Hw s r.
  - now rewrite !prefix_empty.
  - cbn [lacks] in Hw. apply andb_true_iff in Hw. destruct Hw as [Hc Hw].
    destruct s as [|d s].
    + cbn [append]. rewrite prefix_cons.
      destruct (Ascii.ascii_dec c "/") as [->|_]; [discriminate | reflexivity].
    + cbn [append]. rewrite !prefix_cons.
      destruct (Ascii.ascii_dec c d); [now apply IH | reflexivity].
Qed.

(** A word, a slash and a second word are a prefix of a segment without a
    slash followed by a slash exactly when the segment is the first word
    and the second word is a prefix of what follows. *)
Lemma prefix_across_slash (a : string) :
  lacks "/" a = true ->
  forall s x r,
    lacks "/" s = true ->
    String.prefix (a ++ String "/" x) (s ++ String "/" r)
    = String.eqb s a && String.prefix x r.
Proof.
  induction a as [|c a IH]; intros Ha s x r Hs.
  - destruct s as [|d s].
    + cbn [append]. rewrite prefix_cons.
      destruct (Ascii.ascii_dec "/" "/"); [reflexivity | congruence].
    + cbn [append lacks] in *. apply andb_true_iff in Hs. destruct Hs as [Hd _].
      rewrite prefix_cons.
      destruct (Ascii.ascii_dec "/" d) as [<-|_]; [discriminate | reflexivity].
  - cbn [lacks] in Ha. apply andb_true_iff in Ha. destruct Ha as [Hc Ha].
    destruct s as [|d s].
    + cbn [append]. rewrite prefix_cons.
      destruct (Ascii.ascii_dec c "/") as [->|_]; [discriminate | reflexivity].
    + cbn [append lacks] in *. apply andb_true_iff in Hs. destruct Hs as [_ Hs].
      rewrite prefix_cons. cbn [String.eqb].
      destruct (Ascii.ascii_dec c d) as [->|Hn].
      * rewrite Ascii.eqb_refl. now apply IH.
      * destruct (Ascii.eqb_spec d c) as [->|_]; [congruence | reflexivity].
Qed.

Lemma prefix_no_slash (w s : string) :
  lacks "/" s = true -> lacks "/" w = false -> String.prefix w s = false.
Proof.
  revert s. induction w as [|c w IH]; intros s Hs Hw; [discriminate|].
  destruct s as [|d s]; [reflexivity|].
  cbn [lacks] in *. apply andb_true_iff in Hs. destruct Hs as [Hd Hs].
  rewrite prefix_cons. destruct (Ascii.ascii_dec c d) as [->|_]; [|reflexivity].
  rewrite Hd in Hw. cbn [andb] in Hw. now apply IH.
Qed.

Lemma matches_class_no_slash (s : string) : matches_class s -> lacks "/" s = true.
Proof.
  intros [_ H]. induction s as [|c s IH]; [reflexivity|].
  simpl in H. inversion H as [|? ? Hc Hs]; subst.
  cbn [lacks]. rewrite (class_char_not_slash c Hc). now apply IH.
Qed.

Lemma public_prefix (word : string) (s0 : string) (rest : list string) :
  lacks "/" word = true -> Forall matches_class (s0 :: rest) ->
  String.prefix ("api/v1/auth/" ++ word) ("api/v1/" ++ String.concat "/" (s0 :: rest))
  = match rest with
    | [] => false
    | s1 :: _ => String.eqb s0 "auth" && String.prefix word s1
    end.
Proof.
  intros Hw Hall. inversion Hall as [|? ? Hs0 Hrest]; subst.
  pose proof (matches_class_no_slash s0 Hs0) as Hn0.
  change (String.prefix ("api/v1/auth/" ++ word) ("api/v1/" ++ String.concat "/" (s0 :: rest)))
    with (String.prefix ("auth" ++ String "/" word) (String.concat "/" (s0 :: rest))).
  destruct rest as [|s1 rest].
  - cbn [String.concat]. apply prefix_no_slash; [exact Hn0|].
    clear. reflexivity.
  - rewrite concat_cons2. cbn [append].
    change (s0 ++ String "/" (String.concat "/" (s1 :: rest)))
      with (s0 ++ String "/" (String.concat "/" (s1 :: rest))).
    rewrite (prefix_across_slash "auth" eq_refl s0 word _ Hn0). f_equal.
    destruct rest as [|s2 rest]; [reflexivity|].
    rewrite concat_cons2. cbn [append]. now apply prefix_before_slash.
Qed.

(** The routes forwarded without a credential are those under [auth]
    whose next segment starts with [login], [register] or [providers]:
    the list is matched by prefix, not by segment. *)
Theorem public_routes_by_prefix (segments : list string) :
  Forall matches_class segments ->
  (Route.isPublicRoute (Route.laravelPath_of segments) = true
   <-> exists s rest,
         segments = "auth" :: s :: rest
         /\ (startsWith s "login" = true \/ startsWith s "register" = true
             \/ startsWith s "providers" = true)).
Proof.
  intros Hall. rewrite laravelPath_of_eq.
  unfold Route.isPublicRoute, Route.publicRoutes, startsWith. cbn [existsb].
  rewrite orb_false_r.
  destruct segments as [|s0 rest].
  - split; [discriminate|]. intros (s & r & E & _). discriminate.
  - change "api/v1/auth/login" with ("api/v1/auth/" ++ "login").
    change "api/v1/auth/register" with ("api/v1/auth/" ++ "register").
    change "api/v1/auth/providers" with ("api/v1/auth/" ++ "providers").
    rewrite !(public_prefix _ s0 rest) by (try reflexivity; exact Hall).
    destruct rest as [|s1 rest].
    + split; [discriminate|]. intros (s & r & E & _). discriminate.
    + destruct (String.eqb_spec s0 "auth") as [->|Hne]; cbn [andb].
      * rewrite !orb_true_iff. split.
        -- intros H. exists s1, rest. split; [reflexivity | tauto].
        -- intros (s & r & E & H). injection E as <- <-. tauto.
      * split; [discriminate|]. intros (s & r & E & _). injection E as E _. congruence.
Qed.

Lemma public_routes_by_prefix_witness :
  Route.isPublicRoute (Route.laravelPath_of ["auth"; "google"; "redirect"]) = false.
Proof.
  destruct (Route.isPublicRoute (Route.laravelPath_of ["auth"; "google"; "redirect"])) eqn:E;
    [|reflexivity].
  apply (proj1 (public_routes_by_prefix ["auth"; "google"; "redirect"]
                  ltac:(apply validatePathSegments_accepts; reflexivity))) in E.
  destruct E as (s & rest & E & H). injection E as <- <-.
  destruct H as [H|[H|H]]; discriminate.
Defined.

(** ** The server actions *)

Lemma split_from_app (sep : ascii) (a : string) :
  lacks sep a = true ->
  forall rest cur,
    Auth.split_from sep (a ++ rest) cur = Auth.split_from sep rest (cur ++ a).
Proof.
  induction a as [|c a IH]; intros Ha rest cur.
  - now rewrite append_nil_r.
  - cbn [lacks] in Ha. apply andb_true_iff in Ha. destruct Ha as [Hc Ha].
    apply negb_true_iff in Hc.
    cbn [append Auth.split_from]. rewrite Hc, (IH Ha).
    now rewrite append_assoc.
Qed.

Lemma hd_split_from (sep : ascii) (s : string) :
  forall cur, exists x, hd EmptyString (Auth.split_from sep s cur) = cur ++ x.
Proof.
  induction s as [|c s IH]; intros cur.
  - exists EmptyString. simpl. now rewrite append_nil_r.
  - cbn [Auth.split_from]. destruct (Ascii.eqb c sep).
    + exists EmptyString. simpl. now rewrite append_nil_r.
    + destruct (IH (cur ++ String c EmptyString)) as (x & Hx).
      exists (String c x). rewrite Hx. now rewrite append_assoc.
Qed.

Lemma lacks_app (x : ascii) (a b : string) :
  lacks x (a ++ b) = lacks x a && lacks x b.
Proof. induction a as [|c a IH]; simpl; auto. now rewrite IH, andb_assoc. Qed.

(** The part of a cookie line that [store] splits at the equal signs. *)
Lemma cookie_part (name v tail : string) :
  lacks ";" name = true -> lacks ";" v = true ->
  tail = EmptyString \/ (exists r, tail = String ";" r) \/ (exists r, tail = String "=" r) ->
  exists x,
    hd EmptyString (Auth.split ";" (name ++ "=" ++ v ++ tail))
    = name ++ "=" ++ v ++ x
    /\ (x = EmptyString \/ exists r, x = String "=" r).
Proof.
  intros Hn Hv Htail. unfold Auth.split.
  rewrite <- !append_assoc.
  rewrite (split_from_app ";" ((name ++ "=") ++ v)).
  2:{ rewrite !lacks_app, Hn, Hv. reflexivity. }
  cbn [append].
  destruct Htail as [-> | [(r & ->) | (r & ->)]].
  - exists EmptyString. split; [|now left]. cbn [Auth.split_from hd].
    rewrite append_nil_r, append_assoc. reflexivity.
  - exists EmptyString. split; [|now left]. cbn [Auth.split_from hd].
    change (Ascii.eqb ";" ";") with true. cbv iota. cbn [hd].
    rewrite append_nil_r, append_assoc. reflexivity.
  - cbn [Auth.split_from].
    change (Ascii.eqb "=" ";") with false. cbv iota.
    destruct (hd_split_from ";" r (((name ++ "=") ++ v) ++ "=")) as (x & ->).
    exists (String "=" x). split; [|right; now exists x].
    rewrite !append_assoc. reflexivity.
Qed.

(** A cookie the upstream sets is stored under its name with the text
    between the first equal sign and the next equal sign or semicolon, and
    with fixed attributes (HttpOnly, SameSite lax, path [/], 15 days)
    whatever attributes the line carried; a line with an empty name or
    value stores nothing. *)
Theorem store_keeps_name_and_value (env : ProcessEnv) (name v tail : string) :
  lacks ";" name = true -> lacks "=" name = true ->
  lacks ";" v = true -> lacks "=" v = true ->
  tail = EmptyString \/ (exists r, tail = String ";" r) \/ (exists r, tail = String "=" r) ->
  Auth.store env (name ++ "=" ++ v ++ tail)
  = if String.eqb name EmptyString || String.eqb v EmptyString then []
    else [ {| Auth.name := name; Auth.value := v; Auth.httpOnly := true;
              Auth.secure := match env_NODE_ENV env with
                             | Some e => String.eqb e "production"
                             | None => false
                             end;
              Auth.sameSite := "lax"; Auth.path := "/"; Auth.maxAge := 1296000 |} ].
Proof.
  intros Hn1 Hn2 Hv1 Hv2 Htail.
  destruct (cookie_part name v tail Hn1 Hv1 Htail) as (x & Hpart & Hx).
  unfold Auth.store. cbv zeta. rewrite Hpart.
  assert (Hsplit : exists l, Auth.split "=" (name ++ "=" ++ v ++ x) = name :: v :: l).
  { unfold Auth.split. rewrite (split_from_app "=" name Hn2). cbn [append Auth.split_from].
    change (Ascii.eqb "=" "=") with true. cbv iota.
    rewrite (split_from_app "=" v Hv2). cbn [append].
    destruct Hx as [-> | (r & ->)].
    - exists []. reflexivity.
    - cbn [Auth.split_from]. change (Ascii.eqb "=" "=") with true. cbv iota.
      eexists. reflexivity. }
  destruct Hsplit as (l & ->).
  destruct (String.eqb name EmptyString), (String.eqb v EmptyString); reflexivity.
Qed.

Lemma store_keeps_name_and_value_witness :
  Auth.store example_env "laravel_session=abc; Max-Age=0; Path=/api; Secure"
  = [ {| Auth.name := "laravel_session"; Auth.value := "abc"; Auth.httpOnly := true;
         Auth.secure := true; Auth.sameSite := "lax"; Auth.path := "/";
         Auth.maxAge := 1296000 |} ].
Proof.
  apply (store_keeps_name_and_value example_env "laravel_session" "abc"
           "; Max-Age=0; Path=/api; Secure" eq_refl eq_refl eq_refl eq_refl).
  right. left. eexists. reflexivity.
Defined.

(** A visitor without the cookie: the gateway (configured) answers the
    request for [me] itself, with no call to the upstream, and
    [getCurrentUserAction] turns that answer into [null]. *)
Theorem logged_out_user_is_null
        (parse : string -> option json)
        (upstream : Route.FetchRequest -> Route.FetchOutcome)
        (fetch : Auth.Call -> Auth.BffResponse + exn)
        (env : ProcessEnv) (now_ms : Z) (request : Route.Inbound) (method : string)
        (app_url : option string) (base : Route.URL) :
  Route.present (Route.auth_token request) = false ->
  Route.parse_URL (Route.LARAVEL_API_URL env) = Some base ->
  Hmac.BFF_SECRET env <> EmptyString ->
  (forall call, exists response,
      fetch call = inl response
      /\ Auth.bff_status response
         = Route.status (fst (Route.proxyRequest parse upstream env now_ms request method
                                                 ["me"]))
      /\ Auth.bff_body response
         = Route.response_body (fst (Route.proxyRequest parse upstream env now_ms request
                                                        method ["me"]))) ->
  snd (Route.proxyRequest parse upstream env now_ms request method ["me"]) = []
  /\ Auth.getCurrentUserAction JSON_parse fetch env app_url (Route.auth_token request)
     = Auth.NoUser.
Proof.
  intros Htoken Hbase Hsecret Hfetch.
  destruct (prepare_valid_path parse env now_ms request method ["me"] base
              eq_refl Hbase Hsecret) as (r & u & _ & _ & Hprep).
  rewrite Htoken in Hprep.
  change (Route.isPublicRoute (Route.laravelPath_of ["me"])) with false in Hprep.
  cbn [negb] in Hprep.
  assert (Hout : Route.proxyRequest parse upstream env now_ms request method ["me"]
                 = (Route.unauthorized, [])).
  { unfold Route.proxyRequest. now rewrite Hprep. }
  rewrite Hout in *. split; [reflexivity|].
  unfold Auth.getCurrentUserAction, Auth.bffRequest. cbv zeta.
  match goal with |- context [fetch ?c] => destruct (Hfetch c) as (response & -> & Hst & Hb) end.
  cbn [fst] in Hst, Hb.
  unfold Auth.response_ok. rewrite Hst, Hb. reflexivity.
Qed.

Lemma logged_out_user_is_null_witness :
  Auth.getCurrentUserAction JSON_parse
    (fun _ => inl {| Auth.bff_status := 401; Auth.bff_statusText := EmptyString;
                     Auth.bff_body :=
                       txt "{'error':'Unauthorized','message':'No auth token found'}";
                     Auth.bff_setCookie := [] |})
    example_env None None
  = Auth.NoUser.
Proof.
  refine (proj2 (logged_out_user_is_null JSON_parse (example_fetch EmptyString) _ example_env
                   example_now_ms (example_inbound None) "GET" None example_base
                   eq_refl eq_refl _ _)).
  - discriminate.
  - intros call. eexists. split; [reflexivity|]. split; reflexivity.
Defined.

(** ** Every outcome of the proxy *)

Lemma on_error_status (e : exn) : Route.status (Route.on_error e) = 500.
Proof. now destruct e. Qed.

(** Every run of the proxy ends in one of these ways: no call and the
    status 401 (no credential) or 500; one call whose answer is relayed,
    with its status, its status text and its body; one call whose answer
    cannot be relayed (a status outside 200..599, or 204, 205 or 304) and
    the generic error 500; one call that failed or timed out, and the
    status 500.  The proxy sets no cookie of its own on an answer it made
    up. *)
Theorem proxy_outcomes
        (JSON_parse : string -> option json)
        (fetch : Route.FetchRequest -> Route.FetchOutcome)
        (env : ProcessEnv) (now_ms : Z) (request : Route.Inbound)
        (method : string) (segments : list string) :
  let out := Route.proxyRequest JSON_parse fetch env now_ms request method segments in
  (snd out = []
   /\ ((Route.status (fst out) = 401 /\ Route.present (Route.auth_token request) = false)
       \/ Route.status (fst out) = 500)
   /\ Route.cookies (fst out) = [])
  \/ (exists options,
        snd out = [options]
        /\ ((exists response,
               fetch options = Route.Responded response
               /\ 200 <= Route.upstream_status response <= 599
               /\ Route.upstream_status response <> 204
               /\ Route.upstream_status response <> 205
               /\ Route.upstream_status response <> 304
               /\ Route.relay JSON_parse env response = Return (fst out)
               /\ Route.status (fst out) = Route.upstream_status response
               /\ Route.statusText (fst out) = Route.upstream_statusText response
               /\ Route.response_body (fst out) = Route.upstream_body response
               /\ Route.cookies (fst out)
                  = Route.token_cookies JSON_parse env (Route.answered_ms response)
                                        (Route.upstream_body response))
            \/ (exists response,
                  fetch options = Route.Responded response
                  /\ (Route.upstream_status response < 200
                      \/ 599 < Route.upstream_status response
                      \/ Route.upstream_status response = 204
                      \/ Route.upstream_status response = 205
                      \/ Route.upstream_status response = 304)
                  /\ fst out = failed_to_proxy)
            \/ ((forall response, fetch options <> Route.Responded response)
                /\ Route.status (fst out) = 500
                /\ Route.cookies (fst out) = []))).
Proof.
  cbv zeta.
  destruct (Route.prepare JSON_parse env now_ms request method segments)
    as [[options|early]|e] eqn:Hprep.
  - right. exists options.
    split; [now apply proxy_calls_once|].
    destruct (fetch options) as [response| |e] eqn:Hf.
    + rewrite (proxy_relays JSON_parse fetch env now_ms request method segments options
                 response Hprep Hf). cbn [fst].
      destruct (Z.ltb_spec (Route.upstream_status response) 200) as [Hlt|Hge].
      { right. left. exists response.
        destruct (relay_refused JSON_parse env response (or_introl Hlt)) as (e & -> & ->).
        auto. }
      destruct (Z.ltb_spec 599 (Route.upstream_status response)) as [Hgt|Hle].
      { right. left. exists response.
        destruct (relay_refused JSON_parse env response (or_intror (or_introl Hgt)))
          as (e & -> & ->).
        auto. }
      destruct (Route.null_body_status (Route.upstream_status response)) eqn:Hnull.
      { right. left. exists response.
        destruct (relay_refused JSON_parse env response (or_intror (or_intror Hnull)))
          as (e & -> & ->).
        apply (null_body_status_spec _ Hge) in Hnull.
        split; [reflexivity|]. split; [|reflexivity]. tauto. }
      left. exists response.
      rewrite (relay_built JSON_parse env response (conj Hge Hle) Hnull).
      cbn [Route.status Route.statusText Route.response_body Route.cookies].
      assert (Hn : ~ (Route.upstream_status response = 204
                      \/ Route.upstream_status response = 205
                      \/ Route.upstream_status response = 304)).
      { intros H. apply (null_body_status_spec _ Hge) in H. congruence. }
      repeat split; auto; lia.
    + right. right. unfold Route.proxyRequest. rewrite Hprep, Hf. cbn [fst].
      split; [intros response; discriminate|]. split; reflexivity.
    + right. right. unfold Route.proxyRequest. rewrite Hprep, Hf. cbn [fst].
      split; [intros response; discriminate|]. split; [apply on_error_status|].
      now destruct (Route.inner_catch e).
  - left. unfold Route.proxyRequest. rewrite Hprep. cbn [fst snd]. split; [reflexivity|].
    unfold Route.prepare in Hprep.
    destruct (Route.validatePathSegments segments) as [[]|e]; cbn [bind] in Hprep;
      [|discriminate].
    destruct (Route.new_URL_relative _ _) as [u|e]; cbn [bind] in Hprep; [|discriminate].
    destruct (Route.new_URL _) as [u'|e]; cbn [bind] in Hprep; [|discriminate].
    destruct (negb _); [discriminate|].
    destruct (Hmac.generateSignature _ _ _ _ _) as [r|e]; cbn [bind] in Hprep; [|discriminate].
    destruct (Route.present (Route.auth_token request)); [discriminate|].
    destruct (negb _); [|discriminate].
    injection Hprep as <-. split; [left; split; reflexivity | reflexivity].
  - left. unfold Route.proxyRequest. rewrite Hprep. cbn [fst snd].
    split; [reflexivity|]. split; [right; apply on_error_status|].
    now destruct e.
Qed.

(** ** The payload that is signed *)

Lemma split_unique (x : ascii) (a a' r r' : string) :
  lacks x a = true -> lacks x a' = true ->
  a ++ String x r = a' ++ String x r' -> a = a' /\ r = r'.
Proof.
  revert a'. induction a as [|c a IH]; intros [|c' a'] Ha Ha' E; cbn [append lacks] in *.
  - injection E as E. now split.
  - injection E as E1 E2. subst c'. rewrite Ascii.eqb_refl in Ha'. discriminate.
  - injection E as E1 E2. subst c. rewrite Ascii.eqb_refl in Ha. discriminate.
  - injection E as E1 E2. subst c'.
    apply andb_true_iff in Ha. apply andb_true_iff in Ha'.
    destruct (IH a' (proj2 Ha) (proj2 Ha') E2) as [-> ->]. now split.
Qed.

Lemma digits_lack_colon (d : string) : all_digits d = true -> lacks ":" d = true.
Proof.
  induction d as [|c d IH]; simpl; auto.
  intros H. apply andb_true_iff in H. destruct H as [Hc Hd].
  rewrite (IH Hd), andb_true_r. apply negb_true_iff.
  now apply is_digit_not.
Qed.

Lemma dec_of_Z_lacks_colon (n : Z) : lacks ":" (dec_of_Z n) = true.
Proof.
  unfold dec_of_Z. destruct (Z.ltb_spec n 0) as [Hn|Hn].
  - cbn [lacks]. change (Ascii.eqb "-" ":") with false. cbn [negb andb].
    apply digits_lack_colon. now destruct (dec_of_nat_numeral (- n)) as (H & _); [lia|].
  - apply digits_lack_colon. now destruct (dec_of_nat_numeral n) as (H & _); [lia|].
Qed.

Lemma class_lacks_colon (s : string) : matches_class s -> lacks ":" s = true.
Proof.
  intros [_ H]. induction s as [|c s IH]; [reflexivity|].
  simpl in H. inversion H as [|? ? Hc Hs]; subst.
  cbn [lacks]. rewrite (IH Hs), andb_true_r. apply negb_true_iff.
  destruct (Ascii.eqb_spec c ":") as [->|]; [|reflexivity].
  unfold class_char in Hc. cbv in Hc. intuition congruence.
Qed.

Lemma laravelPath_lacks_colon (segments : list string) :
  Forall matches_class segments -> lacks ":" (Route.laravelPath_of segments) = true.
Proof.
  intros H. rewrite laravelPath_of_eq, lacks_app. cbn [andb].
  change (lacks ":" "api/v1/") with true. cbn [andb].
  induction H as [|s l Hs Hl IH]; [reflexivity|].
  destruct l as [|t l].
  - cbn [String.concat]. now apply class_lacks_colon.
  - rewrite concat_cons2, !lacks_app, (class_lacks_colon s Hs), IH. reflexivity.
Qed.

Lemma dec_of_Z_injective (a b : Z) : dec_of_Z a = dec_of_Z b -> a = b.
Proof.
  intros E. pose proof (numeric_dec_of_Z a) as Ha. rewrite E, numeric_dec_of_Z in Ha.
  now injection Ha.
Qed.

(** The payload the proxy signs is read in one way only: two payloads made
    of a clock value, a method of the handlers, a path of validated
    segments and a body hash are equal only when the four parts are. *)
Theorem payload_unambiguous
        (t t' : Z) (method method' : string) (segments segments' : list string)
        (bodyHash bodyHash' : string) :
  In method handler_methods -> In method' handler_methods ->
  Forall matches_class segments -> Forall matches_class segments' ->
  dec_of_Z t ++ ":" ++ method ++ ":" ++ Route.laravelPath_of segments ++ ":" ++ bodyHash
  = dec_of_Z t' ++ ":" ++ method' ++ ":" ++ Route.laravelPath_of segments' ++ ":" ++ bodyHash' ->
  t = t' /\ method = method'
  /\ Route.laravelPath_of segments = Route.laravelPath_of segments'
  /\ bodyHash = bodyHash'.
Proof.
  intros Hm Hm' Hs Hs' E.
  assert (Hmc : forall m, In m handler_methods -> lacks ":" m = true).
  { intros m H. simpl in H. repeat (destruct H as [<-|H]; [reflexivity|]). destruct H. }
  cbn [append] in E.
  apply split_unique in E; try apply dec_of_Z_lacks_colon. destruct E as [Et E].
  apply split_unique in E; auto. destruct E as [Em E].
  apply split_unique in E; try now apply laravelPath_lacks_colon. destruct E as [Ep Eh].
  apply dec_of_Z_injective in Et. auto.
Qed.

Lemma payload_unambiguous_witness :
  1700000000 = 1700000000 /\ "GET" = "GET"
  /\ Route.laravelPath_of ["users"; "42"] = Route.laravelPath_of ["users"; "42"]
  /\ EmptyString = EmptyString.
Proof.
  apply (payload_unambiguous 1700000000 1700000000 "GET" "GET" ["users"; "42"] ["users"; "42"]
           EmptyString EmptyString).
  - simpl. auto.
  - simpl. auto.
  - apply validatePathSegments_accepts. reflexivity.
  - apply validatePathSegments_accepts. reflexivity.
  - reflexivity.
Defined.
